(** * gowarcraft3: packet buffer and W3G replay records

    A shallow embedding of [pkg/util/packetbuffer.go] (the byte buffer with
    its typed append and consume primitives) and of the W3G record codecs
    (package [w3g]), followed by the properties established about them.

    Conventions of the embedding.
    - A Go [byte] is a [Byte.byte]; [uint16] and [uint32] values are numbers
      in [N], with the truncation of every conversion written out; Go's
      signed [int] is a [Z].
    - A [[]byte] slice and a [string] are both [list byte].  A nil slice and
      an empty slice are the same list.
    - A method on [*PacketBuffer] is a computation over the buffer contents
      [b.Bytes]: it receives the current bytes and yields an outcome and
      the new bytes.  A returned non-nil [error] is [Err]; a run-time panic
      (index or slice bounds out of range) is [Panic]. *)

From Stdlib Require Import NArith ZArith List Bool Lia.
From Stdlib.Strings Require Import Byte.
From Equations Require Import Equations.
Import ListNotations.

Local Open Scope Z_scope.

(** ** Errors and outcomes *)

(** The error sentinels the embedded code returns. *)
Inductive error : Set :=
| ErrInvalidIP4               (* util.ErrInvalidIP4 *)
| ErrNoStringTerminatorFound  (* util.ErrNoStringTerminatorFound *)
| ErrShortBuffer              (* io.ErrShortBuffer *)
| ErrUnexpectedConst          (* w3g.ErrUnexpectedConst *)
| ErrBadFormat.               (* w3g.ErrBadFormat *)

Inductive outcome (A : Type) : Type :=
| Ok (a : A)
| Err (e : error)
| Panic.

Arguments Ok {A} a.
Arguments Err {A} e.
Arguments Panic {A}.

(** A buffer method: from the bytes held to an outcome and the bytes left. *)
Definition M (A : Type) : Type := list byte -> outcome A * list byte.

Definition ret {A} (a : A) : M A := fun b => (Ok a, b).

Definition bind {A B} (c : M A) (k : A -> M B) : M B :=
  fun b =>
    match c b with
    | (Ok a, b') => k a b'
    | (Err e, b') => (Err e, b')
    | (Panic, b') => (Panic, b')
    end.

(** [return err] *)
Definition fail {A} (e : error) : M A := fun b => (Err e, b).

Definition panic {A} : M A := fun b => (Panic, b).

Declare Scope buf_scope.
Delimit Scope buf_scope with buf.
Notation "x <- c ;; k" := (bind c (fun x => k))
  (at level 61, c at next level, right associativity) : buf_scope.
Notation "c ;; k" := (bind c (fun _ => k))
  (at level 61, right associativity) : buf_scope.
Local Open Scope buf_scope.

(** ** Bytes and fixed-width integers *)

(** The conversion [byte(v)]: the low eight bits of [v]. *)
Definition to_byte (v : N) : byte :=
  match Byte.of_N (v mod 256) with
  | Some b => b
  | None => x00
  end.

(** The conversions [uint16(b)] and [uint32(b)] of a byte. *)
Definition of_byte (b : byte) : N := Byte.to_N b.

(** The conversions [uint8(n)] and [uint16(n)] of an [int]. *)
Definition uint8 (n : Z) : byte := to_byte (Z.to_N (n mod 256)).
Definition uint16 (n : Z) : N := Z.to_N (n mod 65536).

(** [len(x)] as an [int]. *)
Definition len {A} (l : list A) : Z := Z.of_nat (length l).

(** [bytes.IndexByte(b, c)]: index of the first [c] in [b], or -1. *)
Fixpoint IndexByte (b : list byte) (c : byte) : Z :=
  match b with
  | [] => -1
  | x :: b' =>
      if Byte.eqb x c then 0
      else let i := IndexByte b' c in
           if i =? -1 then -1 else i + 1
  end.

(** ** net.IP *)

Module net.

(** [net.IP] is a byte slice of length 4 or 16 (any length can be built). *)
Definition IP := list byte.

Definition IPv4len : Z := 4.
Definition IPv6len : Z := 16.

Definition isZeros (p : list byte) : bool :=
  forallb (fun x => Byte.eqb x x00) p.

(** [ip.To4()]: the 4-byte form of an IPv4 address, [None] for nil. *)
Definition To4 (ip : IP) : option IP :=
  if len ip =? IPv4len then Some ip
  else if (len ip =? IPv6len)
          && isZeros (firstn 10 ip)
          && Byte.eqb (nth 10 ip x00) xff
          && Byte.eqb (nth 11 ip x00) xff
       then Some (firstn 4 (skipn 12 ip))
       else None.

(** [bytealg.Equal]: the same bytes. *)
Fixpoint bytes_equal (a b : list byte) : bool :=
  match a, b with
  | [], [] => true
  | x :: a', y :: b' => Byte.eqb x y && bytes_equal a' b'
  | _, _ => false
  end.

Definition v4InV6Prefix : list byte :=
  [x00; x00; x00; x00; x00; x00; x00; x00; x00; x00; xff; xff].

(** [net.IPv4(a, b, c, d)]: the address in its 16-byte form. *)
Definition IPv4 (a b c d : byte) : IP := v4InV6Prefix ++ [a; b; c; d].

Definition IPv4zero : IP := IPv4 x00 x00 x00 x00.

(** [ip.Equal(x)]: equality of addresses, an IPv4 address and its 16-byte
    form being equal. *)
Definition Equal (ip x : IP) : bool :=
  if len ip =? len x then bytes_equal ip x
  else if (len ip =? IPv4len) && (len x =? IPv6len) then
    bytes_equal (firstn 12 x) v4InV6Prefix && bytes_equal ip (skipn 12 x)
  else if (len ip =? IPv6len) && (len x =? IPv4len) then
    bytes_equal (firstn 12 ip) v4InV6Prefix && bytes_equal (skipn 12 ip) x
  else false.

End net.

(** ** util.PacketBuffer *)

Module util.

(** [PacketBuffer] wraps the slice [Bytes]. *)
Definition PacketBuffer := list byte.

(** [Size] returns the total size of the buffer. *)
Definition Size : M Z := fun b => (Ok (len b), b).

(** [Skip] consumes [n] bytes: [b.Bytes = b.Bytes[n:]]. *)
Definition Skip (n : Z) : M unit := fun b =>
  if (0 <=? n) && (n <=? len b) then (Ok tt, skipn (Z.to_nat n) b)
  else (Panic, b).

Definition WriteBlob (v : list byte) : M unit := fun b => (Ok tt, b ++ v).

Definition WriteUInt8 (v : byte) : M unit := fun b => (Ok tt, b ++ [v]).

Definition WriteUInt16 (v : N) : M unit := fun b =>
  (Ok tt, b ++ [to_byte v; to_byte (N.shiftr v 8)]).

Definition WriteUInt32 (v : N) : M unit := fun b =>
  (Ok tt, b ++ [to_byte v; to_byte (N.shiftr v 8);
                to_byte (N.shiftr v 16); to_byte (N.shiftr v 24)]).

Definition WriteBool (v : bool) : M unit := fun b =>
  let i := if v then x01 else x00 in (Ok tt, b ++ [i]).

Definition WritePort (v : N) : M unit := fun b =>
  (Ok tt, b ++ [to_byte (N.shiftr v 8); to_byte v]).

(** [WriteIP]: the four address bytes, or four zero bytes and the error. *)
Definition WriteIP (v : net.IP) : M unit :=
  match net.To4 v with
  | Some ip4 => WriteBlob ip4
  | None => WriteUInt32 0 ;; fail ErrInvalidIP4
  end.

Definition WriteString (s : list byte) : M unit :=
  WriteBlob s ;; WriteUInt8 x00.

(** [b.Bytes[p] = v], a panic when [p] is out of range. *)
Definition WriteUInt8At (p : Z) (v : byte) : M unit := fun b =>
  if (0 <=? p) && (p <? len b)
  then (Ok tt, firstn (Z.to_nat p) b ++ v :: skipn (S (Z.to_nat p)) b)
  else (Panic, b).

(** [b.Bytes[p+1], b.Bytes[p] = byte(v>>8), byte(v)]: the elements are
    assigned from left to right, so that an index out of range panics
    with the assignments before it done. *)
Definition WriteUInt16At (p : Z) (v : N) : M unit :=
  WriteUInt8At (p + 1) (to_byte (N.shiftr v 8)) ;;
  WriteUInt8At p (to_byte v).

(** [ReadBlob] consumes [n] bytes; nothing is read when [n <= 0]. *)
Definition ReadBlob (n : Z) : M (list byte) := fun b =>
  if 0 <? n then
    if n <=? len b
    then (Ok (firstn (Z.to_nat n) b), skipn (Z.to_nat n) b)
    else (Panic, b)
  else (Ok [], b).

Definition ReadUInt8 : M byte := fun b =>
  match b with
  | x :: b' => (Ok x, b')
  | _ => (Panic, b)
  end.

Definition ReadUInt16 : M N := fun b =>
  match b with
  | x0 :: x1 :: b' => (Ok (N.lor (N.shiftl (of_byte x1) 8) (of_byte x0)), b')
  | _ => (Panic, b)
  end.

Definition ReadUInt32 : M N := fun b =>
  match b with
  | x0 :: x1 :: x2 :: x3 :: b' =>
      (Ok (N.lor (N.lor (N.lor (N.shiftl (of_byte x3) 24)
                               (N.shiftl (of_byte x2) 16))
                        (N.shiftl (of_byte x1) 8))
                 (of_byte x0)), b')
  | _ => (Panic, b)
  end.

Definition ReadBool : M bool := fun b =>
  match b with
  | x :: b' => (Ok (0 <? of_byte x)%N, b')
  | _ => (Panic, b)
  end.

Definition ReadPort : M N := fun b =>
  match b with
  | x0 :: x1 :: b' => (Ok (N.lor (of_byte x1) (N.shiftl (of_byte x0) 8)), b')
  | _ => (Panic, b)
  end.

(** [ReadString] has two results, the string and the error; both are in
    the value, and the buffer is updated on either path. *)
Definition ReadString : M (list byte * option error) := fun b =>
  let pos := IndexByte b x00 in
  if pos =? -1 then
    (Ok ([], Some ErrNoStringTerminatorFound), skipn (length b) b)
  else
    (Ok (firstn (Z.to_nat pos) b, None), skipn (Z.to_nat (pos + 1)) b).

(** [WriteBlobAt]: [copy(b.Bytes[p:], v)], which copies as many bytes as
    both slices hold; slicing at [p] panics outside [0, len]. *)
Definition WriteBlobAt (p : Z) (v : list byte) : M unit := fun b =>
  if (0 <=? p) && (p <=? len b) then
    let n := Z.min (len v) (len b - p) in
    (Ok tt, firstn (Z.to_nat p) b ++ firstn (Z.to_nat n) v
            ++ skipn (Z.to_nat (p + n)) b)
  else (Panic, b).

(** [b.Bytes[p+3], b.Bytes[p+2], b.Bytes[p+1], b.Bytes[p] = byte(v>>24),
    byte(v>>16), byte(v>>8), byte(v)], assigned from left to right. *)
Definition WriteUInt32At (p : Z) (v : N) : M unit :=
  WriteUInt8At (p + 3) (to_byte (N.shiftr v 24)) ;;
  WriteUInt8At (p + 2) (to_byte (N.shiftr v 16)) ;;
  WriteUInt8At (p + 1) (to_byte (N.shiftr v 8)) ;;
  WriteUInt8At p (to_byte v).

Definition WriteBoolAt (p : Z) (v : bool) : M unit :=
  let i := if v then x01 else x00 in WriteUInt8At p i.

(** [b.Bytes[p+1], b.Bytes[p] = byte(v), byte(v>>8)], assigned from left
    to right. *)
Definition WritePortAt (p : Z) (v : N) : M unit :=
  WriteUInt8At (p + 1) (to_byte v) ;;
  WriteUInt8At p (to_byte (N.shiftr v 8)).

Definition WriteIPAt (p : Z) (v : net.IP) : M unit :=
  match net.To4 v with
  | Some ip4 => WriteBlobAt p ip4
  | None => WriteUInt32At p 0 ;; fail ErrInvalidIP4
  end.

Definition WriteStringAt (p : Z) (s : list byte) : M unit :=
  WriteBlobAt p s ;; WriteUInt8At (p + len s) x00.

(** [ReadIP] consumes four bytes; the zero address reads as nil. *)
Definition ReadIP : M net.IP :=
  res <- ReadBlob net.IPv4len ;;
  if net.Equal res net.IPv4zero then ret [] else ret res.

End util.

(** ** protocol.Buffer *)

Module protocol.

(** Modelled from the spec: [protocol.Buffer], declared in package
    [protocol]; the record codecs are written against it.  It is the
    packet buffer of the specification, a byte sequence consumed from the
    front and appended to at the back, and what the specification says of
    its primitives is what [util.PacketBuffer] does. *)
Definition Buffer := util.PacketBuffer.

(** Modelled from the spec: [WriteCString], declared in package
    [protocol]; the string bytes followed by a zero byte. *)
Definition WriteCString : list byte -> M unit := util.WriteString.

(** Modelled from the spec: [ReadCString], declared in package [protocol];
    the bytes before the first zero, the buffer advanced past it, or the
    no-terminator error with the buffer drained. *)
Definition ReadCString : M (list byte * option error) := util.ReadString.

(** Modelled from the spec: [WriteBool32], declared in package [protocol];
    the primitive codec list gives [bool32] as a 4-byte 0/1 value. *)
Definition WriteBool32 (v : bool) : M unit :=
  util.WriteUInt32 (if v then 1%N else 0%N).

(** Modelled from the spec: [ReadBool32], declared in package [protocol];
    the counterpart of [WriteBool32], in the manner of [ReadBool]. *)
Definition ReadBool32 : M bool :=
  v <- util.ReadUInt32 ;; ret (0 <? v)%N.

End protocol.

(** ** unicode *)

Module unicode.

(** [strings.IndexFunc] walks the UTF-8 runes of a string and
    [unicode.IsPrint] consults the Unicode tables; both belong to the Go
    library and enter the codecs through this interface. *)
Class Tables : Type := {
  runes : list byte -> list N;
  IsPrint : N -> bool
}.

(** The ASCII fragment of the tables: each byte is one rune, and the
    printable runes are 0x20 to 0x7E.  On strings of ASCII bytes this is
    what the Go library computes. *)
Definition ascii : Tables := {|
  runes := map of_byte;
  IsPrint := fun r => ((32 <=? r) && (r <? 127))%N
|}.

End unicode.

Module strings.

(** [strings.IndexFunc(s, func(r rune) bool { return !unicode.IsPrint(r) })
    != -1]: some rune of [s] is not printable. *)
Definition has_nonprint {T : unicode.Tables} (s : list byte) : bool :=
  existsb (fun r => negb (unicode.IsPrint r)) (unicode.runes s).

End strings.

(** ** Package w3gs: the structures the records wrap *)

Module w3gs.

(** Modelled from the spec: [w3gs.Encoding], declared in package [w3gs];
    the encoding options, a game version of 32 bits. *)
Record Encoding : Set := { GameVersion : N }.

(** Modelled from the spec: [w3gs.PlayerAction], declared in package
    [w3gs]; a player id and the action data, the fields the time slot
    codec reads and writes. *)
Record PlayerAction : Set := {
  PlayerID : byte;
  Data : list byte
}.

(** Modelled from the spec: [w3gs.TimeSlot], declared in package [w3gs];
    the fragment flag, the time increment and the actions, the fields the
    time slot codec reads and writes. *)
Record TimeSlot : Set := {
  Fragment : bool;
  TimeIncrementMS : N;          (* uint16 *)
  Actions : list PlayerAction
}.

(** Modelled from the spec: [w3gs.MessageType], declared in package
    [w3gs]; the type byte of a message. *)
Definition MessageType := byte.

(** Modelled from the spec: the message type [MsgChat], a constant of
    package [w3gs]; the record layout gives 0x10 and 0x20 as the flag
    values that carry text, and 0x20 is [chat_extra]. *)
Definition MsgChat : MessageType := x10.

(** Modelled from the spec: the message type [MsgChatExtra], a constant of
    package [w3gs]; scenario 4 has type 0x20 for [chat_extra]. *)
Definition MsgChatExtra : MessageType := x20.

(** Modelled from the spec: the scope constant [ScopeAll] of package
    [w3gs], "scope: all (0)". *)
Definition ScopeAll : N := 0%N.

(** Modelled from the spec: [w3gs.Message], declared in package [w3gs];
    the fields the chat message codec reads and writes. *)
Record Message : Set := {
  RecipientIDs : list byte;
  SenderID : byte;
  Type_ : MessageType;
  Scope : N;                    (* MessageScope, uint32 *)
  NewVal : byte;
  Content : list byte
}.

(** Modelled from the spec: [w3gs.SlotData], declared in package [w3gs];
    one slot of the slot table, with the fields of the slot layout in the
    format table of the SlotInfo record. *)
Record SlotData : Set := {
  Slot_PlayerID : byte;
  DownloadStatus : byte;
  SlotStatus : byte;
  Computer : bool;
  Team : byte;
  Color : byte;
  Race : byte;
  ComputerType : byte;
  Handicap : byte
}.

(** [GameSettings], [SlotInfo], [Desync] and [PlayerExtra] with their
    content codecs are declared in package [w3gs]; the records reach them
    only through [SerializeContent] and [DeserializeContent]. *)
Class ContentCodecs : Type := {
  GameSettings : Type;
  SlotInfo : Type;
  Desync : Type;
  PlayerExtra : Type;
  GameSettings_zero : GameSettings;
  SlotInfo_zero : SlotInfo;
  Desync_zero : Desync;
  PlayerExtra_zero : PlayerExtra;
  GameSettings_SerializeContent : GameSettings -> Encoding -> M unit;
  GameSettings_DeserializeContent : GameSettings -> Encoding -> M GameSettings;
  SlotInfo_SerializeContent : SlotInfo -> Encoding -> M unit;
  SlotInfo_DeserializeContent : SlotInfo -> Encoding -> M SlotInfo;
  Desync_SerializeContent : Desync -> Encoding -> M unit;
  Desync_DeserializeContent : Desync -> Encoding -> M Desync;
  PlayerExtra_SerializeContent : PlayerExtra -> Encoding -> M unit;
  PlayerExtra_DeserializeContent : PlayerExtra -> Encoding -> M PlayerExtra
}.

(** Contents as opaque blocks: every content is the unit value, written as
    ten zero bytes and read back by skipping ten bytes.  The instance
    serves to run the records on concrete inputs. *)
Definition opaque_block : list byte := repeat x00 10.

Definition opaque_contents : ContentCodecs := {|
  GameSettings := unit;
  SlotInfo := unit;
  Desync := unit;
  PlayerExtra := unit;
  GameSettings_zero := tt;
  SlotInfo_zero := tt;
  Desync_zero := tt;
  PlayerExtra_zero := tt;
  GameSettings_SerializeContent := fun _ _ => util.WriteBlob opaque_block;
  GameSettings_DeserializeContent := fun _ _ => util.Skip 10 ;; ret tt;
  SlotInfo_SerializeContent := fun _ _ => util.WriteBlob opaque_block;
  SlotInfo_DeserializeContent := fun _ _ => util.Skip 10 ;; ret tt;
  Desync_SerializeContent := fun _ _ => util.WriteBlob opaque_block;
  Desync_DeserializeContent := fun _ _ => util.Skip 10 ;; ret tt;
  PlayerExtra_SerializeContent := fun _ _ => util.WriteBlob opaque_block;
  PlayerExtra_DeserializeContent := fun _ _ => util.Skip 10 ;; ret tt
|}.

End w3gs.

(** ** Package w3g: the replay records *)

Module w3g.

Import util protocol.

(** [Encoding] embeds [w3gs.Encoding]. *)
Record Encoding : Set := { Encoding_ : w3gs.Encoding }.

Definition GameVersion (enc : Encoding) : N :=
  w3gs.GameVersion (Encoding_ enc).

(** The record identifiers are constants of package [w3g] declared outside
    the record file.  The specification lists them in this order: 0x10,
    0x16, 0x17, 0x19, 0x1A, 0x1B, 0x1C, 0x1E, 0x1F, 0x20, 0x22, 0x23,
    0x2F, 0x39 for GameInfo, PlayerInfo, PlayerLeft, SlotInfo,
    CountDownStart, CountDownEnd, GameStart, TimeSlot, TimeSlot2,
    ChatMessage, TimeSlotAck, Desync, EndTimer, PlayerExtra. *)

(** Modelled from the spec: the record identifier of GameInfo, 0x10. *)
Definition RidGameInfo : byte := x10.

(** Modelled from the spec: the record identifier of PlayerInfo, 0x16. *)
Definition RidPlayerInfo : byte := x16.

(** Modelled from the spec: the record identifier of PlayerLeft, 0x17. *)
Definition RidPlayerLeft : byte := x17.

(** Modelled from the spec: the record identifier of SlotInfo, 0x19. *)
Definition RidSlotInfo : byte := x19.

(** Modelled from the spec: the record identifier of CountDownStart, 0x1A. *)
Definition RidCountDownStart : byte := x1a.

(** Modelled from the spec: the record identifier of CountDownEnd, 0x1B. *)
Definition RidCountDownEnd : byte := x1b.

(** Modelled from the spec: the record identifier of GameStart, 0x1C. *)
Definition RidGameStart : byte := x1c.

(** Modelled from the spec: the record identifier of TimeSlot, 0x1E. *)
Definition RidTimeSlot : byte := x1e.

(** Modelled from the spec: the record identifier of TimeSlot2, 0x1F. *)
Definition RidTimeSlot2 : byte := x1f.

(** Modelled from the spec: the record identifier of ChatMessage, 0x20. *)
Definition RidChatMessage : byte := x20.

(** Modelled from the spec: the record identifier of TimeSlotAck, 0x22. *)
Definition RidTimeSlotAck : byte := x22.

(** Modelled from the spec: the record identifier of Desync, 0x23. *)
Definition RidDesync : byte := x23.

(** Modelled from the spec: the record identifier of EndTimer, 0x2F. *)
Definition RidEndTimer : byte := x2f.

(** Modelled from the spec: the record identifier of PlayerExtra, 0x39. *)
Definition RidPlayerExtra : byte := x39.

(** The call of a function whose result the caller drops. *)
Definition discard {A} (c : M A) : M unit := fun b =>
  match c b with
  | (Panic, b') => (Panic, b')
  | (_, b') => (Ok tt, b')
  end.

(** *** PlayerInfo record [0x16] *)

Record PlayerInfo : Set := {
  ID : byte;
  Name : list byte;
  Race : N;                     (* w3gs.RacePref, at its wire width *)
  JoinCounter : N               (* uint32 *)
}.

Definition PlayerInfo_SerializeContent (rec : PlayerInfo) (enc : Encoding)
  : M unit :=
  WriteUInt8 (ID rec) ;;
  WriteCString (Name rec) ;;
  if ((JoinCounter rec =? 0) && (Race rec =? 0))%N then
    WriteUInt8 x01 ;;
    WriteUInt8 x00
  else
    WriteUInt8 x08 ;;
    WriteUInt32 (JoinCounter rec) ;;
    WriteUInt32 (Race rec).

Definition PlayerInfo_DeserializeContent (rec : PlayerInfo) (enc : Encoding)
  : M PlayerInfo :=
  sz <- Size ;;
  if sz <? 4 then fail ErrShortBuffer else
  id <- ReadUInt8 ;;
  r <- ReadCString ;;
  match snd r with
  | Some err => fail err
  | None =>
      let name := fst r in
      sz <- Size ;;
      if sz <? 2 then fail ErrShortBuffer else
      n <- ReadUInt8 ;;
      sz <- Size ;;
      if sz <? Z.of_N (of_byte n) then fail ErrShortBuffer else
      if ((of_byte n =? 1) || (of_byte n =? 2))%N then
        Skip (Z.of_N (of_byte n)) ;;
        ret {| ID := id; Name := name; Race := 0; JoinCounter := 0 |}
      else if (of_byte n =? 0)%N then
        ret {| ID := id; Name := name; Race := 0; JoinCounter := 0 |}
      else if (of_byte n =? 8)%N then
        jc <- ReadUInt32 ;;
        race <- ReadUInt32 ;;
        ret {| ID := id; Name := name; Race := race; JoinCounter := jc |}
      else fail ErrUnexpectedConst
  end.

Definition PlayerInfo_Serialize (rec : PlayerInfo) (enc : Encoding)
  : M unit :=
  WriteUInt8 RidPlayerInfo ;;
  PlayerInfo_SerializeContent rec enc ;;
  WriteUInt32 0.

Definition PlayerInfo_Deserialize (rec : PlayerInfo) (enc : Encoding)
  : M PlayerInfo :=
  sz <- Size ;;
  if sz <? 9 then fail ErrShortBuffer else
  Skip 1 ;;
  rec' <- PlayerInfo_DeserializeContent rec enc ;;
  sz <- Size ;;
  if sz <? 4 then fail ErrShortBuffer else
  Skip 4 ;;
  ret rec'.

(** *** PlayerLeft record [0x17] *)

Record PlayerLeft : Set := {
  Local_ : bool;
  PlayerID : byte;
  Reason : N;                   (* w3gs.LeaveReason, uint32 *)
  Counter : N                   (* uint32 *)
}.

Definition PlayerLeft_Serialize (rec : PlayerLeft) (enc : Encoding)
  : M unit :=
  WriteUInt8 RidPlayerLeft ;;
  (if Local_ rec then WriteUInt32 12 else WriteUInt32 1) ;;
  WriteUInt8 (PlayerID rec) ;;
  WriteUInt32 (Reason rec) ;;
  WriteUInt32 (Counter rec).

Definition PlayerLeft_Deserialize (rec : PlayerLeft) (enc : Encoding)
  : M PlayerLeft :=
  sz <- Size ;;
  if sz <? 14 then fail ErrShortBuffer else
  Skip 1 ;;
  c <- ReadUInt32 ;;
  if ((c =? 1) || (c =? 14) || (c =? 12))%N then
    let loc := (c =? 12)%N in
    pid <- ReadUInt8 ;;
    reason <- ReadUInt32 ;;
    counter <- ReadUInt32 ;;
    ret {| Local_ := loc; PlayerID := pid; Reason := reason;
           Counter := counter |}
  else fail ErrUnexpectedConst.

(** *** GameStart [0x1C], CountDownStart [0x1A], CountDownEnd [0x1B] *)

Inductive GameStart : Set := mkGameStart.

Definition GameStart_Serialize (rec : GameStart) (enc : Encoding)
  : M unit :=
  WriteUInt8 RidGameStart ;;
  WriteUInt32 1.

Definition GameStart_Deserialize (rec : GameStart) (enc : Encoding)
  : M GameStart :=
  sz <- Size ;;
  if sz <? 5 then fail ErrShortBuffer else
  Skip 1 ;;
  c <- ReadUInt32 ;;
  if negb (c =? 1)%N then fail ErrUnexpectedConst else
  ret rec.

(** [CountDownStart] and [CountDownEnd] embed [GameStart]: they have a
    [Serialize] of their own and inherit [Deserialize]. *)
Record CountDownStart : Set := { CountDownStart_GameStart : GameStart }.
Record CountDownEnd : Set := { CountDownEnd_GameStart : GameStart }.

Definition CountDownStart_Serialize (rec : CountDownStart) (enc : Encoding)
  : M unit :=
  WriteUInt8 RidCountDownStart ;;
  WriteUInt32 1.

Definition CountDownStart_Deserialize (rec : CountDownStart)
  (enc : Encoding) : M CountDownStart :=
  g <- GameStart_Deserialize (CountDownStart_GameStart rec) enc ;;
  ret {| CountDownStart_GameStart := g |}.

Definition CountDownEnd_Serialize (rec : CountDownEnd) (enc : Encoding)
  : M unit :=
  WriteUInt8 RidCountDownEnd ;;
  WriteUInt32 1.

Definition CountDownEnd_Deserialize (rec : CountDownEnd) (enc : Encoding)
  : M CountDownEnd :=
  g <- GameStart_Deserialize (CountDownEnd_GameStart rec) enc ;;
  ret {| CountDownEnd_GameStart := g |}.

(** *** TimeSlot record [0x1E] / [0x1F] *)

(** [TimeSlot] wraps [w3gs.TimeSlot]. *)
Definition TimeSlot := w3gs.TimeSlot.

(** The loop over [rec.Actions] of [Serialize]. *)
Fixpoint write_actions (acts : list w3gs.PlayerAction) : M unit :=
  match acts with
  | [] => ret tt
  | a :: acts' =>
      WriteUInt8 (w3gs.PlayerID a) ;;
      WriteUInt16 (uint16 (len (w3gs.Data a))) ;;
      WriteBlob (w3gs.Data a) ;;
      write_actions acts'
  end.

Definition TimeSlot_Serialize (rec : TimeSlot) (enc : Encoding) : M unit :=
  (if w3gs.Fragment rec
      || ((0 <? GameVersion enc) && (GameVersion enc <=? 2))%N
   then WriteUInt8 RidTimeSlot2
   else WriteUInt8 RidTimeSlot) ;;
  WriteUInt16 0 ;;
  start <- Size ;;
  WriteUInt16 (w3gs.TimeIncrementMS rec) ;;
  write_actions (w3gs.Actions rec) ;;
  sz <- Size ;;
  WriteUInt16At (start - 2) (uint16 (sz - start)).

(** The loop [for size >= 3] of [Deserialize]: the actions read and the
    value of [size] at the exit.  Each round takes at least 3 off [size]. *)
Equations? read_actions (size : Z) : M (list w3gs.PlayerAction * Z)
  by wf (Z.to_nat size) lt :=
  read_actions size with Z_lt_dec size 3 := {
    | left _ => ret ([], size)
    | right _ =>
        pid <- ReadUInt8 ;;
        n <- ReadUInt16 ;;
        if size <? Z.of_N n then fail ErrBadFormat else
        data <- ReadBlob (Z.of_N n) ;;
        r <- read_actions (size - (3 + Z.of_N n)) ;;
        ret ({| w3gs.PlayerID := pid; w3gs.Data := data |} :: fst r, snd r)
  }.
Proof. clear read_actions. destruct n as [|[[q|q|]|[q|q|]|]]; simpl; lia. Qed.

Definition TimeSlot_Deserialize (rec : TimeSlot) (enc : Encoding)
  : M TimeSlot :=
  sz <- Size ;;
  if sz <? 5 then fail ErrShortBuffer else
  id <- ReadUInt8 ;;
  let fragment :=
    Byte.eqb id RidTimeSlot2
    && ((GameVersion enc =? 0) || (2 <? GameVersion enc))%N in
  n <- ReadUInt16 ;;
  let size := Z.of_N n in
  sz <- Size ;;
  if (size <? 2) || (sz <? size) then fail ErrShortBuffer else
  ms <- ReadUInt16 ;;
  r <- read_actions (size - 2) ;;
  if negb (snd r =? 0) then fail ErrBadFormat else
  ret {| w3gs.Fragment := fragment; w3gs.TimeIncrementMS := ms;
         w3gs.Actions := fst r |}.

(** *** ChatMessage record [0x20] *)

(** [ChatMessage] wraps [w3gs.Message]. *)
Definition ChatMessage := w3gs.Message.

Definition ChatMessage_Serialize (rec : ChatMessage) (enc : Encoding)
  : M unit :=
  WriteUInt8 RidChatMessage ;;
  WriteUInt8 (w3gs.SenderID rec) ;;
  (if Byte.eqb (w3gs.Type_ rec) w3gs.MsgChatExtra then
     WriteUInt16 (uint16 (6 + len (w3gs.Content rec)))
   else if Byte.eqb (w3gs.Type_ rec) w3gs.MsgChat then
     WriteUInt16 (uint16 (2 + len (w3gs.Content rec)))
   else
     WriteUInt16 2) ;;
  WriteUInt8 (w3gs.Type_ rec) ;;
  if Byte.eqb (w3gs.Type_ rec) w3gs.MsgChatExtra then
    WriteUInt32 (w3gs.Scope rec) ;;
    WriteCString (w3gs.Content rec)
  else if Byte.eqb (w3gs.Type_ rec) w3gs.MsgChat then
    WriteCString (w3gs.Content rec)
  else
    WriteUInt8 (w3gs.NewVal rec).

Section Chat.
Context {T : unicode.Tables}.

(** The loop [for size > 0] of [Deserialize] (the extra strings): the
    content gathered and the value of [size] at the exit. *)
Equations? read_extra (size : Z) (content : list byte)
  : M (list byte * Z) by wf (Z.to_nat size) lt :=
  read_extra size content with Z_gt_dec size 0 := {
    | right _ => ret (content, size)
    | left _ =>
        r <- ReadCString ;;
        match snd r with
        | Some err => fail err
        | None =>
            if strings.has_nonprint (fst r) then fail ErrBadFormat else
            read_extra (size - (len (fst r) + 1)) (content ++ fst r)
        end
  }.
Proof. clear read_extra. unfold len. lia. Qed.

(** The text part of [Deserialize], shared by the cases [MsgChatExtra]
    (after its scope) and [MsgChat]. *)
Definition read_content (size : Z) : M (list byte) :=
  r <- ReadCString ;;
  match snd r with
  | Some err => fail err
  | None =>
      q <- read_extra (size - (2 + len (fst r))) (fst r) ;;
      if negb (snd q =? 0) then fail ErrBadFormat else
      ret (fst q)
  end.

Definition ChatMessage_Deserialize (rec : ChatMessage) (enc : Encoding)
  : M ChatMessage :=
  sz <- Size ;;
  if sz <? 3 then fail ErrShortBuffer else
  Skip 1 ;;
  sender <- ReadUInt8 ;;
  n <- ReadUInt16 ;;
  let size := Z.of_N n in
  sz <- Size ;;
  if (size <? 2) || (sz <? size) then fail ErrShortBuffer else
  ty <- ReadUInt8 ;;
  if Byte.eqb ty w3gs.MsgChatExtra then
    if size <? 6 then fail ErrBadFormat else
    scope <- ReadUInt32 ;;
    content <- read_content (size - 4) ;;
    ret {| w3gs.RecipientIDs := []; w3gs.SenderID := sender;
           w3gs.Type_ := ty; w3gs.Scope := scope; w3gs.NewVal := x00;
           w3gs.Content := content |}
  else if Byte.eqb ty w3gs.MsgChat then
    content <- read_content size ;;
    ret {| w3gs.RecipientIDs := []; w3gs.SenderID := sender;
           w3gs.Type_ := ty; w3gs.Scope := w3gs.ScopeAll;
           w3gs.NewVal := x00; w3gs.Content := content |}
  else
    if negb (size =? 2) then fail ErrBadFormat else
    v <- ReadUInt8 ;;
    ret {| w3gs.RecipientIDs := []; w3gs.SenderID := sender;
           w3gs.Type_ := ty; w3gs.Scope := w3gs.ScopeAll;
           w3gs.NewVal := v; w3gs.Content := [] |}.
End Chat.

(** *** TimeSlotAck record [0x22] *)

Record TimeSlotAck : Set := { Checksum : list byte }.

Definition TimeSlotAck_Serialize (rec : TimeSlotAck) (enc : Encoding)
  : M unit :=
  (if ((GameVersion enc =? 0) || (2 <? GameVersion enc))%N
   then WriteUInt8 RidTimeSlotAck
   else WriteUInt8 RidChatMessage) ;;
  WriteUInt8 (uint8 (len (Checksum rec))) ;;
  WriteBlob (Checksum rec).

Definition TimeSlotAck_Deserialize (rec : TimeSlotAck) (enc : Encoding)
  : M TimeSlotAck :=
  sz <- Size ;;
  if sz <? 2 then fail ErrShortBuffer else
  Skip 1 ;;
  n <- ReadUInt8 ;;
  let size := Z.of_N (of_byte n) in
  sz <- Size ;;
  if sz <? size then fail ErrShortBuffer else
  sum <- ReadBlob size ;;
  ret {| Checksum := sum |}.

(** *** EndTimer record [0x2F] *)

Record EndTimer : Set := {
  GameOver : bool;
  CountDownSec : N              (* uint32 *)
}.

Definition EndTimer_Serialize (rec : EndTimer) (enc : Encoding) : M unit :=
  WriteUInt8 RidEndTimer ;;
  WriteBool32 (GameOver rec) ;;
  WriteUInt32 (CountDownSec rec).

Definition EndTimer_Deserialize (rec : EndTimer) (enc : Encoding)
  : M EndTimer :=
  sz <- Size ;;
  if sz <? 9 then fail ErrShortBuffer else
  Skip 1 ;;
  over <- ReadBool32 ;;
  sec <- ReadUInt32 ;;
  ret {| GameOver := over; CountDownSec := sec |}.

(** *** Records over the [w3gs] content codecs *)

Section Contents.
Context {C : w3gs.ContentCodecs}.

(** GameInfo record [0x10] *)
Record GameInfo : Type := {
  HostPlayer : PlayerInfo;
  GameName : list byte;
  GameSettings : w3gs.GameSettings;
  GameFlags : N;              (* w3gs.GameFlags, uint32 *)
  NumSlots : N;               (* uint32 *)
  LanguageID : N              (* uint32 *)
}.

Definition GameInfo_Serialize (rec : GameInfo) (enc : Encoding)
  : M unit :=
  WriteUInt8 RidGameInfo ;;
  WriteUInt32 1 ;;
  PlayerInfo_SerializeContent (HostPlayer rec) enc ;;
  WriteCString (GameName rec) ;;
  WriteUInt8 x00 ;;
  discard (w3gs.GameSettings_SerializeContent (GameSettings rec)
             (Encoding_ enc)) ;;
  WriteUInt32 (NumSlots rec) ;;
  WriteUInt32 (GameFlags rec) ;;
  WriteUInt32 (LanguageID rec).

Definition GameInfo_Deserialize (rec : GameInfo) (enc : Encoding)
  : M GameInfo :=
  sz <- Size ;;
  if sz <? 24 then fail ErrShortBuffer else
  Skip 1 ;;
  c <- ReadUInt32 ;;
  if negb (c =? 1)%N then fail ErrUnexpectedConst else
  host <- PlayerInfo_DeserializeContent (HostPlayer rec) enc ;;
  sz <- Size ;;
  if sz <? 15 then fail ErrShortBuffer else
  r <- ReadCString ;;
  match snd r with
  | Some err => fail err
  | None =>
      sz <- Size ;;
      if sz <? 14 then fail ErrShortBuffer else
      z <- ReadUInt8 ;;
      if negb (Byte.eqb z x00) then fail ErrUnexpectedConst else
      gs <- w3gs.GameSettings_DeserializeContent (GameSettings rec)
              (Encoding_ enc) ;;
      sz <- Size ;;
      if sz <? 12 then fail ErrShortBuffer else
      slots <- ReadUInt32 ;;
      flags <- ReadUInt32 ;;
      lang <- ReadUInt32 ;;
      ret {| HostPlayer := host; GameName := fst r; GameSettings := gs;
             GameFlags := flags; NumSlots := slots; LanguageID := lang |}
  end.

(** SlotInfo record [0x19] wraps [w3gs.SlotInfo]. *)
Definition SlotInfo := w3gs.SlotInfo.

Definition SlotInfo_Serialize (rec : SlotInfo) (enc : Encoding)
  : M unit :=
  WriteUInt8 RidSlotInfo ;;
  discard (w3gs.SlotInfo_SerializeContent rec (Encoding_ enc)).

Definition SlotInfo_Deserialize (rec : SlotInfo) (enc : Encoding)
  : M SlotInfo :=
  sz <- Size ;;
  if sz <? 10 then fail ErrShortBuffer else
  Skip 1 ;;
  w3gs.SlotInfo_DeserializeContent rec (Encoding_ enc).

(** Desync record [0x23] wraps [w3gs.Desync]. *)
Definition Desync := w3gs.Desync.

Definition Desync_Serialize (rec : Desync) (enc : Encoding) : M unit :=
  WriteUInt8 RidDesync ;;
  discard (w3gs.Desync_SerializeContent rec (Encoding_ enc)).

Definition Desync_Deserialize (rec : Desync) (enc : Encoding)
  : M Desync :=
  sz <- Size ;;
  if sz <? 11 then fail ErrShortBuffer else
  Skip 1 ;;
  w3gs.Desync_DeserializeContent rec (Encoding_ enc).

(** PlayerExtra record [0x39] wraps [w3gs.PlayerExtra]. *)
Definition PlayerExtra := w3gs.PlayerExtra.

Definition PlayerExtra_Serialize (rec : PlayerExtra) (enc : Encoding)
  : M unit :=
  WriteUInt8 RidPlayerExtra ;;
  w3gs.PlayerExtra_SerializeContent rec (Encoding_ enc).

Definition PlayerExtra_Deserialize (rec : PlayerExtra) (enc : Encoding)
  : M PlayerExtra :=
  sz <- Size ;;
  if sz <? 6 then fail ErrShortBuffer else
  Skip 1 ;;
  w3gs.PlayerExtra_DeserializeContent rec (Encoding_ enc).

(** *** The Record interface *)

(** The [Record] interface, as the sum of the types implementing it. *)
Inductive AnyRecord : Type :=
| RGameInfo (r : GameInfo)
| RPlayerInfo (r : PlayerInfo)
| RPlayerLeft (r : PlayerLeft)
| RSlotInfo (r : SlotInfo)
| RCountDownStart (r : CountDownStart)
| RCountDownEnd (r : CountDownEnd)
| RGameStart (r : GameStart)
| RTimeSlot (r : TimeSlot)
| RChatMessage (r : ChatMessage)
| RTimeSlotAck (r : TimeSlotAck)
| RDesync (r : Desync)
| REndTimer (r : EndTimer)
| RPlayerExtra (r : PlayerExtra).

Definition Serialize (rec : AnyRecord) (enc : Encoding) : M unit :=
  match rec with
  | RGameInfo r => GameInfo_Serialize r enc
  | RPlayerInfo r => PlayerInfo_Serialize r enc
  | RPlayerLeft r => PlayerLeft_Serialize r enc
  | RSlotInfo r => SlotInfo_Serialize r enc
  | RCountDownStart r => CountDownStart_Serialize r enc
  | RCountDownEnd r => CountDownEnd_Serialize r enc
  | RGameStart r => GameStart_Serialize r enc
  | RTimeSlot r => TimeSlot_Serialize r enc
  | RChatMessage r => ChatMessage_Serialize r enc
  | RTimeSlotAck r => TimeSlotAck_Serialize r enc
  | RDesync r => Desync_Serialize r enc
  | REndTimer r => EndTimer_Serialize r enc
  | RPlayerExtra r => PlayerExtra_Serialize r enc
  end.

Definition lift {A} (f : A -> AnyRecord) (c : M A) : M AnyRecord :=
  r <- c ;; ret (f r).

Definition Deserialize {T : unicode.Tables} (rec : AnyRecord)
  (enc : Encoding) : M AnyRecord :=
  match rec with
  | RGameInfo r => lift RGameInfo (GameInfo_Deserialize r enc)
  | RPlayerInfo r => lift RPlayerInfo (PlayerInfo_Deserialize r enc)
  | RPlayerLeft r => lift RPlayerLeft (PlayerLeft_Deserialize r enc)
  | RSlotInfo r => lift RSlotInfo (SlotInfo_Deserialize r enc)
  | RCountDownStart r =>
      lift RCountDownStart (CountDownStart_Deserialize r enc)
  | RCountDownEnd r => lift RCountDownEnd (CountDownEnd_Deserialize r enc)
  | RGameStart r => lift RGameStart (GameStart_Deserialize r enc)
  | RTimeSlot r => lift RTimeSlot (TimeSlot_Deserialize r enc)
  | RChatMessage r => lift RChatMessage (ChatMessage_Deserialize r enc)
  | RTimeSlotAck r => lift RTimeSlotAck (TimeSlotAck_Deserialize r enc)
  | RDesync r => lift RDesync (Desync_Deserialize r enc)
  | REndTimer r => lift REndTimer (EndTimer_Deserialize r enc)
  | RPlayerExtra r => lift RPlayerExtra (PlayerExtra_Deserialize r enc)
  end.

(** *** The factory *)

(** The zero values [&T{}] the factory hands out. *)
Definition PlayerInfo_zero : PlayerInfo :=
  {| ID := x00; Name := []; Race := 0; JoinCounter := 0 |}.
Definition GameInfo_zero : GameInfo :=
  {| HostPlayer := PlayerInfo_zero; GameName := [];
     GameSettings := w3gs.GameSettings_zero;
     GameFlags := 0; NumSlots := 0; LanguageID := 0 |}.
Definition PlayerLeft_zero : PlayerLeft :=
  {| Local_ := false; PlayerID := x00; Reason := 0; Counter := 0 |}.
Definition CountDownStart_zero : CountDownStart :=
  {| CountDownStart_GameStart := mkGameStart |}.
Definition CountDownEnd_zero : CountDownEnd :=
  {| CountDownEnd_GameStart := mkGameStart |}.
Definition TimeSlot_zero : TimeSlot :=
  {| w3gs.Fragment := false; w3gs.TimeIncrementMS := 0;
     w3gs.Actions := [] |}.
Definition ChatMessage_zero : ChatMessage :=
  {| w3gs.RecipientIDs := []; w3gs.SenderID := x00; w3gs.Type_ := x00;
     w3gs.Scope := 0; w3gs.NewVal := x00; w3gs.Content := [] |}.
Definition TimeSlotAck_zero : TimeSlotAck := {| Checksum := [] |}.
Definition EndTimer_zero : EndTimer :=
  {| GameOver := false; CountDownSec := 0 |}.

(** [MapFactory]: record ID to constructor, a map literal with distinct
    keys. *)
Definition MapFactory := list (byte * (Encoding -> AnyRecord)).

Definition DefaultFactory : MapFactory := [
  (RidGameInfo, fun _ => RGameInfo GameInfo_zero);
  (RidPlayerInfo, fun _ => RPlayerInfo PlayerInfo_zero);
  (RidPlayerLeft, fun _ => RPlayerLeft PlayerLeft_zero);
  (RidSlotInfo, fun _ => RSlotInfo w3gs.SlotInfo_zero);
  (RidCountDownStart, fun _ => RCountDownStart CountDownStart_zero);
  (RidCountDownEnd, fun _ => RCountDownEnd CountDownEnd_zero);
  (RidGameStart, fun _ => RGameStart mkGameStart);
  (RidTimeSlot2, fun _ => RTimeSlot TimeSlot_zero);
  (RidTimeSlot, fun _ => RTimeSlot TimeSlot_zero);
  (RidChatMessage, fun e =>
     if ((GameVersion e =? 0) || (2 <? GameVersion e))%N
     then RChatMessage ChatMessage_zero
     else RTimeSlotAck TimeSlotAck_zero);
  (RidTimeSlotAck, fun _ => RTimeSlotAck TimeSlotAck_zero);
  (RidDesync, fun _ => RDesync w3gs.Desync_zero);
  (RidEndTimer, fun _ => REndTimer EndTimer_zero);
  (RidPlayerExtra, fun _ => RPlayerExtra w3gs.PlayerExtra_zero)
].

(** Map lookup [f[id]]. *)
Fixpoint lookup (f : MapFactory) (id : byte)
  : option (Encoding -> AnyRecord) :=
  match f with
  | [] => None
  | (k, v) :: f' => if Byte.eqb k id then Some v else lookup f' id
  end.

(** [NewRecord] consults the factory for the constructor of [id] and
    calls it. *)
Definition NewRecord (f : MapFactory) (id : byte) (enc : Encoding)
  : option AnyRecord :=
  match lookup f id with
  | Some new => Some (new enc)
  | None => None
  end.

End Contents.

End w3g.

(** ** Command w3gdump: the slot loops *)

Module w3gdump.

(** The team number from which a slot is an observer: [maxp] of [main],
    24, or 12 before game version 29. *)
Definition maxp (version : N) : byte :=
  if (version <? 29)%N then x0c else x18.

(** [v.Slots[i].Color = c] *)
Definition set_Color (s : w3gs.SlotData) (c : byte) : w3gs.SlotData :=
  {| w3gs.Slot_PlayerID := w3gs.Slot_PlayerID s;
     w3gs.DownloadStatus := w3gs.DownloadStatus s;
     w3gs.SlotStatus := w3gs.SlotStatus s;
     w3gs.Computer := w3gs.Computer s;
     w3gs.Team := w3gs.Team s;
     w3gs.Color := c;
     w3gs.Race := w3gs.Race s;
     w3gs.ComputerType := w3gs.ComputerType s;
     w3gs.Handicap := w3gs.Handicap s |}.

(** The loop of [main] over the slots of a SlotInfo record when a
    sanitized replay is written: the slots below team [maxp] take the
    colours [c], [c+1], ... of a [uint8] counter, the others are passed
    over. *)
Fixpoint sane_colors (maxp : byte) (c : byte) (slots : list w3gs.SlotData)
  : list w3gs.SlotData :=
  match slots with
  | [] => []
  | s :: slots' =>
      if (of_byte maxp <=? of_byte (w3gs.Team s))%N
      then s :: sane_colors maxp c slots'
      else set_Color s c
           :: sane_colors maxp (to_byte (of_byte c + 1)) slots'
  end.

Section Host.
(** [w3gs.SlotOccupied], a constant of package [w3gs]. *)
Variable SlotOccupied : byte.

(** The loop of [cast] that picks the player the stream is sent as:
    [hostID] starts as the id of the host and is overwritten by every
    occupied slot that is not a computer. *)
Fixpoint pick_host (hostID : byte) (slots : list w3gs.SlotData) : byte :=
  match slots with
  | [] => hostID
  | s :: slots' =>
      if Byte.eqb (w3gs.SlotStatus s) SlotOccupied
         && negb (w3gs.Computer s)
      then pick_host (w3gs.Slot_PlayerID s) slots'
      else pick_host hostID slots'
  end.
End Host.

End w3gdump.

(** * Vocabulary of the statements *)

(** ** Ranges and strings *)

(** A string free of zero bytes. *)
Definition no_zero (s : list byte) : Prop := ~ In x00 s.

Definition no_zerob (s : list byte) : bool :=
  forallb (fun x => negb (Byte.eqb x x00)) s.

(** The values of a [uint16] and of a [uint32]. *)
Definition is_u16 (v : N) : bool := (v <? 65536)%N.
Definition is_u32 (v : N) : bool := (v <? 4294967296)%N.

(** The encoding with game version [v]. *)
Definition version (v : N) : w3g.Encoding :=
  {| w3g.Encoding_ := {| w3gs.GameVersion := v |} |}.

(** The early game versions, 1 and 2. *)
Definition early_version (enc : w3g.Encoding) : bool :=
  ((1 <=? w3g.GameVersion enc) && (w3g.GameVersion enc <=? 2))%N.

(** ** Wire layouts *)

(** Little-endian bytes of a 16-bit and of a 32-bit value. *)
Definition le16 (v : N) : list byte := [to_byte v; to_byte (N.shiftr v 8)].

Definition le32 (v : N) : list byte :=
  [to_byte v; to_byte (N.shiftr v 8);
   to_byte (N.shiftr v 16); to_byte (N.shiftr v 24)].

(** A string with its terminator. *)
Definition cstring (s : list byte) : list byte := s ++ [x00].

(** One player action: player id, data length, data. *)
Definition action_bytes (a : w3gs.PlayerAction) : list byte :=
  w3gs.PlayerID a :: le16 (uint16 (len (w3gs.Data a))) ++ w3gs.Data a.

Definition actions_bytes (acts : list w3gs.PlayerAction) : list byte :=
  flat_map action_bytes acts.

(** The body of a time slot behind its tag: declared length, time increment,
    actions. *)
Definition TimeSlot_body (rec : w3g.TimeSlot) : list byte :=
  le16 (uint16 (2 + len (actions_bytes (w3gs.Actions rec))))
  ++ le16 (w3gs.TimeIncrementMS rec)
  ++ actions_bytes (w3gs.Actions rec).

(** A chat record of type [chat] or [chat_extra] whose content is followed,
    inside the declared length, by the further strings [more]. *)
Definition chat_text_bytes (sender : byte) (extra : bool) (scope : N)
  (content : list byte) (more : list (list byte)) : list byte :=
  let text := cstring content ++ flat_map cstring more in
  w3g.RidChatMessage :: sender
  :: le16 (uint16 ((if extra then 5 else 1) + len text))
  ++ (if extra then w3gs.MsgChatExtra :: le32 scope else [w3gs.MsgChat])
  ++ text.

(** ** Records that survive the round trip *)

Definition action_ok (a : w3gs.PlayerAction) : bool :=
  len (w3gs.Data a) <? 65536.

(** A time slot: no fragment flag in the early versions; the lengths fit
    their 16 bits. *)
Definition TimeSlot_ok (enc : w3g.Encoding) (rec : w3g.TimeSlot) : bool :=
  (negb (w3gs.Fragment rec) || negb (early_version enc))
  && is_u16 (w3gs.TimeIncrementMS rec)
  && forallb action_ok (w3gs.Actions rec)
  && (2 + len (actions_bytes (w3gs.Actions rec)) <? 65536).

(** A chat message: the record carries no recipients; scope only with
    [MsgChatExtra], text only with the two chat types, a value only with the
    other types. *)
Definition ChatMessage_ok (rec : w3g.ChatMessage) : bool :=
  match w3gs.RecipientIDs rec with [] => true | _ => false end
  && if Byte.eqb (w3gs.Type_ rec) w3gs.MsgChatExtra then
       is_u32 (w3gs.Scope rec) && no_zerob (w3gs.Content rec)
       && (6 + len (w3gs.Content rec) <? 65536)
       && Byte.eqb (w3gs.NewVal rec) x00
     else if Byte.eqb (w3gs.Type_ rec) w3gs.MsgChat then
       (w3gs.Scope rec =? w3gs.ScopeAll)%N && no_zerob (w3gs.Content rec)
       && (2 + len (w3gs.Content rec) <? 65536)
       && Byte.eqb (w3gs.NewVal rec) x00
     else
       (w3gs.Scope rec =? w3gs.ScopeAll)%N
       && match w3gs.Content rec with [] => true | _ => false end.

Definition PlayerInfo_ok (rec : w3g.PlayerInfo) : bool :=
  no_zerob (w3g.Name rec) && is_u32 (w3g.Race rec)
  && is_u32 (w3g.JoinCounter rec).

Definition PlayerLeft_ok (rec : w3g.PlayerLeft) : bool :=
  is_u32 (w3g.Reason rec) && is_u32 (w3g.Counter rec).

Definition TimeSlotAck_ok (rec : w3g.TimeSlotAck) : bool :=
  len (w3g.Checksum rec) <? 256.

Definition EndTimer_ok (rec : w3g.EndTimer) : bool :=
  is_u32 (w3g.CountDownSec rec).

(** A content codec round-trips the value [a]: it appends some bytes, at
    least [min] of them, and reads them back into [a]. *)
Definition content_roundtrip {A : Type} (ser : A -> w3gs.Encoding -> M unit)
  (de : A -> w3gs.Encoding -> M A) (min : Z) (enc : w3gs.Encoding) (a : A)
  : Prop :=
  exists bytes,
    min <= len bytes
    /\ (forall b, ser a enc b = (Ok tt, b ++ bytes))
    /\ (forall a0 rest, de a0 enc (bytes ++ rest) = (Ok a, rest)).

Definition GameInfo_ok {C : w3gs.ContentCodecs} (rec : w3g.GameInfo) : bool :=
  PlayerInfo_ok (w3g.HostPlayer rec) && no_zerob (w3g.GameName rec)
  && is_u32 (w3g.GameFlags rec) && is_u32 (w3g.NumSlots rec)
  && is_u32 (w3g.LanguageID rec).

(** The records that survive the round trip: fields in range and, for the
    four records that wrap a structure of package [w3gs], a content codec
    that round-trips the wrapped value and writes the bytes the size guard
    of the record asks for. *)
Definition roundtrip_ok {C : w3gs.ContentCodecs} (enc : w3g.Encoding)
  (rec : w3g.AnyRecord) : Prop :=
  match rec with
  | w3g.RPlayerInfo r => PlayerInfo_ok r = true
  | w3g.RPlayerLeft r => PlayerLeft_ok r = true
  | w3g.RCountDownStart _ | w3g.RCountDownEnd _ | w3g.RGameStart _ => True
  | w3g.RTimeSlot r => TimeSlot_ok enc r = true
  | w3g.RChatMessage r => ChatMessage_ok r = true
  | w3g.RTimeSlotAck r => TimeSlotAck_ok r = true
  | w3g.REndTimer r => EndTimer_ok r = true
  | w3g.RGameInfo r =>
      GameInfo_ok r = true
      /\ content_roundtrip w3gs.GameSettings_SerializeContent
           w3gs.GameSettings_DeserializeContent 1 (w3g.Encoding_ enc)
           (w3g.GameSettings r)
  | w3g.RSlotInfo r =>
      content_roundtrip w3gs.SlotInfo_SerializeContent
        w3gs.SlotInfo_DeserializeContent 9 (w3g.Encoding_ enc) r
  | w3g.RDesync r =>
      content_roundtrip w3gs.Desync_SerializeContent
        w3gs.Desync_DeserializeContent 10 (w3g.Encoding_ enc) r
  | w3g.RPlayerExtra r =>
      content_roundtrip w3gs.PlayerExtra_SerializeContent
        w3gs.PlayerExtra_DeserializeContent 5 (w3g.Encoding_ enc) r
  end.

(** Two records of the same dynamic type. *)
Definition same_type {C : w3gs.ContentCodecs} (a b : w3g.AnyRecord) : bool :=
  match a, b with
  | w3g.RGameInfo _, w3g.RGameInfo _
  | w3g.RPlayerInfo _, w3g.RPlayerInfo _
  | w3g.RPlayerLeft _, w3g.RPlayerLeft _
  | w3g.RSlotInfo _, w3g.RSlotInfo _
  | w3g.RCountDownStart _, w3g.RCountDownStart _
  | w3g.RCountDownEnd _, w3g.RCountDownEnd _
  | w3g.RGameStart _, w3g.RGameStart _
  | w3g.RTimeSlot _, w3g.RTimeSlot _
  | w3g.RChatMessage _, w3g.RChatMessage _
  | w3g.RTimeSlotAck _, w3g.RTimeSlotAck _
  | w3g.RDesync _, w3g.RDesync _
  | w3g.REndTimer _, w3g.REndTimer _
  | w3g.RPlayerExtra _, w3g.RPlayerExtra _ => true
  | _, _ => false
  end.

(** ** Sample values *)

(** The chat message sender 2, type chat_extra, scope all, content "hi". *)
Definition chat_hi : w3g.ChatMessage :=
  {| w3gs.RecipientIDs := []; w3gs.SenderID := x02;
     w3gs.Type_ := w3gs.MsgChatExtra; w3gs.Scope := w3gs.ScopeAll;
     w3gs.NewVal := x00; w3gs.Content := [x68; x69] |}.

(** A time slot of 100 ms, one action of player 1, marked as a fragment or
    not. *)
Definition slot_100 (fragment : bool) : w3g.TimeSlot :=
  {| w3gs.Fragment := fragment; w3gs.TimeIncrementMS := 100;
     w3gs.Actions := [ {| w3gs.PlayerID := x01; w3gs.Data := [x0a; x0b] |} ]
  |}.

(** A game record of host "a", game "g", flags 1, twelve slots. *)
Definition game_g : w3g.GameInfo (C := w3gs.opaque_contents) :=
  @w3g.Build_GameInfo w3gs.opaque_contents
    {| w3g.ID := x01; w3g.Name := [x61]; w3g.Race := 0;
       w3g.JoinCounter := 0 |}
    [x67] tt 1 12 0.

(** A time slot record declaring 5 bytes, of which the one action declares 3
    bytes of data although none is left. *)
Definition slot_overrun : list byte :=
  [x1e; x05; x00; x64; x00; x01; x03; x00].


(** ** Runs without panic *)

(** The run of [c] on [b] does not panic, and a result it returns satisfies
    [Q] together with the bytes left. *)
Definition safe {A} (c : M A) (b : list byte)
  (Q : A -> list byte -> Prop) : Prop :=
  match c b with
  | (Ok a, b') => Q a b'
  | (Err _, _) => True
  | (Panic, _) => False
  end.

(** ** Writers that append *)

(** A run that succeeds on every buffer and appends the same bytes to each
    of them. *)
Definition appends (c : M unit) : Prop :=
  exists bytes, forall b, c b = (Ok tt, b ++ bytes).

(** The serializer of the structure that a record wraps appends; nothing is
    asked of the records that wrap none. *)
Definition codec_appends {C : w3gs.ContentCodecs} (enc : w3g.Encoding)
  (rec : w3g.AnyRecord) : Prop :=
  match rec with
  | w3g.RGameInfo r =>
      appends (w3gs.GameSettings_SerializeContent (w3g.GameSettings r)
                 (w3g.Encoding_ enc))
  | w3g.RSlotInfo r =>
      appends (w3gs.SlotInfo_SerializeContent r (w3g.Encoding_ enc))
  | w3g.RDesync r =>
      appends (w3gs.Desync_SerializeContent r (w3g.Encoding_ enc))
  | w3g.RPlayerExtra r =>
      appends (w3gs.PlayerExtra_SerializeContent r (w3g.Encoding_ enc))
  | _ => True
  end.

(** ** Decoders and the record id *)

(** The run of [D] does not look at the first byte of the buffer: started on
    two buffers that differ in it, either it is stopped by its first guard
    on both, or it ends in the same outcome with the same bytes left. *)
Definition tag_blind {A} (D : M A) : Prop :=
  forall (x y : byte) (b : list byte),
    D (x :: b) = D (y :: b)
    \/ (D (x :: b) = (Err ErrShortBuffer, x :: b)
        /\ D (y :: b) = (Err ErrShortBuffer, y :: b)).

(** ** Slots *)

(** A slot of a player, as opposed to an observer: its team is below
    [maxp]. *)
Definition playing (maxp : byte) (s : w3gs.SlotData) : bool :=
  (of_byte (w3gs.Team s) <? of_byte maxp)%N.

(** A slot taken by a human player. *)
Definition human (occupied : byte) (s : w3gs.SlotData) : bool :=
  Byte.eqb (w3gs.SlotStatus s) occupied && negb (w3gs.Computer s).

(** The colour [i] steps after [c] on the [uint8] counter. *)
Definition color_after (c : byte) (i : nat) : byte :=
  to_byte (of_byte c + N.of_nat i).

(** Three slots of teams 0, 24 (an observer) and 1. *)
Definition three_slots : list w3gs.SlotData :=
  [ {| w3gs.Slot_PlayerID := x01; w3gs.DownloadStatus := x64;
       w3gs.SlotStatus := x02; w3gs.Computer := false; w3gs.Team := x00;
       w3gs.Color := x07; w3gs.Race := x01; w3gs.ComputerType := x01;
       w3gs.Handicap := x64 |};
    {| w3gs.Slot_PlayerID := x02; w3gs.DownloadStatus := x64;
       w3gs.SlotStatus := x02; w3gs.Computer := false; w3gs.Team := x18;
       w3gs.Color := x07; w3gs.Race := x01; w3gs.ComputerType := x01;
       w3gs.Handicap := x64 |};
    {| w3gs.Slot_PlayerID := x03; w3gs.DownloadStatus := x64;
       w3gs.SlotStatus := x02; w3gs.Computer := true; w3gs.Team := x01;
       w3gs.Color := x07; w3gs.Race := x02; w3gs.ComputerType := x01;
       w3gs.Handicap := x64 |} ].
(** * Properties of the buffer primitives *)

Local Arguments Z.add : simpl never.
Local Arguments Z.sub : simpl never.
Local Arguments Z.mul : simpl never.
Local Arguments Z.of_nat : simpl never.
Local Arguments Z.to_nat : simpl never.
Local Arguments Z.of_N : simpl never.
Local Arguments Z.ltb : simpl never.
Local Arguments Z.leb : simpl never.
Local Arguments Z.eqb : simpl never.
Local Arguments N.shiftr : simpl never.
Local Arguments N.shiftl : simpl never.
Local Arguments N.lor : simpl never.
Local Arguments N.modulo : simpl never.
Local Arguments N.ltb : simpl never.
Local Arguments N.leb : simpl never.
Local Arguments N.eqb : simpl never.

(** ** Bytes *)

Lemma byte_eqb_eq (x y : byte) : Byte.eqb x y = true <-> x = y.
Proof.
  split.
  - apply Byte.byte_dec_bl.
  - apply Byte.byte_dec_lb.
Qed.

Lemma byte_eqb_refl (x : byte) : Byte.eqb x x = true.
Proof. now apply byte_eqb_eq. Qed.

Lemma byte_eqb_neq (x y : byte) : Byte.eqb x y = false <-> x <> y.
Proof.
  rewrite <- byte_eqb_eq. destruct (Byte.eqb x y); split; congruence.
Qed.

Lemma of_byte_bound (b : byte) : (of_byte b < 256)%N.
Proof. unfold of_byte. pose proof (Byte.to_N_bounded b). lia. Qed.

Lemma of_to_byte (v : N) : of_byte (to_byte v) = (v mod 256)%N.
Proof.
  unfold of_byte, to_byte.
  destruct (Byte.of_N (v mod 256)) as [b|] eqn:E.
  - now apply Byte.to_of_N.
  - apply Byte.of_N_None_iff in E.
    pose proof (N.mod_upper_bound v 256). lia.
Qed.

Lemma to_of_byte (b : byte) : to_byte (of_byte b) = b.
Proof.
  unfold of_byte, to_byte.
  rewrite N.mod_small by (pose proof (Byte.to_N_bounded b); lia).
  now rewrite Byte.of_to_N.
Qed.

Lemma of_byte_inj (a b : byte) : of_byte a = of_byte b -> a = b.
Proof. intros H. rewrite <- (to_of_byte a), <- (to_of_byte b). now f_equal. Qed.

(** ** Little-endian words *)

Lemma testbit_above (v k n : N) :
  (v < 2 ^ k)%N -> (k <= n)%N -> N.testbit v n = false.
Proof.
  intros Hv Hn. rewrite <- (N.mod_small v (2 ^ k)) by assumption.
  now apply N.mod_pow2_bits_high.
Qed.

Lemma testbit_mod256 (v m : N) :
  N.testbit (v mod 256) m = (m <? 8)%N && N.testbit v m.
Proof.
  change 256%N with (2 ^ 8)%N.
  destruct (N.ltb_spec m 8) as [H|H].
  - now rewrite N.mod_pow2_bits_low.
  - now rewrite N.mod_pow2_bits_high.
Qed.

(** Bit [n] of the byte of [v] that sits at bit offset [k]. *)
Lemma testbit_byte_at (v k n : N) :
  N.testbit (N.shiftl (of_byte (to_byte (N.shiftr v k))) k) n
  = ((k <=? n) && (n <? k + 8))%N && N.testbit v n.
Proof.
  rewrite of_to_byte.
  destruct (N.leb_spec k n) as [Hk|Hk].
  - rewrite N.shiftl_spec_high' by assumption.
    rewrite testbit_mod256, N.shiftr_spec'.
    replace (n - k + k)%N with n by lia.
    destruct (N.ltb_spec (n - k) 8), (N.ltb_spec n (k + 8)); simpl;
      try reflexivity; lia.
  - simpl. now apply N.shiftl_spec_low.
Qed.

Lemma testbit_byte_0 (v n : N) :
  N.testbit (of_byte (to_byte v)) n = (n <? 8)%N && N.testbit v n.
Proof.
  pose proof (testbit_byte_at v 0 n) as H.
  rewrite N.shiftl_0_r, N.shiftr_0_r in H. rewrite H.
  now destruct (N.leb_spec 0 n); [|lia].
Qed.

Lemma le16_value (v : N) :
  is_u16 v = true ->
  N.lor (N.shiftl (of_byte (to_byte (N.shiftr v 8))) 8) (of_byte (to_byte v))
  = v.
Proof.
  unfold is_u16. intros Hv. apply N.ltb_lt in Hv.
  apply N.bits_inj. intros n.
  rewrite N.lor_spec, testbit_byte_at, testbit_byte_0.
  destruct (N.leb_spec 8 n), (N.ltb_spec n (8 + 8)), (N.ltb_spec n 8);
    simpl; try lia; try reflexivity.
  - now rewrite orb_false_r.
  - symmetry. apply (testbit_above v 16); [exact Hv | lia].
Qed.

Lemma le32_value (v : N) :
  is_u32 v = true ->
  N.lor (N.lor (N.lor (N.shiftl (of_byte (to_byte (N.shiftr v 24))) 24)
                      (N.shiftl (of_byte (to_byte (N.shiftr v 16))) 16))
               (N.shiftl (of_byte (to_byte (N.shiftr v 8))) 8))
        (of_byte (to_byte v))
  = v.
Proof.
  unfold is_u32. intros Hv. apply N.ltb_lt in Hv.
  apply N.bits_inj. intros n.
  rewrite !N.lor_spec, !testbit_byte_at, testbit_byte_0.
  destruct (N.leb_spec 24 n), (N.ltb_spec n (24 + 8)),
    (N.leb_spec 16 n), (N.ltb_spec n (16 + 8)),
    (N.leb_spec 8 n), (N.ltb_spec n (8 + 8)), (N.ltb_spec n 8);
    simpl; try lia; rewrite ?orb_false_r; try reflexivity.
  symmetry. apply (testbit_above v 32); [exact Hv | lia].
Qed.

Lemma uint16_small (n : Z) : 0 <= n < 65536 -> Z.of_N (uint16 n) = n.
Proof.
  intros H. unfold uint16. rewrite Z.mod_small by lia. lia.
Qed.

Lemma uint16_is_u16 (n : Z) : is_u16 (uint16 n) = true.
Proof.
  unfold is_u16, uint16. apply N.ltb_lt.
  pose proof (Z.mod_pos_bound n 65536). lia.
Qed.

Lemma uint8_small (n : Z) : 0 <= n < 256 -> Z.of_N (of_byte (uint8 n)) = n.
Proof.
  intros H. unfold uint8. rewrite of_to_byte, Z.mod_small by lia.
  rewrite N.mod_small by lia. lia.
Qed.

(** ** Lists and lengths *)

Lemma len_nil {A} : len (@nil A) = 0.
Proof. reflexivity. Qed.

Lemma len_cons {A} (x : A) (l : list A) : len (x :: l) = 1 + len l.
Proof. unfold len. simpl length. lia. Qed.

Lemma len_app {A} (l r : list A) : len (l ++ r) = len l + len r.
Proof. unfold len. rewrite length_app. lia. Qed.

Lemma len_nonneg {A} (l : list A) : 0 <= len l.
Proof. unfold len. lia. Qed.

Lemma firstn_len_app {A} (l r : list A) :
  firstn (Z.to_nat (len l)) (l ++ r) = l.
Proof.
  unfold len. rewrite Nat2Z.id, firstn_app, Nat.sub_diag, firstn_all.
  simpl. apply app_nil_r.
Qed.

Lemma skipn_len_app {A} (l r : list A) :
  skipn (Z.to_nat (len l)) (l ++ r) = r.
Proof.
  unfold len. rewrite Nat2Z.id, skipn_app, Nat.sub_diag, skipn_all.
  reflexivity.
Qed.

Ltac len_simpl :=
  repeat (rewrite ?len_app, ?len_cons, ?len_nil in * ).

(** ** Zero-free strings *)

Lemma no_zerob_spec (s : list byte) : no_zerob s = true <-> no_zero s.
Proof.
  unfold no_zerob, no_zero. rewrite forallb_forall. split.
  - intros H Hin. apply H in Hin. now rewrite byte_eqb_refl in Hin.
  - intros H x Hin. apply negb_true_iff, byte_eqb_neq. intros ->. now apply H.
Qed.

Lemma IndexByte_range (b : list byte) (c : byte) :
  -1 <= IndexByte b c < len b.
Proof.
  induction b as [|x b IH]; simpl IndexByte; len_simpl.
  - lia.
  - destruct (Byte.eqb x c); [pose proof (len_nonneg b); lia|].
    destruct (Z.eqb_spec (IndexByte b c) (-1)); lia.
Qed.

Lemma IndexByte_absent (b : list byte) (c : byte) :
  ~ In c b -> IndexByte b c = -1.
Proof.
  induction b as [|x b IH]; simpl; intros H; [reflexivity|].
  destruct (Byte.eqb x c) eqn:E.
  - apply byte_eqb_eq in E. tauto.
  - rewrite IH by tauto. reflexivity.
Qed.

Lemma IndexByte_first (pre post : list byte) (c : byte) :
  ~ In c pre -> IndexByte (pre ++ c :: post) c = len pre.
Proof.
  induction pre as [|x pre IH]; simpl app; simpl IndexByte; intros H.
  - now rewrite byte_eqb_refl.
  - destruct (Byte.eqb x c) eqn:E.
    + apply byte_eqb_eq in E. subst. simpl in H. tauto.
    + rewrite IH by (simpl in H; tauto). len_simpl.
      pose proof (len_nonneg pre).
      destruct (Z.eqb_spec (len pre) (-1)); lia.
Qed.

(** A buffer holds no zero byte, or splits at its first one. *)
Lemma first_zero (b : list byte) :
  no_zero b \/ exists s rest, b = s ++ x00 :: rest /\ no_zero s.
Proof.
  unfold no_zero. induction b as [|x b IH].
  - left. simpl. tauto.
  - destruct (Byte.eqb x x00) eqn:E.
    + apply byte_eqb_eq in E. subst. right. exists [], b. simpl. tauto.
    + apply byte_eqb_neq in E. destruct IH as [IH|(s & rest & -> & Hs)].
      * left. simpl. intros [?|?]; [congruence | tauto].
      * right. exists (x :: s), rest. simpl. split; [reflexivity|].
        intros [?|?]; [congruence | tauto].
Qed.

(** ** Reading what was written *)

Lemma ReadString_no_terminator (b : list byte) :
  no_zero b ->
  util.ReadString b = (Ok ([], Some ErrNoStringTerminatorFound), []).
Proof.
  intros H. unfold util.ReadString.
  rewrite (IndexByte_absent b x00 H). simpl. now rewrite skipn_all.
Qed.

Lemma ReadString_terminated (s rest : list byte) :
  no_zero s ->
  util.ReadString (s ++ x00 :: rest) = (Ok (s, None), rest).
Proof.
  intros H. unfold util.ReadString.
  rewrite (IndexByte_first s rest x00 H).
  pose proof (len_nonneg s).
  destruct (Z.eqb_spec (len s) (-1)) as [E|_]; [lia|].
  rewrite firstn_len_app.
  replace (len s + 1) with (len (s ++ [x00])) by (len_simpl; lia).
  replace (s ++ x00 :: rest) with ((s ++ [x00]) ++ rest)
    by (now rewrite <- app_assoc).
  now rewrite skipn_len_app.
Qed.

Lemma ReadCString_cstring (s rest : list byte) :
  no_zero s ->
  protocol.ReadCString (cstring s ++ rest) = (Ok (s, None), rest).
Proof.
  intros H. unfold cstring. rewrite <- app_assoc. simpl.
  now apply ReadString_terminated.
Qed.

Lemma ReadUInt16_le16 (v : N) (rest : list byte) :
  is_u16 v = true -> util.ReadUInt16 (le16 v ++ rest) = (Ok v, rest).
Proof.
  intros H. unfold le16, util.ReadUInt16. cbn [app].
  now rewrite le16_value.
Qed.

Lemma ReadUInt32_le32 (v : N) (rest : list byte) :
  is_u32 v = true -> util.ReadUInt32 (le32 v ++ rest) = (Ok v, rest).
Proof.
  intros H. unfold le32, util.ReadUInt32. cbn [app].
  now rewrite le32_value.
Qed.

Lemma ReadBlob_app (d rest : list byte) :
  util.ReadBlob (len d) (d ++ rest) = (Ok d, rest).
Proof.
  unfold util.ReadBlob. pose proof (len_nonneg d).
  destruct (Z.ltb_spec 0 (len d)) as [Hp|Hz].
  - destruct (Z.leb_spec (len d) (len (d ++ rest))) as [_|Hl].
    + now rewrite firstn_len_app, skipn_len_app.
    + len_simpl. pose proof (len_nonneg rest). lia.
  - destruct d; [reflexivity|]. len_simpl. pose proof (len_nonneg d). lia.
Qed.

Lemma Skip_1 (x : byte) (b : list byte) : util.Skip 1 (x :: b) = (Ok tt, b).
Proof.
  unfold util.Skip. len_simpl. pose proof (len_nonneg b).
  destruct (Z.leb_spec 0 1); [|lia].
  destruct (Z.leb_spec 1 (1 + len b)); [|lia]. reflexivity.
Qed.

Lemma Skip_app (d rest : list byte) :
  util.Skip (len d) (d ++ rest) = (Ok tt, rest).
Proof.
  unfold util.Skip. pose proof (len_nonneg d). pose proof (len_nonneg rest).
  destruct (Z.leb_spec 0 (len d)); [|lia].
  destruct (Z.leb_spec (len d) (len (d ++ rest))) as [_|Hl].
  - simpl. now rewrite skipn_len_app.
  - len_simpl. lia.
Qed.

(** ** Writing *)

Lemma WriteString_bytes (s b : list byte) :
  util.WriteString s b = (Ok tt, b ++ cstring s).
Proof.
  unfold util.WriteString, util.WriteBlob, util.WriteUInt8, bind, cstring.
  now rewrite <- app_assoc.
Qed.

Lemma To4_length (v ip4 : net.IP) : net.To4 v = Some ip4 -> len ip4 = 4.
Proof.
  unfold net.To4, net.IPv4len, net.IPv6len. intros H.
  destruct (Z.eqb_spec (len v) 4) as [E|_].
  - injection H as <-. exact E.
  - destruct (Z.eqb_spec (len v) 16) as [E|_]; [|discriminate H].
    destruct (true && net.isZeros (firstn 10 v) && Byte.eqb (nth 10 v x00) xff
              && Byte.eqb (nth 11 v x00) xff); [|discriminate H].
    assert (L : len (firstn 4 (skipn 12 v)) = 4)
      by (unfold len in *; rewrite length_firstn, length_skipn; lia).
    injection H as <-. exact L.
Qed.

(** ** The string and address primitives *)

(** C8.  [ReadString] on a buffer without a zero byte reports the missing
    terminator, returns the empty string and leaves the buffer empty; on a
    buffer with a zero byte it returns the bytes before the first zero and
    leaves the bytes after it. *)
Theorem ReadString_spec (b : list byte) :
  (no_zero b ->
   util.ReadString b = (Ok ([], Some ErrNoStringTerminatorFound), [])
   /\ fst (util.Size (snd (util.ReadString b))) = Ok 0)
  /\ (In x00 b ->
      exists s rest,
        b = s ++ x00 :: rest /\ no_zero s
        /\ util.ReadString b = (Ok (s, None), rest)).
Proof.
  split.
  - intros H. rewrite (ReadString_no_terminator b H). split; reflexivity.
  - intros Hin. destruct (first_zero b) as [H|(s & rest & -> & Hs)].
    + contradiction.
    + exists s, rest. repeat split; [exact Hs|].
      now apply ReadString_terminated.
Qed.

Lemma ReadString_spec_witness :
  util.ReadString [x68; x69]
  = (Ok ([], Some ErrNoStringTerminatorFound), [])
  /\ exists s rest,
       [x68; x69; x00; x21] = s ++ x00 :: rest /\ no_zero s
       /\ util.ReadString [x68; x69; x00; x21] = (Ok (s, None), rest).
Proof.
  split.
  - apply (proj1 (ReadString_spec [x68; x69])).
    apply no_zerob_spec. reflexivity.
  - apply (proj2 (ReadString_spec [x68; x69; x00; x21])).
    simpl. tauto.
Defined.

(** C9.  [WriteIP] of an address without IPv4 form appends four zero bytes
    and returns the invalid-IPv4 error; of an IPv4 address it appends the
    four address bytes and returns no error.  The buffer grows by exactly
    four bytes either way. *)
Theorem WriteIP_spec (v : net.IP) (b : list byte) :
  match net.To4 v with
  | None =>
      util.WriteIP v b = (Err ErrInvalidIP4, b ++ [x00; x00; x00; x00])
  | Some ip4 =>
      util.WriteIP v b = (Ok tt, b ++ ip4) /\ len ip4 = 4
  end
  /\ len (snd (util.WriteIP v b)) = len b + 4.
Proof.
  unfold util.WriteIP.
  destruct (net.To4 v) as [ip4|] eqn:E.
  - pose proof (To4_length v ip4 E) as L.
    unfold util.WriteBlob. simpl snd. rewrite len_app. repeat split; lia.
  - split; [reflexivity|]. unfold bind, util.WriteUInt32, fail. simpl snd.
    rewrite len_app. reflexivity.
Qed.

(** C10.  [ReadString] gives back a string written by [WriteString] when the
    string holds no zero byte; a string with a zero byte inside reads back,
    without error, as its part before that byte only. *)
Theorem WriteString_ReadString (s t b rest : list byte) :
  no_zero s ->
  (util.WriteString s b = (Ok tt, b ++ cstring s)
   /\ util.ReadString (cstring s ++ rest) = (Ok (s, None), rest))
  /\ (util.WriteString (s ++ x00 :: t) b
      = (Ok tt, b ++ cstring (s ++ x00 :: t))
      /\ util.ReadString (cstring (s ++ x00 :: t) ++ rest)
         = (Ok (s, None), cstring t ++ rest)
      /\ s <> s ++ x00 :: t).
Proof.
  intros H. repeat split.
  - apply WriteString_bytes.
  - now apply ReadCString_cstring.
  - apply WriteString_bytes.
  - unfold cstring. rewrite <- !app_assoc. simpl.
    now apply ReadString_terminated.
  - intros E. apply (f_equal (@length byte)) in E.
    rewrite length_app in E. simpl in E. lia.
Qed.

Lemma WriteString_ReadString_witness :
  (util.WriteString [x68; x69] [] = (Ok tt, [x68; x69; x00])
   /\ util.ReadString [x68; x69; x00] = (Ok ([x68; x69], None), []))
  /\ (util.WriteString [x68; x69; x00; x21] []
      = (Ok tt, [x68; x69; x00; x21; x00])
      /\ util.ReadString [x68; x69; x00; x21; x00]
         = (Ok ([x68; x69], None), [x21; x00])
      /\ [x68; x69] <> [x68; x69; x00; x21]).
Proof.
  apply (WriteString_ReadString [x68; x69] [x21] [] []).
  apply no_zerob_spec. reflexivity.
Defined.

(** * Properties of the record codecs *)

(** ** Running a computation step by step *)

Lemma bind_Ok {A B} (c : M A) (k : A -> M B) (b b' : list byte) (a : A) :
  c b = (Ok a, b') -> bind c k b = k a b'.
Proof. intros H. unfold bind. now rewrite H. Qed.

Lemma bind_Err {A B} (c : M A) (k : A -> M B) (b b' : list byte) (e : error) :
  c b = (Err e, b') -> bind c k b = (Err e, b').
Proof. intros H. unfold bind. now rewrite H. Qed.

Lemma bind_Panic {A B} (c : M A) (k : A -> M B) (b b' : list byte) :
  c b = (Panic, b') -> bind c k b = (Panic, b').
Proof. intros H. unfold bind. now rewrite H. Qed.

Lemma bind_Size {B} (k : Z -> M B) (b : list byte) :
  bind util.Size k b = k (len b) b.
Proof. reflexivity. Qed.

Lemma bind_Skip_1 {B} (k : unit -> M B) (x : byte) (b : list byte) :
  bind (util.Skip 1) k (x :: b) = k tt b.
Proof. apply bind_Ok, Skip_1. Qed.

Lemma bind_Skip_app {B} (k : unit -> M B) (d b : list byte) :
  bind (util.Skip (len d)) k (d ++ b) = k tt b.
Proof. apply bind_Ok, Skip_app. Qed.

Lemma bind_ReadUInt8 {B} (k : byte -> M B) (x : byte) (b : list byte) :
  bind util.ReadUInt8 k (x :: b) = k x b.
Proof. reflexivity. Qed.

Lemma bind_ReadUInt16 {B} (k : N -> M B) (v : N) (b : list byte) :
  is_u16 v = true -> bind util.ReadUInt16 k (le16 v ++ b) = k v b.
Proof. intros H. now apply bind_Ok, ReadUInt16_le16. Qed.

Lemma bind_ReadUInt32 {B} (k : N -> M B) (v : N) (b : list byte) :
  is_u32 v = true -> bind util.ReadUInt32 k (le32 v ++ b) = k v b.
Proof. intros H. now apply bind_Ok, ReadUInt32_le32. Qed.

Lemma bind_ReadCString {B} (k : list byte * option error -> M B)
  (s b : list byte) :
  no_zero s -> bind protocol.ReadCString k (cstring s ++ b) = k (s, None) b.
Proof. intros H. now apply bind_Ok, ReadCString_cstring. Qed.

Lemma bind_ReadBlob {B} (k : list byte -> M B) (d b : list byte) :
  bind (util.ReadBlob (len d)) k (d ++ b) = k d b.
Proof. apply bind_Ok, ReadBlob_app. Qed.

Lemma bind_ReadBool32 {B} (k : bool -> M B) (v : bool) (b : list byte) :
  bind protocol.ReadBool32 k (le32 (if v then 1 else 0) ++ b) = k v b.
Proof.
  apply bind_Ok. unfold protocol.ReadBool32.
  rewrite bind_ReadUInt32 by now destruct v.
  now destruct v.
Qed.

(** The appending primitives. *)
Lemma bind_WriteUInt8 {B} (k : unit -> M B) (v : byte) (b : list byte) :
  bind (util.WriteUInt8 v) k b = k tt (b ++ [v]).
Proof. reflexivity. Qed.

Lemma bind_WriteUInt16 {B} (k : unit -> M B) (v : N) (b : list byte) :
  bind (util.WriteUInt16 v) k b = k tt (b ++ le16 v).
Proof. reflexivity. Qed.

Lemma bind_WriteUInt32 {B} (k : unit -> M B) (v : N) (b : list byte) :
  bind (util.WriteUInt32 v) k b = k tt (b ++ le32 v).
Proof. reflexivity. Qed.

Lemma bind_WriteBlob {B} (k : unit -> M B) (v b : list byte) :
  bind (util.WriteBlob v) k b = k tt (b ++ v).
Proof. reflexivity. Qed.

Lemma bind_WriteCString {B} (k : unit -> M B) (s b : list byte) :
  bind (protocol.WriteCString s) k b = k tt (b ++ cstring s).
Proof. apply bind_Ok, WriteString_bytes. Qed.

Lemma WriteUInt8_app (v : byte) (b : list byte) :
  util.WriteUInt8 v b = (Ok tt, b ++ [v]).
Proof. reflexivity. Qed.

Lemma WriteUInt32_app (v : N) (b : list byte) :
  util.WriteUInt32 v b = (Ok tt, b ++ le32 v).
Proof. reflexivity. Qed.

Lemma WriteBlob_app (v b : list byte) : util.WriteBlob v b = (Ok tt, b ++ v).
Proof. reflexivity. Qed.

Lemma WriteCString_app (s b : list byte) :
  protocol.WriteCString s b = (Ok tt, b ++ cstring s).
Proof. apply WriteString_bytes. Qed.

Lemma if_app {A B} (c : bool) (f g : A -> B) (x : A) :
  (if c then f else g) x = if c then f x else g x.
Proof. now destruct c. Qed.

(** The size guards: [len b <? n] once the shape of [b] is known. *)
Lemma ltb_false (a n : Z) : n <= a -> (a <? n) = false.
Proof. intros H. now apply Z.ltb_ge. Qed.

Lemma ltb_true (a n : Z) : a < n -> (a <? n) = true.
Proof. intros H. now apply Z.ltb_lt. Qed.

Lemma len_le16 (v : N) : len (le16 v) = 2.
Proof. reflexivity. Qed.

Lemma len_le32 (v : N) : len (le32 v) = 4.
Proof. reflexivity. Qed.

Lemma len_cstring (s : list byte) : len (cstring s) = len s + 1.
Proof. unfold cstring. now rewrite len_app. Qed.

Ltac lens :=
  repeat first [ rewrite len_app | rewrite len_cons | rewrite len_le16
               | rewrite len_le32 | rewrite len_cstring | rewrite len_nil ];
  repeat match goal with
    | |- context [len ?l] =>
        lazymatch goal with
        | _ : 0 <= len l |- _ => fail
        | _ => pose proof (len_nonneg l)
        end
    end;
  lia.

(** Decide the guard at the head of the goal. *)
Ltac pass :=
  rewrite ltb_false by lens; cbn [orb andb negb].

Lemma le32_1 : le32 1 = [x01; x00; x00; x00].
Proof. reflexivity. Qed.

Lemma le32_12 : le32 12 = [x0c; x00; x00; x00].
Proof. reflexivity. Qed.

Lemma le32_0 : le32 0 = [x00; x00; x00; x00].
Proof. reflexivity. Qed.

(** ** GameStart, CountDownStart, CountDownEnd *)

Lemma GameStart_body (rec : w3g.GameStart) (enc : w3g.Encoding)
  (x : byte) (rest : list byte) :
  w3g.GameStart_Deserialize rec enc (x :: le32 1 ++ rest) = (Ok rec, rest).
Proof.
  unfold w3g.GameStart_Deserialize.
  rewrite bind_Size. pass.
  rewrite bind_Skip_1, bind_ReadUInt32 by reflexivity.
  reflexivity.
Qed.

Lemma GameStart_roundtrip (rec rec0 : w3g.GameStart) (enc : w3g.Encoding)
  (rest : list byte) :
  exists bytes,
    w3g.GameStart_Serialize rec enc [] = (Ok tt, bytes)
    /\ w3g.GameStart_Deserialize rec0 enc (bytes ++ rest) = (Ok rec, rest).
Proof.
  exists (w3g.RidGameStart :: le32 1). split; [reflexivity|].
  rewrite <- app_comm_cons, GameStart_body. now destruct rec, rec0.
Qed.

Lemma CountDownStart_roundtrip (rec rec0 : w3g.CountDownStart)
  (enc : w3g.Encoding) (rest : list byte) :
  exists bytes,
    w3g.CountDownStart_Serialize rec enc [] = (Ok tt, bytes)
    /\ w3g.CountDownStart_Deserialize rec0 enc (bytes ++ rest)
       = (Ok rec, rest).
Proof.
  exists (w3g.RidCountDownStart :: le32 1). split; [reflexivity|].
  rewrite <- app_comm_cons. unfold w3g.CountDownStart_Deserialize.
  rewrite (bind_Ok _ _ _ _ _ (GameStart_body _ enc _ rest)).
  destruct rec as [[]], rec0 as [[]]. reflexivity.
Qed.

Lemma CountDownEnd_roundtrip (rec rec0 : w3g.CountDownEnd)
  (enc : w3g.Encoding) (rest : list byte) :
  exists bytes,
    w3g.CountDownEnd_Serialize rec enc [] = (Ok tt, bytes)
    /\ w3g.CountDownEnd_Deserialize rec0 enc (bytes ++ rest) = (Ok rec, rest).
Proof.
  exists (w3g.RidCountDownEnd :: le32 1). split; [reflexivity|].
  rewrite <- app_comm_cons. unfold w3g.CountDownEnd_Deserialize.
  rewrite (bind_Ok _ _ _ _ _ (GameStart_body _ enc _ rest)).
  destruct rec as [[]], rec0 as [[]]. reflexivity.
Qed.

(** Bring the buffer to the shape [x :: ... ++ rest]. *)
Ltac shape := repeat first [ rewrite <- app_comm_cons | rewrite <- app_assoc ].

(** Evaluate the closed test of the conditional at the head. *)
Ltac decide_test :=
  match goal with
  | |- context [if ?c then _ else _] =>
      let v := eval vm_compute in c in
      change c with v; cbv beta iota
  end.

Lemma is_u32_ok (v : N) : is_u32 v = true -> (v < 4294967296)%N.
Proof. unfold is_u32. apply N.ltb_lt. Qed.

(** ** PlayerLeft *)

Lemma PlayerLeft_roundtrip (rec rec0 : w3g.PlayerLeft) (enc : w3g.Encoding)
  (rest : list byte) :
  PlayerLeft_ok rec = true ->
  exists bytes,
    w3g.PlayerLeft_Serialize rec enc [] = (Ok tt, bytes)
    /\ w3g.PlayerLeft_Deserialize rec0 enc (bytes ++ rest) = (Ok rec, rest).
Proof.
  unfold PlayerLeft_ok. intros H.
  apply andb_prop in H. destruct H as [Hr Hc].
  destruct rec as [loc pid reason counter]. simpl in Hr, Hc.
  exists (w3g.RidPlayerLeft :: le32 (if loc then 12 else 1)
          ++ pid :: le32 reason ++ le32 counter).
  split; [now destruct loc|].
  unfold w3g.PlayerLeft_Deserialize. shape.
  rewrite bind_Size. pass.
  rewrite bind_Skip_1, bind_ReadUInt32 by now destruct loc.
  destruct loc; decide_test;
    now rewrite bind_ReadUInt8, !bind_ReadUInt32 by assumption.
Qed.

(** ** EndTimer *)

Lemma EndTimer_roundtrip (rec rec0 : w3g.EndTimer) (enc : w3g.Encoding)
  (rest : list byte) :
  EndTimer_ok rec = true ->
  exists bytes,
    w3g.EndTimer_Serialize rec enc [] = (Ok tt, bytes)
    /\ w3g.EndTimer_Deserialize rec0 enc (bytes ++ rest) = (Ok rec, rest).
Proof.
  unfold EndTimer_ok. intros H.
  destruct rec as [over sec]. simpl in H.
  exists (w3g.RidEndTimer :: le32 (if over then 1 else 0) ++ le32 sec).
  split; [reflexivity|].
  unfold w3g.EndTimer_Deserialize. shape.
  rewrite bind_Size. pass.
  now rewrite bind_Skip_1, bind_ReadBool32, bind_ReadUInt32 by assumption.
Qed.

(** ** TimeSlotAck *)

Lemma TimeSlotAck_roundtrip (rec rec0 : w3g.TimeSlotAck) (enc : w3g.Encoding)
  (rest : list byte) :
  TimeSlotAck_ok rec = true ->
  exists bytes,
    w3g.TimeSlotAck_Serialize rec enc [] = (Ok tt, bytes)
    /\ w3g.TimeSlotAck_Deserialize rec0 enc (bytes ++ rest) = (Ok rec, rest).
Proof.
  unfold TimeSlotAck_ok. intros H. apply Z.ltb_lt in H.
  destruct rec as [sum]. simpl in H. pose proof (len_nonneg sum) as Hs.
  exists ((if ((w3g.GameVersion enc =? 0) || (2 <? w3g.GameVersion enc))%N
           then w3g.RidTimeSlotAck else w3g.RidChatMessage)
          :: uint8 (len sum) :: sum).
  split.
  - unfold w3g.TimeSlotAck_Serialize.
    now destruct ((w3g.GameVersion enc =? 0) || (2 <? w3g.GameVersion enc))%N.
  - unfold w3g.TimeSlotAck_Deserialize. shape.
    rewrite bind_Size. pass.
    rewrite bind_Skip_1, bind_ReadUInt8, bind_Size.
    rewrite uint8_small by lia. pass.
    now rewrite bind_ReadBlob.
Qed.

(** ** PlayerInfo *)

(** The content of a player record. *)
Lemma PlayerInfo_content (rec : w3g.PlayerInfo) (enc : w3g.Encoding) :
  PlayerInfo_ok rec = true ->
  exists bytes,
    4 <= len bytes
    /\ (forall b, w3g.PlayerInfo_SerializeContent rec enc b
                  = (Ok tt, b ++ bytes))
    /\ (forall rec0 rest,
          w3g.PlayerInfo_DeserializeContent rec0 enc (bytes ++ rest)
          = (Ok rec, rest)).
Proof.
  unfold PlayerInfo_ok. intros H.
  apply andb_prop in H. destruct H as [H Hj].
  apply andb_prop in H. destruct H as [Hn Hr].
  apply no_zerob_spec in Hn.
  destruct rec as [id name race jc]. simpl in Hn, Hr, Hj.
  exists (id :: cstring name
          ++ if ((jc =? 0) && (race =? 0))%N then [x01; x00]
             else x08 :: le32 jc ++ le32 race).
  split; [|split].
  - destruct ((jc =? 0) && (race =? 0))%N; lens.
  - intros b. unfold w3g.PlayerInfo_SerializeContent. simpl w3g.ID.
    simpl w3g.Name. simpl w3g.Race. simpl w3g.JoinCounter.
    rewrite bind_WriteUInt8, bind_WriteCString.
    destruct ((jc =? 0) && (race =? 0))%N.
    + rewrite bind_WriteUInt8, WriteUInt8_app. shape. reflexivity.
    + rewrite bind_WriteUInt8, bind_WriteUInt32, WriteUInt32_app.
      shape. reflexivity.
  - intros rec0 rest. unfold w3g.PlayerInfo_DeserializeContent. shape.
    rewrite bind_Size.
    rewrite ltb_false by (destruct ((jc =? 0) && (race =? 0))%N; lens).
    cbv beta iota.
    rewrite bind_ReadUInt8, bind_ReadCString by assumption.
    cbn [fst snd].
    rewrite bind_Size.
    destruct ((jc =? 0) && (race =? 0))%N eqn:E.
    + apply andb_prop in E. destruct E as [Ej Er].
      apply N.eqb_eq in Ej, Er. subst jc race. shape.
      pass. rewrite bind_ReadUInt8, bind_Size.
      change (Z.of_N (of_byte x01)) with 1. pass.
      decide_test. now rewrite bind_Skip_1.
    + shape. pass. rewrite bind_ReadUInt8, bind_Size.
      change (Z.of_N (of_byte x08)) with 8. pass.
      decide_test. decide_test. decide_test.
      now rewrite !bind_ReadUInt32 by assumption.
Qed.

Lemma PlayerInfo_roundtrip (rec rec0 : w3g.PlayerInfo) (enc : w3g.Encoding)
  (rest : list byte) :
  PlayerInfo_ok rec = true ->
  exists bytes,
    w3g.PlayerInfo_Serialize rec enc [] = (Ok tt, bytes)
    /\ w3g.PlayerInfo_Deserialize rec0 enc (bytes ++ rest) = (Ok rec, rest).
Proof.
  intros H. destruct (PlayerInfo_content rec enc H) as (c & Hl & Hs & Hd).
  exists (w3g.RidPlayerInfo :: c ++ le32 0). split.
  - unfold w3g.PlayerInfo_Serialize.
    rewrite bind_WriteUInt8, (bind_Ok _ _ _ _ _ (Hs _)), WriteUInt32_app.
    shape. reflexivity.
  - unfold w3g.PlayerInfo_Deserialize. shape.
    rewrite bind_Size. pass.
    rewrite bind_Skip_1, (bind_Ok _ _ _ _ _ (Hd _ _)), bind_Size. pass.
    change 4 with (len (le32 0)). now rewrite bind_Skip_app.
Qed.

(** ** TimeSlot *)

(** The loop of [Deserialize], one round unfolded. *)
Lemma read_actions_eq (size : Z) :
  w3g.read_actions size
  = if size <? 3 then ret ([], size) else
    (pid <- util.ReadUInt8 ;;
     n <- util.ReadUInt16 ;;
     if size <? Z.of_N n then fail ErrBadFormat else
     data <- util.ReadBlob (Z.of_N n) ;;
     r <- w3g.read_actions (size - (3 + Z.of_N n)) ;;
     ret ({| w3gs.PlayerID := pid; w3gs.Data := data |} :: fst r, snd r)).
Proof.
  rewrite w3g.read_actions_equation_1.
  destruct (Z_lt_dec size 3) as [H|H].
  - now rewrite ltb_true.
  - rewrite ltb_false by lia. reflexivity.
Qed.

Lemma write_actions_app (acts : list w3gs.PlayerAction) (b : list byte) :
  w3g.write_actions acts b = (Ok tt, b ++ actions_bytes acts).
Proof.
  revert b. induction acts as [|a acts IH]; intros b.
  - simpl. now rewrite app_nil_r.
  - cbn [w3g.write_actions].
    rewrite bind_WriteUInt8, bind_WriteUInt16, bind_WriteBlob, IH.
    unfold actions_bytes. cbn [flat_map]. unfold action_bytes. shape.
    reflexivity.
Qed.

Lemma WriteUInt8At_app (pre tl : list byte) (x v : byte) :
  util.WriteUInt8At (len pre) v (pre ++ x :: tl) = (Ok tt, pre ++ v :: tl).
Proof.
  unfold util.WriteUInt8At.
  pose proof (len_nonneg pre). pose proof (len_nonneg tl).
  destruct (Z.leb_spec 0 (len pre)); [|lia].
  rewrite ltb_true by lens. cbn [andb].
  rewrite firstn_len_app.
  replace (S (Z.to_nat (len pre))) with (Z.to_nat (len (pre ++ [x])))
    by (rewrite len_app, len_cons, len_nil; lia).
  replace (pre ++ x :: tl) with ((pre ++ [x]) ++ tl)
    by (now rewrite <- app_assoc).
  now rewrite skipn_len_app.
Qed.

(** Patching the two placeholder bytes. *)
Lemma WriteUInt16At_app (pre tl : list byte) (x y : byte) (v : N) :
  util.WriteUInt16At (len pre) v (pre ++ x :: y :: tl)
  = (Ok tt, pre ++ le16 v ++ tl).
Proof.
  unfold util.WriteUInt16At.
  replace (len pre + 1) with (len (pre ++ [x]))
    by (rewrite len_app, len_cons, len_nil; lia).
  replace (pre ++ x :: y :: tl) with ((pre ++ [x]) ++ y :: tl)
    by (now rewrite <- app_assoc).
  rewrite (bind_Ok _ _ _ _ _ (WriteUInt8At_app _ _ _ _)).
  rewrite <- app_assoc. cbn [app].
  now rewrite WriteUInt8At_app.
Qed.

(** What [Serialize] appends: the tag and the body. *)
Lemma TimeSlot_Serialize_bytes (rec : w3g.TimeSlot) (enc : w3g.Encoding)
  (b : list byte) :
  w3g.TimeSlot_Serialize rec enc b
  = (Ok tt,
     b ++ (if w3gs.Fragment rec
              || ((0 <? w3g.GameVersion enc)
                  && (w3g.GameVersion enc <=? 2))%N
           then w3g.RidTimeSlot2 else w3g.RidTimeSlot)
       :: TimeSlot_body rec).
Proof.
  unfold w3g.TimeSlot_Serialize, TimeSlot_body.
  match goal with
  | |- context [if ?c then util.WriteUInt8 _ else _] => set (cond := c)
  end.
  assert (E : (if cond then util.WriteUInt8 w3g.RidTimeSlot2
               else util.WriteUInt8 w3g.RidTimeSlot)
              = util.WriteUInt8 (if cond then w3g.RidTimeSlot2
                                 else w3g.RidTimeSlot))
    by now destruct cond.
  rewrite E. clear E.
  set (tag := if cond then w3g.RidTimeSlot2 else w3g.RidTimeSlot).
  rewrite bind_WriteUInt8, bind_WriteUInt16, bind_Size, bind_WriteUInt16.
  rewrite (bind_Ok _ _ _ _ _ (write_actions_app _ _)), bind_Size.
  set (ab := actions_bytes (w3gs.Actions rec)).
  match goal with
  | |- context [util.WriteUInt16At ?p (uint16 ?n)] =>
      replace n with (2 + len ab) by lens;
      replace p with (len (b ++ [tag])) by lens
  end.
  shape. unfold le16 at 1. cbn [app].
  replace (b ++ tag :: to_byte 0 :: to_byte (N.shiftr 0 8)
           :: le16 (w3gs.TimeIncrementMS rec) ++ ab)
    with ((b ++ [tag]) ++ to_byte 0 :: to_byte (N.shiftr 0 8)
          :: le16 (w3gs.TimeIncrementMS rec) ++ ab)
    by (now rewrite <- app_assoc).
  rewrite WriteUInt16At_app. shape. reflexivity.
Qed.

Lemma forallb_cons {A} (f : A -> bool) (x : A) (l : list A) :
  forallb f (x :: l) = true -> f x = true /\ forallb f l = true.
Proof. simpl. apply andb_prop. Qed.

(** The loop reads back the actions that were written and goes on with what
    remains of the declared length. *)
Lemma read_actions_prefix (acts : list w3gs.PlayerAction) (k : Z)
  (rest : list byte) :
  forallb action_ok acts = true ->
  0 <= k ->
  w3g.read_actions (len (actions_bytes acts) + k) (actions_bytes acts ++ rest)
  = bind (w3g.read_actions k) (fun r => ret (acts ++ fst r, snd r)) rest.
Proof.
  intros H Hk. induction acts as [|[pid data] acts IH].
  - cbn [actions_bytes flat_map app]. rewrite len_nil, Z.add_0_l.
    unfold bind. now destruct (w3g.read_actions k rest) as [[[l z]|e|] b'].
  - apply forallb_cons in H. destruct H as [Ha H].
    unfold action_ok in Ha. cbn [w3gs.Data] in Ha. apply Z.ltb_lt in Ha.
    pose proof (len_nonneg data) as Hd.
    unfold actions_bytes in *. cbn [flat_map].
    set (ab := flat_map action_bytes acts) in *.
    unfold action_bytes. cbn [w3gs.PlayerID w3gs.Data].
    rewrite read_actions_eq. pass. shape.
    rewrite bind_ReadUInt8, bind_ReadUInt16 by apply uint16_is_u16.
    rewrite uint16_small by lia. pass.
    rewrite bind_ReadBlob.
    replace (len (pid :: le16 (uint16 (len data)) ++ data ++ ab) + k
             - (3 + len data))
      with (len ab + k) by lens.
    unfold bind at 1. rewrite (IH H). unfold bind.
    now destruct (w3g.read_actions k rest) as [[[l z]|e|] b'].
Qed.

(** With the declared length used up, the loop ends at zero. *)
Lemma read_actions_bytes (acts : list w3gs.PlayerAction) (rest : list byte) :
  forallb action_ok acts = true ->
  w3g.read_actions (len (actions_bytes acts)) (actions_bytes acts ++ rest)
  = (Ok (acts, 0), rest).
Proof.
  intros H.
  replace (len (actions_bytes acts)) with (len (actions_bytes acts) + 0)
    by lia.
  rewrite read_actions_prefix by (assumption || lia).
  rewrite read_actions_eq, ltb_true by lia.
  unfold bind, ret. cbn [fst snd]. now rewrite app_nil_r.
Qed.

(** Deserializing a body behind either tag. *)
Lemma TimeSlot_Deserialize_body (rec rec0 : w3g.TimeSlot)
  (enc : w3g.Encoding) (tag : byte) (rest : list byte) :
  is_u16 (w3gs.TimeIncrementMS rec) = true ->
  forallb action_ok (w3gs.Actions rec) = true ->
  2 + len (actions_bytes (w3gs.Actions rec)) < 65536 ->
  w3g.TimeSlot_Deserialize rec0 enc (tag :: TimeSlot_body rec ++ rest)
  = (Ok {| w3gs.Fragment :=
             Byte.eqb tag w3g.RidTimeSlot2
             && ((w3g.GameVersion enc =? 0) || (2 <? w3g.GameVersion enc))%N;
           w3gs.TimeIncrementMS := w3gs.TimeIncrementMS rec;
           w3gs.Actions := w3gs.Actions rec |},
     rest).
Proof.
  intros Hms Hacts Hsize.
  unfold w3g.TimeSlot_Deserialize, TimeSlot_body.
  set (ab := actions_bytes (w3gs.Actions rec)) in *.
  pose proof (len_nonneg ab) as Hab.
  shape. rewrite bind_Size. pass.
  rewrite bind_ReadUInt8, bind_ReadUInt16 by apply uint16_is_u16.
  cbv zeta. rewrite uint16_small by lia.
  rewrite bind_Size. pass. pass.
  rewrite bind_ReadUInt16 by assumption.
  replace (2 + len ab - 2) with (len ab) by lia.
  unfold ab. rewrite (bind_Ok _ _ _ _ _ (read_actions_bytes _ _ Hacts)).
  reflexivity.
Qed.

Lemma TimeSlot_ok_parts (enc : w3g.Encoding) (rec : w3g.TimeSlot) :
  TimeSlot_ok enc rec = true ->
  (negb (w3gs.Fragment rec) || negb (early_version enc)) = true
  /\ is_u16 (w3gs.TimeIncrementMS rec) = true
  /\ forallb action_ok (w3gs.Actions rec) = true
  /\ 2 + len (actions_bytes (w3gs.Actions rec)) < 65536.
Proof.
  unfold TimeSlot_ok. intros H.
  apply andb_prop in H. destruct H as [H H4].
  apply andb_prop in H. destruct H as [H H3].
  apply andb_prop in H. destruct H as [H1 H2].
  apply Z.ltb_lt in H4. auto.
Qed.

(** The version tests of the code, in terms of the early versions. *)
Lemma early_version_spec (enc : w3g.Encoding) :
  early_version enc = true
  <-> (1 <= w3g.GameVersion enc <= 2)%N.
Proof.
  unfold early_version. rewrite andb_true_iff, N.leb_le, N.leb_le. tauto.
Qed.

Lemma early_version_test (enc : w3g.Encoding) :
  ((0 <? w3g.GameVersion enc) && (w3g.GameVersion enc <=? 2))%N
  = early_version enc.
Proof.
  unfold early_version.
  destruct (N.ltb_spec 0 (w3g.GameVersion enc)),
    (N.leb_spec 1 (w3g.GameVersion enc)); try reflexivity; lia.
Qed.

Lemma modern_version_test (enc : w3g.Encoding) :
  ((w3g.GameVersion enc =? 0) || (2 <? w3g.GameVersion enc))%N
  = negb (early_version enc).
Proof.
  unfold early_version.
  destruct (N.eqb_spec (w3g.GameVersion enc) 0),
    (N.ltb_spec 2 (w3g.GameVersion enc)),
    (N.leb_spec 1 (w3g.GameVersion enc)),
    (N.leb_spec (w3g.GameVersion enc) 2); try reflexivity; lia.
Qed.

(** The fragment flag computed from the tag [Serialize] chose. *)
Lemma fragment_recorded (f e : bool) :
  (negb f || negb e) = true ->
  Byte.eqb (if f || e then w3g.RidTimeSlot2 else w3g.RidTimeSlot)
    w3g.RidTimeSlot2
  && negb e = f.
Proof. now destruct f, e. Qed.

Lemma TimeSlot_roundtrip (rec rec0 : w3g.TimeSlot) (enc : w3g.Encoding)
  (rest : list byte) :
  TimeSlot_ok enc rec = true ->
  exists bytes,
    w3g.TimeSlot_Serialize rec enc [] = (Ok tt, bytes)
    /\ w3g.TimeSlot_Deserialize rec0 enc (bytes ++ rest) = (Ok rec, rest).
Proof.
  intros H. destruct (TimeSlot_ok_parts enc rec H) as (Hf & Hms & Ha & Hs).
  eexists. split; [apply TimeSlot_Serialize_bytes|].
  cbn [app]. rewrite TimeSlot_Deserialize_body by assumption.
  rewrite early_version_test, modern_version_test.
  rewrite fragment_recorded by assumption. now destruct rec.
Qed.

(** ** ChatMessage *)

Section ChatLaws.
Context {T : unicode.Tables}.

(** The loop over the extra strings, one round unfolded. *)
Lemma read_extra_eq (size : Z) (content : list byte) :
  w3g.read_extra size content
  = if 0 <? size then
      (r <- protocol.ReadCString ;;
       match snd r with
       | Some err => fail err
       | None =>
           if strings.has_nonprint (fst r) then fail ErrBadFormat else
           w3g.read_extra (size - (len (fst r) + 1)) (content ++ fst r)
       end)
    else ret (content, size).
Proof.
  rewrite w3g.read_extra_equation_1.
  destruct (Z_gt_dec size 0) as [H|H].
  - rewrite ltb_true by lia. reflexivity.
  - rewrite ltb_false by lia. reflexivity.
Qed.

Lemma len_flat_cstring_cons (s : list byte) (more : list (list byte)) :
  len (flat_map cstring (s :: more))
  = len s + 1 + len (flat_map cstring more).
Proof. cbn [flat_map]. rewrite len_app, len_cstring. lia. Qed.

(** Printable extra strings are appended to the content. *)
Lemma read_extra_printable (more : list (list byte))
  (content rest : list byte) :
  forallb no_zerob more = true ->
  forallb (fun s => negb (strings.has_nonprint s)) more = true ->
  w3g.read_extra (len (flat_map cstring more)) content
    (flat_map cstring more ++ rest)
  = (Ok (content ++ concat more, 0), rest).
Proof.
  revert content. induction more as [|s more IH]; intros content Hz Hp.
  - rewrite read_extra_eq. cbn. now rewrite app_nil_r.
  - apply forallb_cons in Hz. destruct Hz as [Hs Hz].
    apply forallb_cons in Hp. destruct Hp as [Hps Hp].
    apply no_zerob_spec in Hs. apply negb_true_iff in Hps.
    rewrite read_extra_eq, len_flat_cstring_cons.
    pose proof (len_nonneg s). pose proof (len_nonneg (flat_map cstring more)).
    rewrite ltb_true by lia.
    cbn [flat_map]. shape.
    rewrite bind_ReadCString by assumption. cbn [fst snd].
    rewrite Hps.
    replace (len s + 1 + len (flat_map cstring more) - (len s + 1))
      with (len (flat_map cstring more)) by lia.
    rewrite IH by assumption. cbn [concat]. now rewrite app_assoc.
Qed.

(** An extra string with a rune that is not printable stops the loop. *)
Lemma read_extra_nonprint (more : list (list byte))
  (content rest : list byte) :
  forallb no_zerob more = true ->
  existsb strings.has_nonprint more = true ->
  fst (w3g.read_extra (len (flat_map cstring more)) content
         (flat_map cstring more ++ rest))
  = Err ErrBadFormat.
Proof.
  revert content. induction more as [|s more IH]; intros content Hz Hp.
  - discriminate.
  - apply forallb_cons in Hz. destruct Hz as [Hs Hz].
    apply no_zerob_spec in Hs.
    rewrite read_extra_eq, len_flat_cstring_cons.
    pose proof (len_nonneg s). pose proof (len_nonneg (flat_map cstring more)).
    rewrite ltb_true by lia.
    cbn [flat_map]. shape.
    rewrite bind_ReadCString by assumption. cbn [fst snd].
    cbn [existsb] in Hp.
    destruct (strings.has_nonprint s) eqn:E; [reflexivity|].
    replace (len s + 1 + len (flat_map cstring more) - (len s + 1))
      with (len (flat_map cstring more)) by lia.
    apply IH; assumption.
Qed.

(** The text part: content, then the extra strings. *)
Lemma read_content_printable (content : list byte)
  (more : list (list byte)) (rest : list byte) :
  no_zero content ->
  forallb no_zerob more = true ->
  forallb (fun s => negb (strings.has_nonprint s)) more = true ->
  w3g.read_content (1 + len (cstring content ++ flat_map cstring more))
    (cstring content ++ flat_map cstring more ++ rest)
  = (Ok (content ++ concat more), rest).
Proof.
  intros Hc Hz Hp. unfold w3g.read_content.
  rewrite bind_ReadCString by assumption. cbn [fst snd].
  replace (1 + len (cstring content ++ flat_map cstring more)
           - (2 + len content))
    with (len (flat_map cstring more)) by lens.
  rewrite (bind_Ok _ _ _ _ _ (read_extra_printable _ _ _ Hz Hp)).
  reflexivity.
Qed.

Lemma read_content_nonprint (content : list byte)
  (more : list (list byte)) (rest : list byte) :
  no_zero content ->
  forallb no_zerob more = true ->
  existsb strings.has_nonprint more = true ->
  fst (w3g.read_content (1 + len (cstring content ++ flat_map cstring more))
         (cstring content ++ flat_map cstring more ++ rest))
  = Err ErrBadFormat.
Proof.
  intros Hc Hz Hp. unfold w3g.read_content.
  rewrite bind_ReadCString by assumption. cbn [fst snd].
  replace (1 + len (cstring content ++ flat_map cstring more)
           - (2 + len content))
    with (len (flat_map cstring more)) by lens.
  pose proof (read_extra_nonprint more content rest Hz Hp) as H.
  unfold bind at 1.
  destruct (w3g.read_extra (len (flat_map cstring more)) content
              (flat_map cstring more ++ rest)) as [[q|e|] b'];
    cbn [fst] in H; try discriminate.
  now injection H as ->.
Qed.

(** The record up to its text: what [Deserialize] does before
    [read_content], for the two chat types. *)
Lemma ChatMessage_Deserialize_text (rec0 : w3g.ChatMessage)
  (enc : w3g.Encoding) (sender : byte) (extra : bool) (scope : N)
  (content : list byte) (more : list (list byte)) (rest : list byte) :
  is_u32 scope = true ->
  (if extra then 5 else 1)
  + len (cstring content ++ flat_map cstring more) < 65536 ->
  w3g.ChatMessage_Deserialize rec0 enc
    (chat_text_bytes sender extra scope content more ++ rest)
  = bind
      (w3g.read_content (1 + len (cstring content ++ flat_map cstring more)))
      (fun text =>
         ret {| w3gs.RecipientIDs := []; w3gs.SenderID := sender;
                w3gs.Type_ := if extra then w3gs.MsgChatExtra
                              else w3gs.MsgChat;
                w3gs.Scope := if extra then scope else w3gs.ScopeAll;
                w3gs.NewVal := x00; w3gs.Content := text |})
      (cstring content ++ flat_map cstring more ++ rest).
Proof.
  intros Hscope Hsize.
  unfold w3g.ChatMessage_Deserialize, chat_text_bytes. cbv zeta.
  set (text := cstring content ++ flat_map cstring more) in *.
  assert (Ht : 1 <= len text).
  { unfold text. rewrite len_app, len_cstring.
    pose proof (len_nonneg content).
    pose proof (len_nonneg (flat_map cstring more)). lia. }
  shape. rewrite bind_Size.
  rewrite ltb_false by (destruct extra; lens). cbn [orb andb negb].
  rewrite bind_Skip_1, bind_ReadUInt8.
  rewrite bind_ReadUInt16 by apply uint16_is_u16.
  rewrite uint16_small by (destruct extra; lia).
  rewrite bind_Size.
  rewrite ltb_false by (destruct extra; lia). cbn [orb].
  rewrite ltb_false by (destruct extra; lens). cbn [orb andb negb].
  destruct extra.
  - shape. rewrite bind_ReadUInt8. decide_test. pass.
    rewrite bind_ReadUInt32 by assumption.
    replace (5 + len text - 4) with (1 + len text) by lia.
    unfold text. rewrite <- app_assoc. reflexivity.
  - shape. rewrite bind_ReadUInt8. decide_test. decide_test.
    unfold text. rewrite <- app_assoc. reflexivity.
Qed.

Lemma ChatMessage_Serialize_text (rec : w3g.ChatMessage)
  (enc : w3g.Encoding) (extra : bool) :
  w3gs.Type_ rec = (if extra then w3gs.MsgChatExtra else w3gs.MsgChat) ->
  w3g.ChatMessage_Serialize rec enc []
  = (Ok tt, chat_text_bytes (w3gs.SenderID rec) extra (w3gs.Scope rec)
              (w3gs.Content rec) []).
Proof.
  intros Hty. unfold w3g.ChatMessage_Serialize, chat_text_bytes.
  rewrite Hty. cbv zeta. cbn [flat_map]. rewrite app_nil_r.
  rewrite len_cstring.
  destruct extra.
  - decide_test.
    rewrite !bind_WriteUInt8, bind_WriteUInt16, bind_WriteUInt8.
    rewrite bind_WriteUInt32, WriteCString_app.
    replace (5 + (len (w3gs.Content rec) + 1))
      with (6 + len (w3gs.Content rec)) by lia.
    shape. reflexivity.
  - decide_test. decide_test.
    rewrite !bind_WriteUInt8, bind_WriteUInt16, bind_WriteUInt8.
    rewrite WriteCString_app.
    replace (1 + (len (w3gs.Content rec) + 1))
      with (2 + len (w3gs.Content rec)) by lia.
    shape. reflexivity.
Qed.

Lemma ChatMessage_roundtrip (rec rec0 : w3g.ChatMessage)
  (enc : w3g.Encoding) (rest : list byte) :
  ChatMessage_ok rec = true ->
  exists bytes,
    w3g.ChatMessage_Serialize rec enc [] = (Ok tt, bytes)
    /\ w3g.ChatMessage_Deserialize rec0 enc (bytes ++ rest)
       = (Ok rec, rest).
Proof.
  unfold ChatMessage_ok. intros H.
  destruct rec as [rcpt sender ty scope newval content].
  cbn [w3gs.RecipientIDs w3gs.Type_ w3gs.Scope w3gs.Content w3gs.NewVal]
    in H.
  apply andb_prop in H. destruct H as [Hr H].
  destruct rcpt; [clear Hr | discriminate].
  destruct (Byte.eqb ty w3gs.MsgChatExtra) eqn:Ex;
    [|destruct (Byte.eqb ty w3gs.MsgChat) eqn:Ec].
  - apply byte_eqb_eq in Ex. subst ty.
    apply andb_prop in H. destruct H as [H Hv].
    apply andb_prop in H. destruct H as [H Hl].
    apply andb_prop in H. destruct H as [Hs Hz].
    apply byte_eqb_eq in Hv. subst newval.
    apply Z.ltb_lt in Hl. apply no_zerob_spec in Hz.
    eexists. split.
    + now apply (ChatMessage_Serialize_text _ enc true).
    + cbn [w3gs.SenderID w3gs.Scope w3gs.Content].
      rewrite ChatMessage_Deserialize_text;
        [|assumption|cbn [flat_map]; lens].
      rewrite (bind_Ok _ _ _ _ _
                 (read_content_printable content [] rest Hz
                    eq_refl eq_refl)).
      cbn [concat]. now rewrite app_nil_r.
  - apply byte_eqb_eq in Ec. subst ty.
    apply andb_prop in H. destruct H as [H Hv].
    apply andb_prop in H. destruct H as [H Hl].
    apply andb_prop in H. destruct H as [Hs Hz].
    apply byte_eqb_eq in Hv. subst newval.
    apply N.eqb_eq in Hs. subst scope.
    apply Z.ltb_lt in Hl. apply no_zerob_spec in Hz.
    eexists. split.
    + now apply (ChatMessage_Serialize_text _ enc false).
    + cbn [w3gs.SenderID w3gs.Scope w3gs.Content].
      rewrite ChatMessage_Deserialize_text;
        [|reflexivity|cbn [flat_map]; lens].
      rewrite (bind_Ok _ _ _ _ _
                 (read_content_printable content [] rest Hz
                    eq_refl eq_refl)).
      cbn [concat]. now rewrite app_nil_r.
  - apply andb_prop in H. destruct H as [Hs Hc].
    apply N.eqb_eq in Hs. subst scope.
    destruct content; [clear Hc | discriminate].
    exists (w3g.RidChatMessage :: sender :: le16 2 ++ [ty; newval]).
    split.
    + unfold w3g.ChatMessage_Serialize.
      cbn [w3gs.SenderID w3gs.Type_ w3gs.NewVal].
      rewrite Ex, Ec. reflexivity.
    + unfold w3g.ChatMessage_Deserialize. shape.
      rewrite bind_Size. pass.
      rewrite bind_Skip_1, bind_ReadUInt8.
      rewrite bind_ReadUInt16 by reflexivity. cbv zeta.
      change (Z.of_N 2) with 2.
      rewrite bind_Size. pass. pass.
      rewrite bind_ReadUInt8, Ex, Ec. decide_test.
      now rewrite bind_ReadUInt8.
Qed.

End ChatLaws.

(** ** TimeSlot: declared lengths that do not fit *)

(** [Deserialize] up to the loop, for a declared length [d]. *)
Lemma TimeSlot_Deserialize_header (rec0 : w3g.TimeSlot) (enc : w3g.Encoding)
  (tag : byte) (d : Z) (ms : N) (tail : list byte) :
  2 <= d < 65536 ->
  d <= 2 + len tail ->
  is_u16 ms = true ->
  w3g.TimeSlot_Deserialize rec0 enc (tag :: le16 (uint16 d) ++ le16 ms ++ tail)
  = bind (w3g.read_actions (d - 2))
      (fun r =>
         if negb (snd r =? 0) then fail ErrBadFormat else
         ret {| w3gs.Fragment :=
                  Byte.eqb tag w3g.RidTimeSlot2
                  && ((w3g.GameVersion enc =? 0)
                      || (2 <? w3g.GameVersion enc))%N;
                w3gs.TimeIncrementMS := ms;
                w3gs.Actions := fst r |})
      tail.
Proof.
  intros Hd Hl Hms. unfold w3g.TimeSlot_Deserialize.
  rewrite bind_Size. pass.
  rewrite bind_ReadUInt8, bind_ReadUInt16 by apply uint16_is_u16.
  cbv zeta. rewrite uint16_small by lia.
  rewrite bind_Size. pass. pass.
  now rewrite bind_ReadUInt16 by assumption.
Qed.

(** One or two bytes of the declared length left after the last action:
    bad format. *)
Lemma TimeSlot_Deserialize_stray (rec0 : w3g.TimeSlot) (enc : w3g.Encoding)
  (tag : byte) (ms : N) (acts : list w3gs.PlayerAction) (k : Z)
  (rest : list byte) :
  is_u16 ms = true ->
  forallb action_ok acts = true ->
  1 <= k <= 2 ->
  k <= len rest ->
  2 + len (actions_bytes acts) + k < 65536 ->
  w3g.TimeSlot_Deserialize rec0 enc
    (tag :: le16 (uint16 (2 + len (actions_bytes acts) + k)) ++ le16 ms
         ++ actions_bytes acts ++ rest)
  = (Err ErrBadFormat, rest).
Proof.
  intros Hms Ha Hk Hr Hd. pose proof (len_nonneg (actions_bytes acts)).
  rewrite TimeSlot_Deserialize_header by (try assumption; lens).
  replace (2 + len (actions_bytes acts) + k - 2)
    with (len (actions_bytes acts) + k) by lia.
  unfold bind at 1. rewrite read_actions_prefix by (assumption || lia).
  rewrite read_actions_eq, ltb_true by lia.
  unfold bind, ret, fail. cbn [fst snd].
  destruct (Z.eqb_spec k 0); [lia | reflexivity].
Qed.

(** The loop on an action whose declared data length exceeds what is left
    of the record's declared length. *)
Lemma read_actions_overrun (k : Z) (pid : byte) (n : N) (rest : list byte) :
  is_u16 n = true ->
  3 <= k < Z.of_N n ->
  w3g.read_actions k (pid :: le16 n ++ rest) = (Err ErrBadFormat, rest).
Proof.
  intros Hn Hk. rewrite read_actions_eq, ltb_false by lia.
  rewrite bind_ReadUInt8, bind_ReadUInt16 by assumption.
  now rewrite ltb_true by lia.
Qed.

(** The same action when it exceeds the declared length by at most its three
    header bytes: the test of the loop lets it through, and the loop ends
    below zero... *)
Lemma read_actions_overrun_by_header (k : Z) (pid : byte)
  (data rest : list byte) :
  len data < 65536 ->
  3 <= k ->
  len data <= k < 3 + len data ->
  w3g.read_actions k (pid :: le16 (uint16 (len data)) ++ data ++ rest)
  = (Ok ([{| w3gs.PlayerID := pid; w3gs.Data := data |}],
         k - (3 + len data)), rest).
Proof.
  intros Hn Hk Hd. pose proof (len_nonneg data).
  rewrite read_actions_eq, ltb_false by lia.
  rewrite bind_ReadUInt8, bind_ReadUInt16 by apply uint16_is_u16.
  rewrite uint16_small by lia. rewrite ltb_false by lia.
  rewrite bind_ReadBlob.
  rewrite read_actions_eq, ltb_true by lia. reflexivity.
Qed.

(** ... unless the buffer ends before the data: [ReadBlob] then slices out
    of range. *)
Lemma read_actions_overrun_short (k : Z) (pid : byte) (n : N)
  (rest : list byte) :
  is_u16 n = true ->
  3 <= k ->
  Z.of_N n <= k < 3 + Z.of_N n ->
  len rest < Z.of_N n ->
  w3g.read_actions k (pid :: le16 n ++ rest) = (Panic, rest).
Proof.
  intros Hn Hk Hkn Hs. pose proof (len_nonneg rest).
  rewrite read_actions_eq, ltb_false by lia.
  rewrite bind_ReadUInt8, bind_ReadUInt16 by assumption.
  rewrite ltb_false by lia.
  unfold bind, util.ReadBlob.
  rewrite ltb_true by lia.
  destruct (Z.leb_spec (Z.of_N n) (len rest)); [lia | reflexivity].
Qed.

Ltac into_loop :=
  match goal with
  | |- context [w3g.read_actions (2 + ?l + ?k - 2)] =>
      replace (2 + l + k - 2) with (l + k) by lia
  end;
  unfold bind at 1; rewrite read_actions_prefix by (assumption || lia);
  unfold bind at 1.

(** An action whose declared data length exceeds what is left of the
    record's declared length: bad format. *)
Lemma TimeSlot_Deserialize_overrun (rec0 : w3g.TimeSlot) (enc : w3g.Encoding)
  (tag pid : byte) (ms n : N) (acts : list w3gs.PlayerAction) (k : Z)
  (rest : list byte) :
  is_u16 ms = true ->
  forallb action_ok acts = true ->
  is_u16 n = true ->
  3 <= k < Z.of_N n ->
  k <= 3 + len rest ->
  2 + len (actions_bytes acts) + k < 65536 ->
  w3g.TimeSlot_Deserialize rec0 enc
    (tag :: le16 (uint16 (2 + len (actions_bytes acts) + k)) ++ le16 ms
         ++ actions_bytes acts ++ pid :: le16 n ++ rest)
  = (Err ErrBadFormat, rest).
Proof.
  intros Hms Ha Hn Hk Hr Hd. pose proof (len_nonneg (actions_bytes acts)).
  rewrite TimeSlot_Deserialize_header by (try assumption; lens).
  into_loop. now rewrite read_actions_overrun.
Qed.

(** An action that exceeds the declared length by at most its three header
    bytes, with its data in the buffer: bad format again. *)
Lemma TimeSlot_Deserialize_overrun_by_header (rec0 : w3g.TimeSlot)
  (enc : w3g.Encoding) (tag pid : byte) (ms : N) (data : list byte)
  (acts : list w3gs.PlayerAction) (k : Z) (rest : list byte) :
  is_u16 ms = true ->
  forallb action_ok acts = true ->
  len data < 65536 ->
  3 <= k ->
  len data <= k < 3 + len data ->
  2 + len (actions_bytes acts) + k < 65536 ->
  w3g.TimeSlot_Deserialize rec0 enc
    (tag :: le16 (uint16 (2 + len (actions_bytes acts) + k)) ++ le16 ms
         ++ actions_bytes acts
         ++ pid :: le16 (uint16 (len data)) ++ data ++ rest)
  = (Err ErrBadFormat, rest).
Proof.
  intros Hms Ha Hn Hk Hr Hd. pose proof (len_nonneg (actions_bytes acts)).
  pose proof (len_nonneg data). pose proof (len_nonneg rest).
  rewrite TimeSlot_Deserialize_header by (try assumption; lens).
  into_loop. rewrite read_actions_overrun_by_header by assumption.
  unfold ret, fail. cbn [fst snd].
  destruct (Z.eqb_spec (k - (3 + len data)) 0); [lia | reflexivity].
Qed.

(** The same without the data in the buffer: a panic. *)
Lemma TimeSlot_Deserialize_overrun_short (rec0 : w3g.TimeSlot)
  (enc : w3g.Encoding) (tag pid : byte) (ms n : N)
  (acts : list w3gs.PlayerAction) (k : Z) (rest : list byte) :
  is_u16 ms = true ->
  forallb action_ok acts = true ->
  is_u16 n = true ->
  3 <= k ->
  Z.of_N n <= k < 3 + Z.of_N n ->
  k <= 3 + len rest ->
  len rest < Z.of_N n ->
  2 + len (actions_bytes acts) + k < 65536 ->
  fst (w3g.TimeSlot_Deserialize rec0 enc
         (tag :: le16 (uint16 (2 + len (actions_bytes acts) + k)) ++ le16 ms
              ++ actions_bytes acts ++ pid :: le16 n ++ rest))
  = Panic.
Proof.
  intros Hms Ha Hn Hk Hkn Hr Hs Hd.
  pose proof (len_nonneg (actions_bytes acts)). pose proof (len_nonneg rest).
  rewrite TimeSlot_Deserialize_header by (try assumption; lens).
  into_loop. now rewrite read_actions_overrun_short.
Qed.

(** ** Records over a content codec *)

Section ContentLaws.
Context {C : w3gs.ContentCodecs}.

Lemma discard_Ok {A} (c : M A) (a : A) (b b' : list byte) :
  c b = (Ok a, b') -> w3g.discard c b = (Ok tt, b').
Proof. intros H. unfold w3g.discard. now rewrite H. Qed.

Lemma SlotInfo_roundtrip (rec rec0 : w3g.SlotInfo) (enc : w3g.Encoding)
  (rest : list byte) :
  content_roundtrip w3gs.SlotInfo_SerializeContent
    w3gs.SlotInfo_DeserializeContent 9 (w3g.Encoding_ enc) rec ->
  exists bytes,
    w3g.SlotInfo_Serialize rec enc [] = (Ok tt, bytes)
    /\ w3g.SlotInfo_Deserialize rec0 enc (bytes ++ rest) = (Ok rec, rest).
Proof.
  intros (c & Hl & Hs & Hd). exists (w3g.RidSlotInfo :: c). split.
  - unfold w3g.SlotInfo_Serialize. rewrite bind_WriteUInt8.
    now rewrite (discard_Ok _ _ _ _ (Hs _)).
  - unfold w3g.SlotInfo_Deserialize. shape.
    rewrite bind_Size. pass. rewrite bind_Skip_1. apply Hd.
Qed.

Lemma Desync_roundtrip (rec rec0 : w3g.Desync) (enc : w3g.Encoding)
  (rest : list byte) :
  content_roundtrip w3gs.Desync_SerializeContent
    w3gs.Desync_DeserializeContent 10 (w3g.Encoding_ enc) rec ->
  exists bytes,
    w3g.Desync_Serialize rec enc [] = (Ok tt, bytes)
    /\ w3g.Desync_Deserialize rec0 enc (bytes ++ rest) = (Ok rec, rest).
Proof.
  intros (c & Hl & Hs & Hd). exists (w3g.RidDesync :: c). split.
  - unfold w3g.Desync_Serialize. rewrite bind_WriteUInt8.
    now rewrite (discard_Ok _ _ _ _ (Hs _)).
  - unfold w3g.Desync_Deserialize. shape.
    rewrite bind_Size. pass. rewrite bind_Skip_1. apply Hd.
Qed.

Lemma PlayerExtra_roundtrip (rec rec0 : w3g.PlayerExtra)
  (enc : w3g.Encoding) (rest : list byte) :
  content_roundtrip w3gs.PlayerExtra_SerializeContent
    w3gs.PlayerExtra_DeserializeContent 5 (w3g.Encoding_ enc) rec ->
  exists bytes,
    w3g.PlayerExtra_Serialize rec enc [] = (Ok tt, bytes)
    /\ w3g.PlayerExtra_Deserialize rec0 enc (bytes ++ rest)
       = (Ok rec, rest).
Proof.
  intros (c & Hl & Hs & Hd). exists (w3g.RidPlayerExtra :: c). split.
  - unfold w3g.PlayerExtra_Serialize. rewrite bind_WriteUInt8. apply Hs.
  - unfold w3g.PlayerExtra_Deserialize. shape.
    rewrite bind_Size. pass. rewrite bind_Skip_1. apply Hd.
Qed.

Lemma GameInfo_roundtrip (rec rec0 : w3g.GameInfo) (enc : w3g.Encoding)
  (rest : list byte) :
  GameInfo_ok rec = true ->
  content_roundtrip w3gs.GameSettings_SerializeContent
    w3gs.GameSettings_DeserializeContent 1 (w3g.Encoding_ enc)
    (w3g.GameSettings rec) ->
  exists bytes,
    w3g.GameInfo_Serialize rec enc [] = (Ok tt, bytes)
    /\ w3g.GameInfo_Deserialize rec0 enc (bytes ++ rest) = (Ok rec, rest).
Proof.
  unfold GameInfo_ok. intros H (g & Hgl & Hgs & Hgd).
  apply andb_prop in H. destruct H as [H Hlang].
  apply andb_prop in H. destruct H as [H Hslots].
  apply andb_prop in H. destruct H as [H Hflags].
  apply andb_prop in H. destruct H as [Hhost Hname].
  apply no_zerob_spec in Hname.
  destruct (PlayerInfo_content _ enc Hhost) as (h & Hhl & Hhs & Hhd).
  destruct rec as [host name gs flags slots lang].
  cbn [w3g.HostPlayer w3g.GameName w3g.GameSettings w3g.GameFlags
         w3g.NumSlots w3g.LanguageID] in *.
  exists (w3g.RidGameInfo :: le32 1 ++ h ++ cstring name ++ x00 :: g
          ++ le32 slots ++ le32 flags ++ le32 lang).
  split.
  - unfold w3g.GameInfo_Serialize.
    cbn [w3g.HostPlayer w3g.GameName w3g.GameSettings w3g.GameFlags
           w3g.NumSlots w3g.LanguageID].
    rewrite bind_WriteUInt8, bind_WriteUInt32.
    rewrite (bind_Ok _ _ _ _ _ (Hhs _)).
    rewrite bind_WriteCString, bind_WriteUInt8.
    rewrite (bind_Ok _ _ _ _ _ (discard_Ok _ _ _ _ (Hgs _))).
    rewrite !bind_WriteUInt32, WriteUInt32_app. shape. reflexivity.
  - unfold w3g.GameInfo_Deserialize.
    cbn [w3g.HostPlayer w3g.GameSettings].
    pose proof (len_nonneg name). shape.
    rewrite bind_Size. pass.
    rewrite bind_Skip_1, bind_ReadUInt32 by reflexivity. decide_test.
    rewrite (bind_Ok _ _ _ _ _ (Hhd _ _)).
    rewrite bind_Size. pass.
    rewrite bind_ReadCString by assumption. cbn [fst snd].
    rewrite bind_Size. pass.
    rewrite bind_ReadUInt8. decide_test.
    rewrite (bind_Ok _ _ _ _ _ (Hgd _ _)).
    rewrite bind_Size. pass.
    now rewrite !bind_ReadUInt32 by assumption.
Qed.

End ContentLaws.

(** The opaque blocks are content codecs that round-trip. *)
Lemma opaque_contents_roundtrip (min : Z) (enc : w3gs.Encoding) :
  min <= 10 ->
  content_roundtrip (fun (_ : unit) (_ : w3gs.Encoding) =>
                       util.WriteBlob w3gs.opaque_block)
    (fun _ _ => util.Skip 10 ;; ret tt) min enc tt.
Proof.
  intros H. exists w3gs.opaque_block. repeat split.
  - exact H.
  - intros [] rest. change 10 with (len w3gs.opaque_block).
    now rewrite bind_Skip_app.
Qed.

(** The game record [game_g] over the opaque blocks goes through the round
    trip. *)
Lemma GameInfo_roundtrip_opaque :
  exists bytes,
    w3g.GameInfo_Serialize game_g (version 30) [] = (Ok tt, bytes)
    /\ w3g.GameInfo_Deserialize w3g.GameInfo_zero (version 30) bytes
       = (Ok game_g, []).
Proof.
  destruct (GameInfo_roundtrip (C := w3gs.opaque_contents) game_g
              w3g.GameInfo_zero (version 30) [] eq_refl
              (opaque_contents_roundtrip 1 _ ltac:(lia)))
    as (bytes & Hs & Hd).
  exists bytes. now rewrite app_nil_r in Hd.
Qed.

(** * Main results on the records *)

(** ** Round trip *)

(** X27.  A record of the replay stream with its fields in range
    ([roundtrip_ok]: integers within their wire width, strings free of zero
    bytes, lengths within their length fields, no fragment flag on a time
    slot in game versions 1 and 2, chat fields only where the chat type
    carries them, and for the records that wrap a structure of package w3gs
    a content codec that round-trips the wrapped value), serialized into an
    empty buffer under any encoding and deserialized under the same
    encoding into a record of the same type, comes back equal, with the
    bytes after it untouched. *)
Theorem Record_roundtrip {C : w3gs.ContentCodecs} {T : unicode.Tables}
  (enc : w3g.Encoding) (rec rec0 : w3g.AnyRecord) (rest : list byte) :
  roundtrip_ok enc rec ->
  same_type rec0 rec = true ->
  exists bytes,
    w3g.Serialize rec enc [] = (Ok tt, bytes)
    /\ w3g.Deserialize rec0 enc (bytes ++ rest) = (Ok rec, rest).
Proof.
  intros Hok Hty.
  assert (L : forall A (f : A -> w3g.AnyRecord) (c : M A) (r : A) bytes,
             c (bytes ++ rest) = (Ok r, rest) ->
             w3g.lift f c (bytes ++ rest) = (Ok (f r), rest)).
  { intros A f c r bytes H. unfold w3g.lift.
    now rewrite (bind_Ok _ _ _ _ _ H). }
  destruct rec as [r|r|r|r|r|r|r|r|r|r|r|r|r]; cbn [roundtrip_ok] in Hok;
    destruct rec0 as [r0|r0|r0|r0|r0|r0|r0|r0|r0|r0|r0|r0|r0];
    try discriminate Hty; clear Hty;
    cbn [w3g.Serialize w3g.Deserialize].
  - destruct Hok as [Hok Hc].
    destruct (GameInfo_roundtrip r r0 enc rest Hok Hc) as (bytes & Hs & Hd).
    exists bytes. auto.
  - destruct (PlayerInfo_roundtrip r r0 enc rest Hok) as (bytes & Hs & Hd).
    exists bytes. auto.
  - destruct (PlayerLeft_roundtrip r r0 enc rest Hok) as (bytes & Hs & Hd).
    exists bytes. auto.
  - destruct (SlotInfo_roundtrip r r0 enc rest Hok) as (bytes & Hs & Hd).
    exists bytes. auto.
  - destruct (CountDownStart_roundtrip r r0 enc rest) as (bytes & Hs & Hd).
    exists bytes. auto.
  - destruct (CountDownEnd_roundtrip r r0 enc rest) as (bytes & Hs & Hd).
    exists bytes. auto.
  - destruct (GameStart_roundtrip r r0 enc rest) as (bytes & Hs & Hd).
    exists bytes. auto.
  - destruct (TimeSlot_roundtrip r r0 enc rest Hok) as (bytes & Hs & Hd).
    exists bytes. auto.
  - destruct (ChatMessage_roundtrip r r0 enc rest Hok) as (bytes & Hs & Hd).
    exists bytes. auto.
  - destruct (TimeSlotAck_roundtrip r r0 enc rest Hok) as (bytes & Hs & Hd).
    exists bytes. auto.
  - destruct (Desync_roundtrip r r0 enc rest Hok) as (bytes & Hs & Hd).
    exists bytes. auto.
  - destruct (EndTimer_roundtrip r r0 enc rest Hok) as (bytes & Hs & Hd).
    exists bytes. auto.
  - destruct (PlayerExtra_roundtrip r r0 enc rest Hok) as (bytes & Hs & Hd).
    exists bytes. auto.
Qed.

Lemma Record_roundtrip_witness :
  exists bytes,
    w3g.Serialize (C := w3gs.opaque_contents)
      (w3g.RTimeSlot (slot_100 true)) (version 30) [] = (Ok tt, bytes)
    /\ w3g.Deserialize (C := w3gs.opaque_contents) (T := unicode.ascii)
         (w3g.RTimeSlot w3g.TimeSlot_zero) (version 30) (bytes ++ [])
       = (Ok (w3g.RTimeSlot (slot_100 true)), []).
Proof.
  apply (Record_roundtrip (C := w3gs.opaque_contents) (T := unicode.ascii)
           (version 30) (w3g.RTimeSlot (slot_100 true))
           (w3g.RTimeSlot w3g.TimeSlot_zero) []).
  - reflexivity.
  - reflexivity.
Defined.

(** The fragment flag is outside [roundtrip_ok] for a reason: under game
    version 2 a time slot with the flag set is written and read back
    without error, and comes back with the flag cleared. *)
Lemma TimeSlot_fragment_not_restored :
  exists bytes,
    w3g.TimeSlot_Serialize (slot_100 true) (version 2) [] = (Ok tt, bytes)
    /\ w3g.TimeSlot_Deserialize w3g.TimeSlot_zero (version 2) bytes
       = (Ok (slot_100 false), [])
    /\ w3g.TimeSlot_Deserialize w3g.TimeSlot_zero (version 2) bytes
       <> (Ok (slot_100 true), []).
Proof.
  eexists. split; [reflexivity|]. split; [reflexivity|]. discriminate.
Qed.

(** ** Short buffers *)

(** X28.  [Deserialize] of any record of the replay stream on an empty
    buffer returns [io.ErrShortBuffer]: the first size guard of each of the
    thirteen decoders comes before every read and before the call of a
    content codec, so that nothing panics and the buffer is left as it
    was. *)
Theorem Deserialize_empty {C : w3gs.ContentCodecs} {T : unicode.Tables}
  (rec : w3g.AnyRecord) (enc : w3g.Encoding) :
  w3g.Deserialize rec enc [] = (Err ErrShortBuffer, []).
Proof. destruct rec; reflexivity. Qed.

(** ** Version dispatch *)

(** C3.  The factory maps record ID 0x20 to the ChatMessage constructor when
    the game version is 0 or above 2, and to the TimeSlotAck constructor
    when it is 1 or 2; these are all the versions. *)
Theorem DefaultFactory_0x20 {C : w3gs.ContentCodecs} (enc : w3g.Encoding) :
  ((w3g.GameVersion enc = 0 \/ 2 < w3g.GameVersion enc)%N ->
   w3g.NewRecord w3g.DefaultFactory x20 enc
   = Some (w3g.RChatMessage w3g.ChatMessage_zero))
  /\ ((1 <= w3g.GameVersion enc <= 2)%N ->
      w3g.NewRecord w3g.DefaultFactory x20 enc
      = Some (w3g.RTimeSlotAck w3g.TimeSlotAck_zero))
  /\ ((w3g.GameVersion enc = 0 \/ 2 < w3g.GameVersion enc)%N
      \/ (1 <= w3g.GameVersion enc <= 2)%N).
Proof.
  assert (E : w3g.NewRecord w3g.DefaultFactory x20 enc
              = Some (if negb (early_version enc)
                      then w3g.RChatMessage w3g.ChatMessage_zero
                      else w3g.RTimeSlotAck w3g.TimeSlotAck_zero)).
  { rewrite <- modern_version_test. reflexivity. }
  rewrite E. clear E.
  pose proof (early_version_spec enc) as S.
  destruct (early_version enc); cbn [negb].
  - assert (1 <= w3g.GameVersion enc <= 2)%N by now apply S.
    repeat split; intros; try reflexivity; try tauto; lia.
  - assert (~ (1 <= w3g.GameVersion enc <= 2)%N)
      by (intros H; apply S in H; discriminate).
    repeat split; intros; try reflexivity; try tauto; lia.
Qed.

Lemma DefaultFactory_0x20_witness :
  w3g.NewRecord (C := w3gs.opaque_contents) w3g.DefaultFactory x20 (version 0)
  = Some (w3g.RChatMessage w3g.ChatMessage_zero)
  /\ w3g.NewRecord (C := w3gs.opaque_contents) w3g.DefaultFactory x20
       (version 30)
     = Some (w3g.RChatMessage w3g.ChatMessage_zero)
  /\ w3g.NewRecord (C := w3gs.opaque_contents) w3g.DefaultFactory x20
       (version 2)
     = Some (w3g.RTimeSlotAck w3g.TimeSlotAck_zero).
Proof.
  split; [|split].
  - apply (proj1 (DefaultFactory_0x20 (C := w3gs.opaque_contents) (version 0))).
    left. reflexivity.
  - apply (proj1 (DefaultFactory_0x20 (C := w3gs.opaque_contents)
                    (version 30))).
    right. reflexivity.
  - apply (proj1 (proj2 (DefaultFactory_0x20 (C := w3gs.opaque_contents)
                           (version 2)))).
    split; discriminate.
Defined.

(** C4, as amended.  [Serialize] of a time slot writes the tag 0x1F when the
    fragment flag is set or the game version is 1 or 2, and 0x1E otherwise.
    The factory maps both tags to a TimeSlot, and [Deserialize] of a
    well-formed body behind either tag sets the fragment flag exactly when
    the tag is 0x1F and the game version is neither 1 nor 2: in versions 1
    and 2 the flag is false for both tags. *)
Theorem TimeSlot_tag {C : w3gs.ContentCodecs} (rec body rec0 : w3g.TimeSlot)
  (enc : w3g.Encoding) (tag : byte) (rest : list byte) :
  is_u16 (w3gs.TimeIncrementMS body) = true ->
  forallb action_ok (w3gs.Actions body) = true ->
  2 + len (actions_bytes (w3gs.Actions body)) < 65536 ->
  tag = x1e \/ tag = x1f ->
  w3g.TimeSlot_Serialize rec enc []
  = (Ok tt,
     (if w3gs.Fragment rec || early_version enc then x1f else x1e)
     :: TimeSlot_body rec)
  /\ w3g.NewRecord w3g.DefaultFactory tag enc
     = Some (w3g.RTimeSlot w3g.TimeSlot_zero)
  /\ w3g.TimeSlot_Deserialize rec0 enc (tag :: TimeSlot_body body ++ rest)
     = (Ok {| w3gs.Fragment := Byte.eqb tag x1f && negb (early_version enc);
              w3gs.TimeIncrementMS := w3gs.TimeIncrementMS body;
              w3gs.Actions := w3gs.Actions body |},
        rest).
Proof.
  intros Hms Ha Hs Htag. split; [|split].
  - rewrite TimeSlot_Serialize_bytes, early_version_test. cbn [app].
    now destruct (w3gs.Fragment rec || early_version enc).
  - destruct Htag as [->| ->]; reflexivity.
  - rewrite TimeSlot_Deserialize_body by assumption.
    now rewrite modern_version_test.
Qed.

Lemma TimeSlot_tag_witness :
  (w3g.TimeSlot_Serialize (slot_100 false) (version 2) []
   = (Ok tt, x1f :: TimeSlot_body (slot_100 false))
   /\ w3g.NewRecord (C := w3gs.opaque_contents) w3g.DefaultFactory x1f
        (version 2)
      = Some (w3g.RTimeSlot w3g.TimeSlot_zero)
   /\ w3g.TimeSlot_Deserialize w3g.TimeSlot_zero (version 2)
        (x1f :: TimeSlot_body (slot_100 false) ++ [])
      = (Ok (slot_100 false), []))
  /\ (w3g.TimeSlot_Serialize (slot_100 false) (version 30) []
      = (Ok tt, x1e :: TimeSlot_body (slot_100 false))
      /\ w3g.NewRecord (C := w3gs.opaque_contents) w3g.DefaultFactory x1f
           (version 30)
         = Some (w3g.RTimeSlot w3g.TimeSlot_zero)
      /\ w3g.TimeSlot_Deserialize w3g.TimeSlot_zero (version 30)
           (x1f :: TimeSlot_body (slot_100 false) ++ [])
         = (Ok (slot_100 true), [])).
Proof.
  split.
  - apply (TimeSlot_tag (C := w3gs.opaque_contents) (slot_100 false)
             (slot_100 false) w3g.TimeSlot_zero (version 2) x1f []).
    + reflexivity.
    + reflexivity.
    + reflexivity.
    + right. reflexivity.
  - apply (TimeSlot_tag (C := w3gs.opaque_contents) (slot_100 false)
             (slot_100 false) w3g.TimeSlot_zero (version 30) x1f []).
    + reflexivity.
    + reflexivity.
    + reflexivity.
    + right. reflexivity.
Defined.

(** C4, the counterexample.  Under game version 2 the same body behind tag
    0x1F and behind tag 0x1E deserializes to the same time slot, fragment
    flag false: the tag is not recorded. *)
Lemma TimeSlot_early_tags_coincide :
  w3g.TimeSlot_Deserialize w3g.TimeSlot_zero (version 2)
    (x1f :: TimeSlot_body (slot_100 false))
  = (Ok (slot_100 false), [])
  /\ w3g.TimeSlot_Deserialize w3g.TimeSlot_zero (version 2)
       (x1e :: TimeSlot_body (slot_100 false))
     = (Ok (slot_100 false), []).
Proof. split; reflexivity. Qed.

(** ** The chat scenario *)

(** C5, as amended.  The chat message of sender 2, type chat_extra, scope
    all, content "hi" serializes to tag 20, sender 02, length 08 00 (the
    eight bytes that follow), type 20, scope 00 00 00 00, text 68 69 00. *)
Theorem ChatMessage_hi_bytes (enc : w3g.Encoding) :
  w3g.ChatMessage_Serialize chat_hi enc []
  = (Ok tt, [x20; x02; x08; x00; x20; x00; x00; x00; x00; x68; x69; x00]).
Proof. reflexivity. Qed.

(** C5, the counterexample: the length word is not 0x0009. *)
Lemma ChatMessage_hi_length_not_9 :
  w3g.ChatMessage_Serialize chat_hi (version 0) []
  <> (Ok tt, [x20; x02; x09; x00; x20; x00; x00; x00; x00; x68; x69; x00]).
Proof. discriminate. Qed.

(** ** Declared lengths *)

(** C6, at the failing input.  The record declares 5 bytes: the time
    increment and one action header, whose data length 3 exceeds the 0 bytes
    left of the declared length.  The test of the loop compares the data
    length with the length left before the header is taken off, lets the
    action through, and [ReadBlob] slices the empty buffer out of range. *)
Theorem TimeSlot_Deserialize_overrun_panics (rec0 : w3g.TimeSlot)
  (enc : w3g.Encoding) :
  fst (w3g.TimeSlot_Deserialize rec0 enc slot_overrun) = Panic.
Proof.
  apply (TimeSlot_Deserialize_overrun_short rec0 enc x1e x01 100 3 [] 3 []);
    try reflexivity; cbn; lia.
Qed.

(** ** Extra strings of a chat message *)

(** C7.  In a chat record of type chat or chat_extra, the strings that
    follow the content within the declared length are appended to the
    content when all their runes are printable; when one of them holds a
    rune that is not printable, [Deserialize] returns the bad-format
    error. *)
Theorem ChatMessage_extra_strings {T : unicode.Tables}
  (rec0 : w3g.ChatMessage) (enc : w3g.Encoding) (sender : byte)
  (extra : bool) (scope : N) (content : list byte)
  (more : list (list byte)) (rest : list byte) :
  no_zero content ->
  forallb no_zerob more = true ->
  is_u32 scope = true ->
  (if extra then 5 else 1)
  + len (cstring content ++ flat_map cstring more) < 65536 ->
  (forallb (fun s => negb (strings.has_nonprint s)) more = true ->
   w3g.ChatMessage_Deserialize rec0 enc
     (chat_text_bytes sender extra scope content more ++ rest)
   = (Ok {| w3gs.RecipientIDs := []; w3gs.SenderID := sender;
            w3gs.Type_ := if extra then w3gs.MsgChatExtra else w3gs.MsgChat;
            w3gs.Scope := if extra then scope else w3gs.ScopeAll;
            w3gs.NewVal := x00; w3gs.Content := content ++ concat more |},
      rest))
  /\ (existsb strings.has_nonprint more = true ->
      fst (w3g.ChatMessage_Deserialize rec0 enc
             (chat_text_bytes sender extra scope content more ++ rest))
      = Err ErrBadFormat).
Proof.
  intros Hc Hz Hscope Hsize.
  rewrite ChatMessage_Deserialize_text by assumption.
  split; intros Hp.
  - now rewrite (bind_Ok _ _ _ _ _
                   (read_content_printable content more rest Hc Hz Hp)).
  - pose proof (read_content_nonprint content more rest Hc Hz Hp) as H.
    unfold bind.
    destruct (w3g.read_content
                (1 + len (cstring content ++ flat_map cstring more))
                (cstring content ++ flat_map cstring more ++ rest))
      as [[q|e|] b']; cbn [fst] in H; try discriminate.
    now injection H as ->.
Qed.

Lemma ChatMessage_extra_strings_witness :
  w3g.ChatMessage_Deserialize (T := unicode.ascii) w3g.ChatMessage_zero
    (version 0)
    (chat_text_bytes x02 true 0 [x68; x69] [[x79; x6f]] ++ [])
  = (Ok {| w3gs.RecipientIDs := []; w3gs.SenderID := x02;
           w3gs.Type_ := w3gs.MsgChatExtra; w3gs.Scope := 0;
           w3gs.NewVal := x00; w3gs.Content := [x68; x69; x79; x6f] |}, [])
  /\ fst (w3g.ChatMessage_Deserialize (T := unicode.ascii)
            w3g.ChatMessage_zero (version 0)
            (chat_text_bytes x02 true 0 [x68; x69] [[x79; x07]] ++ []))
     = Err ErrBadFormat.
Proof.
  split.
  - apply (proj1 (ChatMessage_extra_strings (T := unicode.ascii)
                    w3g.ChatMessage_zero (version 0) x02 true 0 [x68; x69]
                    [[x79; x6f]] []
                    (proj1 (no_zerob_spec [x68; x69]) eq_refl)
                    eq_refl eq_refl eq_refl)).
    reflexivity.
  - apply (proj2 (ChatMessage_extra_strings (T := unicode.ascii)
                    w3g.ChatMessage_zero (version 0) x02 true 0 [x68; x69]
                    [[x79; x07]] []
                    (proj1 (no_zerob_spec [x68; x69]) eq_refl)
                    eq_refl eq_refl eq_refl)).
    reflexivity.
Defined.

(** * Further properties of the buffer *)

(** ** Bytes of a word *)

Lemma testbit_of_byte_high (x : byte) (n : N) :
  (8 <= n)%N -> N.testbit (of_byte x) n = false.
Proof.
  intros H. apply (testbit_above _ 8); [|exact H].
  pose proof (of_byte_bound x). change (2 ^ 8)%N with 256%N. lia.
Qed.

Lemma testbit_shl_byte (x : byte) (k n : N) :
  N.testbit (N.shiftl (of_byte x) k) n
  = ((k <=? n) && (n <? k + 8))%N && N.testbit (of_byte x) (n - k).
Proof.
  destruct (N.leb_spec k n) as [Hk|Hk].
  - rewrite N.shiftl_spec_high' by assumption.
    destruct (N.ltb_spec n (k + 8)); [reflexivity|].
    cbn [andb]. apply testbit_of_byte_high. lia.
  - cbn [andb]. now apply N.shiftl_spec_low.
Qed.

Lemma testbit_of_byte_0 (x : byte) (n : N) :
  N.testbit (of_byte x) n = (n <? 8)%N && N.testbit (of_byte x) n.
Proof.
  destruct (N.ltb_spec n 8); [reflexivity|].
  cbn [andb]. now apply testbit_of_byte_high.
Qed.

(** The word read from two bytes: its value and its bytes. *)
Lemma word16_bytes (x0 x1 : byte) :
  let v := N.lor (N.shiftl (of_byte x1) 8) (of_byte x0) in
  is_u16 v = true /\ le16 v = [x0; x1].
Proof.
  intros v.
  assert (B : forall n, N.testbit v n
                        = ((8 <=? n) && (n <? 8 + 8))%N
                          && N.testbit (of_byte x1) (n - 8)
                          || (n <? 8)%N && N.testbit (of_byte x0) n).
  { intros n. unfold v.
    now rewrite N.lor_spec, testbit_shl_byte, <- testbit_of_byte_0. }
  split.
  - unfold is_u16. apply N.ltb_lt.
    destruct (N.lt_ge_cases v 65536) as [H|H]; [exact H|exfalso].
    assert (16 <= N.log2 v)%N.
    { apply N.log2_le_pow2; [lia|]. change (2 ^ 16)%N with 65536%N. lia. }
    pose proof (N.bit_log2 v ltac:(lia)) as Hb.
    rewrite B in Hb.
    destruct (N.leb_spec 8 (N.log2 v)), (N.ltb_spec (N.log2 v) (8 + 8)),
      (N.ltb_spec (N.log2 v) 8); cbn in Hb; try discriminate; lia.
  - unfold le16. f_equal; [|f_equal].
    + apply of_byte_inj. rewrite of_to_byte. apply N.bits_inj. intros n.
      rewrite testbit_mod256, B, (testbit_of_byte_0 x0 n).
      destruct (N.leb_spec 8 n), (N.ltb_spec n (8 + 8)), (N.ltb_spec n 8);
        cbn; try reflexivity; lia.
    + apply of_byte_inj. rewrite of_to_byte. apply N.bits_inj. intros n.
      rewrite testbit_mod256, N.shiftr_spec', B,
        (testbit_of_byte_0 x1 n).
      replace (n + 8 - 8)%N with n by lia.
      destruct (N.leb_spec 8 (n + 8)), (N.ltb_spec (n + 8) (8 + 8)),
        (N.ltb_spec (n + 8) 8), (N.ltb_spec n 8);
        cbn; rewrite ?orb_false_r; try reflexivity; lia.
Qed.

Lemma word32_bytes (x0 x1 x2 x3 : byte) :
  let v := N.lor (N.lor (N.lor (N.shiftl (of_byte x3) 24)
                               (N.shiftl (of_byte x2) 16))
                        (N.shiftl (of_byte x1) 8))
                 (of_byte x0) in
  is_u32 v = true /\ le32 v = [x0; x1; x2; x3].
Proof.
  intros v.
  assert (B : forall n, N.testbit v n
                        = ((24 <=? n) && (n <? 24 + 8))%N
                          && N.testbit (of_byte x3) (n - 24)
                          || ((16 <=? n) && (n <? 16 + 8))%N
                             && N.testbit (of_byte x2) (n - 16)
                          || ((8 <=? n) && (n <? 8 + 8))%N
                             && N.testbit (of_byte x1) (n - 8)
                          || (n <? 8)%N && N.testbit (of_byte x0) n).
  { intros n. unfold v.
    now rewrite !N.lor_spec, !testbit_shl_byte, <- testbit_of_byte_0. }
  split.
  - unfold is_u32. apply N.ltb_lt.
    destruct (N.lt_ge_cases v 4294967296) as [H|H]; [exact H|exfalso].
    assert (32 <= N.log2 v)%N.
    { apply N.log2_le_pow2; [lia|].
      change (2 ^ 32)%N with 4294967296%N. lia. }
    pose proof (N.bit_log2 v ltac:(lia)) as Hb.
    rewrite B in Hb.
    destruct (N.leb_spec 24 (N.log2 v)), (N.ltb_spec (N.log2 v) (24 + 8)),
      (N.leb_spec 16 (N.log2 v)), (N.ltb_spec (N.log2 v) (16 + 8)),
      (N.leb_spec 8 (N.log2 v)), (N.ltb_spec (N.log2 v) (8 + 8)),
      (N.ltb_spec (N.log2 v) 8); cbn in Hb; try discriminate; lia.
  - unfold le32. f_equal; [|f_equal; [|f_equal; [|f_equal]]].
    + apply of_byte_inj. rewrite of_to_byte. apply N.bits_inj. intros n.
      rewrite testbit_mod256, B, (testbit_of_byte_0 x0 n).
      destruct (N.leb_spec 24 n), (N.ltb_spec n (24 + 8)),
        (N.leb_spec 16 n), (N.ltb_spec n (16 + 8)),
        (N.leb_spec 8 n), (N.ltb_spec n (8 + 8)), (N.ltb_spec n 8);
        cbn; try reflexivity; lia.
    + apply of_byte_inj. rewrite of_to_byte. apply N.bits_inj. intros n.
      rewrite testbit_mod256, N.shiftr_spec', B, (testbit_of_byte_0 x1 n).
      replace (n + 8 - 8)%N with n by lia.
      destruct (N.leb_spec 24 (n + 8)), (N.ltb_spec (n + 8) (24 + 8)),
        (N.leb_spec 16 (n + 8)), (N.ltb_spec (n + 8) (16 + 8)),
        (N.leb_spec 8 (n + 8)), (N.ltb_spec (n + 8) (8 + 8)),
        (N.ltb_spec (n + 8) 8), (N.ltb_spec n 8);
        cbn; rewrite ?orb_false_r; try reflexivity; lia.
    + apply of_byte_inj. rewrite of_to_byte. apply N.bits_inj. intros n.
      rewrite testbit_mod256, N.shiftr_spec', B, (testbit_of_byte_0 x2 n).
      replace (n + 16 - 16)%N with n by lia.
      destruct (N.leb_spec 24 (n + 16)), (N.ltb_spec (n + 16) (24 + 8)),
        (N.leb_spec 16 (n + 16)), (N.ltb_spec (n + 16) (16 + 8)),
        (N.leb_spec 8 (n + 16)), (N.ltb_spec (n + 16) (8 + 8)),
        (N.ltb_spec (n + 16) 8), (N.ltb_spec n 8);
        cbn; rewrite ?orb_false_r; try reflexivity; lia.
    + apply of_byte_inj. rewrite of_to_byte. apply N.bits_inj. intros n.
      rewrite testbit_mod256, N.shiftr_spec', B, (testbit_of_byte_0 x3 n).
      replace (n + 24 - 24)%N with n by lia.
      destruct (N.leb_spec 24 (n + 24)), (N.ltb_spec (n + 24) (24 + 8)),
        (N.leb_spec 16 (n + 24)), (N.ltb_spec (n + 24) (16 + 8)),
        (N.leb_spec 8 (n + 24)), (N.ltb_spec (n + 24) (8 + 8)),
        (N.ltb_spec (n + 24) 8), (N.ltb_spec n 8);
        cbn; rewrite ?orb_false_r; try reflexivity; lia.
Qed.

(** ** Integers *)

(** X1.  A byte, a 16-bit and a 32-bit value written into an empty buffer
    are read back unchanged, and the read stops where the written bytes
    end. *)
Theorem integers_roundtrip (x : byte) (v16 v32 : N) (rest : list byte) :
  is_u16 v16 = true ->
  is_u32 v32 = true ->
  util.ReadUInt8 (snd (util.WriteUInt8 x []) ++ rest) = (Ok x, rest)
  /\ util.ReadUInt16 (snd (util.WriteUInt16 v16 []) ++ rest)
     = (Ok v16, rest)
  /\ util.ReadUInt32 (snd (util.WriteUInt32 v32 []) ++ rest)
     = (Ok v32, rest).
Proof.
  intros H16 H32. split; [reflexivity|]. split.
  - now apply ReadUInt16_le16.
  - now apply ReadUInt32_le32.
Qed.

Lemma integers_roundtrip_witness :
  util.ReadUInt8 (snd (util.WriteUInt8 x7b []) ++ [xff]) = (Ok x7b, [xff])
  /\ util.ReadUInt16 (snd (util.WriteUInt16 6112 []) ++ [xff])
     = (Ok 6112%N, [xff])
  /\ util.ReadUInt32 (snd (util.WriteUInt32 3735928559 []) ++ [xff])
     = (Ok 3735928559%N, [xff]).
Proof.
  apply (integers_roundtrip x7b 6112 3735928559 [xff]); reflexivity.
Defined.

Lemma lor_comm_le16 (v : N) :
  is_u16 v = true ->
  N.lor (of_byte (to_byte v)) (N.shiftl (of_byte (to_byte (N.shiftr v 8))) 8)
  = v.
Proof. intros H. rewrite N.lor_comm. now apply le16_value. Qed.

(** X2.  A port is written big-endian, the bytes of the little-endian
    16-bit write in reverse order, and [ReadPort] reads it back. *)
Theorem port_roundtrip (v : N) (rest : list byte) :
  is_u16 v = true ->
  snd (util.WritePort v []) = rev (snd (util.WriteUInt16 v []))
  /\ util.ReadPort (snd (util.WritePort v []) ++ rest) = (Ok v, rest).
Proof.
  intros H. split; [reflexivity|].
  unfold util.WritePort, util.ReadPort. cbn [snd app].
  now rewrite lor_comm_le16.
Qed.

Lemma port_roundtrip_witness :
  snd (util.WritePort 6112 []) = rev (snd (util.WriteUInt16 6112 []))
  /\ util.ReadPort (snd (util.WritePort 6112 []) ++ [xff])
     = (Ok 6112%N, [xff]).
Proof. apply (port_roundtrip 6112 [xff]). reflexivity. Defined.

Lemma of_byte_pos (x : byte) : (0 <? of_byte x)%N = negb (Byte.eqb x x00).
Proof. destruct x; reflexivity. Qed.

(** X3.  [ReadBool] takes every byte other than zero for true, and reads
    back what [WriteBool] wrote. *)
Theorem bool_decoding (x : byte) (v : bool) (rest : list byte) :
  util.ReadBool (x :: rest) = (Ok (negb (Byte.eqb x x00)), rest)
  /\ util.ReadBool (snd (util.WriteBool v []) ++ rest) = (Ok v, rest).
Proof.
  split.
  - unfold util.ReadBool. now rewrite of_byte_pos.
  - now destruct v.
Qed.

(** X4.  Any two (four) bytes read as a 16-bit (32-bit) value in range
    whose little-endian bytes are the bytes read: the integer reads lose
    nothing. *)
Theorem integers_decoding (x0 x1 x2 x3 : byte) (rest : list byte) :
  (exists v, util.ReadUInt16 (x0 :: x1 :: rest) = (Ok v, rest)
             /\ is_u16 v = true /\ le16 v = [x0; x1])
  /\ (exists v, util.ReadUInt32 (x0 :: x1 :: x2 :: x3 :: rest) = (Ok v, rest)
                /\ is_u32 v = true /\ le32 v = [x0; x1; x2; x3]).
Proof.
  split.
  - eexists. split; [reflexivity|]. apply word16_bytes.
  - eexists. split; [reflexivity|]. apply word32_bytes.
Qed.

(** ** Short buffers and ranges *)

(** X5.  The fixed-width reads panic exactly on a buffer shorter than their
    width. *)
Theorem reads_panic_iff_short (b : list byte) :
  (fst (util.ReadUInt8 b) = Panic <-> len b < 1)
  /\ (fst (util.ReadBool b) = Panic <-> len b < 1)
  /\ (fst (util.ReadUInt16 b) = Panic <-> len b < 2)
  /\ (fst (util.ReadPort b) = Panic <-> len b < 2)
  /\ (fst (util.ReadUInt32 b) = Panic <-> len b < 4).
Proof.
  repeat split;
    try (destruct b as [|x0 [|x1 [|x2 [|x3 b]]]]; cbn [fst]; intros;
         first [ reflexivity | discriminate
               | unfold len; cbn [length]; lia
               | exfalso; revert H; repeat rewrite len_cons;
                 pose proof (len_nonneg b); lia ]).
Qed.

Lemma firstn_skipn_len {A} (n : Z) (l : list A) :
  0 <= n <= len l ->
  len (firstn (Z.to_nat n) l) = n
  /\ len (skipn (Z.to_nat n) l) = len l - n.
Proof.
  unfold len. intros H. rewrite length_firstn, length_skipn. lia.
Qed.

(** X6.  Within the buffer, [ReadBlob] splits it at [n] and leaves what
    [Skip] leaves; for a negative [n] it returns nothing and consumes
    nothing, where [Skip] panics; past the end both panic. *)
Theorem ReadBlob_Skip (n : Z) (b : list byte) :
  (0 <= n <= len b ->
   exists d b',
     util.ReadBlob n b = (Ok d, b') /\ util.Skip n b = (Ok tt, b')
     /\ b = d ++ b' /\ len d = n)
  /\ (n < 0 ->
      util.ReadBlob n b = (Ok [], b) /\ util.Skip n b = (Panic, b))
  /\ (len b < n ->
      util.ReadBlob n b = (Panic, b) /\ util.Skip n b = (Panic, b)).
Proof.
  pose proof (len_nonneg b) as Hb.
  unfold util.ReadBlob, util.Skip. repeat split.
  - intros H.
    exists (firstn (Z.to_nat n) b), (skipn (Z.to_nat n) b).
    destruct (Z.leb_spec 0 n); [|lia].
    destruct (Z.leb_spec n (len b)); [|lia]. cbn [andb].
    destruct (firstn_skipn_len n b H) as [Hf Hs].
    destruct (Z.ltb_spec 0 n).
    + repeat split; [symmetry; apply firstn_skipn | exact Hf].
    + assert (n = 0) by lia. subst n. cbn [Z.to_nat firstn skipn].
      repeat split.
  - now rewrite ltb_false by lia.
  - destruct (Z.leb_spec 0 n); [lia | reflexivity].
  - rewrite ltb_true by lia.
    destruct (Z.leb_spec n (len b)); [lia | reflexivity].
  - destruct (Z.leb_spec n (len b)); [lia|]. now rewrite andb_false_r.
Qed.

Lemma ReadBlob_Skip_witness :
  (exists d b',
     util.ReadBlob 2 [x01; x02; x03] = (Ok d, b')
     /\ util.Skip 2 [x01; x02; x03] = (Ok tt, b')
     /\ [x01; x02; x03] = d ++ b' /\ len d = 2)
  /\ (util.ReadBlob (-1) [x01] = (Ok [], [x01])
      /\ util.Skip (-1) [x01] = (Panic, [x01]))
  /\ (util.ReadBlob 2 [x01] = (Panic, [x01])
      /\ util.Skip 2 [x01] = (Panic, [x01])).
Proof.
  split; [|split].
  - apply (proj1 (ReadBlob_Skip 2 [x01; x02; x03])). cbv. split; discriminate.
  - apply (proj1 (proj2 (ReadBlob_Skip (-1) [x01]))). reflexivity.
  - apply (proj2 (proj2 (ReadBlob_Skip 2 [x01]))). reflexivity.
Defined.

(** ** Writing in place *)

Lemma WriteUInt32At_app (pre tl : list byte) (x0 x1 x2 x3 : byte) (v : N) :
  util.WriteUInt32At (len pre) v (pre ++ x0 :: x1 :: x2 :: x3 :: tl)
  = (Ok tt, pre ++ le32 v ++ tl).
Proof.
  unfold util.WriteUInt32At.
  replace (len pre + 3) with (len (pre ++ [x0; x1; x2])) by lens.
  replace (pre ++ x0 :: x1 :: x2 :: x3 :: tl)
    with ((pre ++ [x0; x1; x2]) ++ x3 :: tl) by (now rewrite <- app_assoc).
  rewrite (bind_Ok _ _ _ _ _ (WriteUInt8At_app _ _ _ _)).
  rewrite <- app_assoc. cbn [app].
  replace (len pre + 2) with (len (pre ++ [x0; x1])) by lens.
  replace (pre ++ x0 :: x1 :: x2 :: to_byte (N.shiftr v 24) :: tl)
    with ((pre ++ [x0; x1]) ++ x2 :: to_byte (N.shiftr v 24) :: tl)
    by (now rewrite <- app_assoc).
  rewrite (bind_Ok _ _ _ _ _ (WriteUInt8At_app _ _ _ _)).
  rewrite <- app_assoc. cbn [app].
  replace (len pre + 1) with (len (pre ++ [x0])) by lens.
  replace (pre ++ x0 :: x1 :: to_byte (N.shiftr v 16)
               :: to_byte (N.shiftr v 24) :: tl)
    with ((pre ++ [x0]) ++ x1 :: to_byte (N.shiftr v 16)
                        :: to_byte (N.shiftr v 24) :: tl)
    by (now rewrite <- app_assoc).
  rewrite (bind_Ok _ _ _ _ _ (WriteUInt8At_app _ _ _ _)).
  rewrite <- app_assoc. cbn [app].
  now rewrite WriteUInt8At_app.
Qed.

Lemma WritePortAt_app (pre tl : list byte) (x y : byte) (v : N) :
  util.WritePortAt (len pre) v (pre ++ x :: y :: tl)
  = (Ok tt, pre ++ rev (le16 v) ++ tl).
Proof.
  unfold util.WritePortAt.
  replace (len pre + 1) with (len (pre ++ [x])) by lens.
  replace (pre ++ x :: y :: tl) with ((pre ++ [x]) ++ y :: tl)
    by (now rewrite <- app_assoc).
  rewrite (bind_Ok _ _ _ _ _ (WriteUInt8At_app _ _ _ _)).
  rewrite <- app_assoc. cbn [app].
  now rewrite WriteUInt8At_app.
Qed.

(** X7.  The writes at a position replace the bytes there and nothing
    else: two bytes by the little-endian bytes of a 16-bit value, or by the
    big-endian bytes of a port, four bytes by those of a 32-bit value. *)
Theorem writes_in_place (pre tl : list byte) (x0 x1 x2 x3 : byte) (v : N) :
  util.WriteUInt16At (len pre) v (pre ++ x0 :: x1 :: tl)
  = (Ok tt, pre ++ le16 v ++ tl)
  /\ util.WritePortAt (len pre) v (pre ++ x0 :: x1 :: tl)
     = (Ok tt, pre ++ rev (le16 v) ++ tl)
  /\ util.WriteUInt32At (len pre) v (pre ++ x0 :: x1 :: x2 :: x3 :: tl)
     = (Ok tt, pre ++ le32 v ++ tl).
Proof.
  split; [apply WriteUInt16At_app|].
  split; [apply WritePortAt_app | apply WriteUInt32At_app].
Qed.

(** X8.  Back-patching: a placeholder written with [WriteUInt16]
    ([WriteUInt32]), followed by any data and then overwritten at its
    position, leaves the buffer a direct write of the value would have
    left. *)
Theorem backpatch_is_direct_write (b data : list byte) (v16 v32 : N) :
  (util.WriteUInt16 0 ;; util.WriteBlob data ;;
   util.WriteUInt16At (len b) v16) b
  = (util.WriteUInt16 v16 ;; util.WriteBlob data) b
  /\ (util.WriteUInt32 0 ;; util.WriteBlob data ;;
      util.WriteUInt32At (len b) v32) b
     = (util.WriteUInt32 v32 ;; util.WriteBlob data) b.
Proof.
  split.
  - rewrite !bind_WriteUInt16, bind_WriteBlob.
    unfold util.WriteBlob. unfold le16 at 1. shape. cbn [app].
    now rewrite WriteUInt16At_app.
  - rewrite !bind_WriteUInt32, bind_WriteBlob.
    unfold util.WriteBlob. unfold le32 at 1. shape. cbn [app].
    now rewrite WriteUInt32At_app.
Qed.

Lemma split_at (p : Z) (b : list byte) :
  0 <= p <= len b ->
  exists pre tl, b = pre ++ tl /\ len pre = p /\ len tl = len b - p.
Proof.
  intros H. exists (firstn (Z.to_nat p) b), (skipn (Z.to_nat p) b).
  destruct (firstn_skipn_len p b H). split; [|now split].
  symmetry. apply firstn_skipn.
Qed.

Lemma WriteUInt8At_range (p : Z) (x : byte) (b : list byte) :
  (fst (util.WriteUInt8At p x b) = Panic <-> p < 0 \/ len b < p + 1)
  /\ len (snd (util.WriteUInt8At p x b)) = len b.
Proof.
  pose proof (len_nonneg b) as Hb.
  destruct (Z.lt_ge_cases p 0) as [Hn|Hp].
  - unfold util.WriteUInt8At. destruct (Z.leb_spec 0 p); [lia|].
    cbn. split; [tauto | reflexivity].
  - destruct (Z.lt_ge_cases p (len b)) as [Hl|Hl].
    + destruct (split_at p b ltac:(lia)) as (pre & tl & -> & Hpre & Htl).
      destruct tl as [|y tl]; [rewrite len_nil in Htl; lia|].
      subst p. rewrite WriteUInt8At_app. cbn [fst snd]. split.
      * split; [discriminate | lia].
      * rewrite !len_app, !len_cons. reflexivity.
    + unfold util.WriteUInt8At. rewrite (ltb_false p) by lia.
      rewrite andb_false_r. cbn. split; [|reflexivity].
      split; [lia | reflexivity].
Qed.

(** A write of one byte followed by a run [k] that keeps the size and
    cannot fail: where the whole panics. *)
Lemma WriteUInt8At_facts (p : Z) (x : byte) (b : list byte) :
  (fst (util.WriteUInt8At p x b) = Panic <-> p < 0 \/ len b < p + 1)
  /\ len (snd (util.WriteUInt8At p x b)) = len b
  /\ (forall e, fst (util.WriteUInt8At p x b) <> Err e).
Proof.
  destruct (WriteUInt8At_range p x b) as [Hp Hl].
  split; [exact Hp|]. split; [exact Hl|].
  intros e. unfold util.WriteUInt8At.
  destruct ((0 <=? p) && (p <? len b)); discriminate.
Qed.

Lemma WriteUInt8At_first (p : Z) (x : byte) (k : M unit) (b : list byte)
  (P : Z -> Prop) :
  (forall b', (fst (k b') = Panic <-> P (len b'))
              /\ len (snd (k b')) = len b'
              /\ (forall e, fst (k b') <> Err e)) ->
  (fst ((util.WriteUInt8At p x ;; k) b) = Panic
   <-> (p < 0 \/ len b < p + 1) \/ P (len b))
  /\ len (snd ((util.WriteUInt8At p x ;; k) b)) = len b
  /\ (forall e, fst ((util.WriteUInt8At p x ;; k) b) <> Err e).
Proof.
  intros Hk.
  destruct (WriteUInt8At_facts p x b) as (Hp & Hl & He).
  unfold bind.
  destruct (util.WriteUInt8At p x b) as [[[]|e|] b1]; cbn [fst snd] in *.
  - destruct (Hk b1) as (Kp & Kl & Ke). rewrite Hl in Kp, Kl.
    split; [|split; assumption].
    split.
    + intros E. right. now apply Kp.
    + intros [E | E]; [|now apply Kp].
      apply Hp in E. discriminate E.
  - now destruct (He e).
  - split; [|split; [assumption | discriminate]].
    split; [intros _; left; now apply Hp | reflexivity].
Qed.

(** X9.  A write at a position panics exactly when the bytes it addresses
    are not all inside the buffer, and never changes the size of the
    buffer. *)
Theorem writes_at_range (p : Z) (x : byte) (v : N) (b : list byte) :
  ((fst (util.WriteUInt8At p x b) = Panic <-> p < 0 \/ len b < p + 1)
   /\ len (snd (util.WriteUInt8At p x b)) = len b)
  /\ ((fst (util.WriteUInt16At p v b) = Panic <-> p < 0 \/ len b < p + 2)
      /\ len (snd (util.WriteUInt16At p v b)) = len b)
  /\ ((fst (util.WritePortAt p v b) = Panic <-> p < 0 \/ len b < p + 2)
      /\ len (snd (util.WritePortAt p v b)) = len b)
  /\ ((fst (util.WriteUInt32At p v b) = Panic <-> p < 0 \/ len b < p + 4)
      /\ len (snd (util.WriteUInt32At p v b)) = len b).
Proof.
  split; [apply WriteUInt8At_range|].
  pose proof (fun y b' => WriteUInt8At_facts p y b') as F0.
  assert (F1 : forall y z b',
             (fst ((util.WriteUInt8At (p + 1) y ;; util.WriteUInt8At p z) b')
              = Panic <-> p < 0 \/ len b' < p + 2)
             /\ len (snd ((util.WriteUInt8At (p + 1) y ;;
                           util.WriteUInt8At p z) b')) = len b'
             /\ (forall e, fst ((util.WriteUInt8At (p + 1) y ;;
                                 util.WriteUInt8At p z) b') <> Err e)).
  { intros y z b'.
    destruct (WriteUInt8At_first (p + 1) y (util.WriteUInt8At p z) b'
                (fun n => p < 0 \/ n < p + 1) (F0 z)) as ([H1 H2] & Hl & He).
    split; [|split; assumption].
    split; [intros E; apply H1 in E; lia | intros E; apply H2; lia]. }
  split; [|split].
  - destruct (F1 (to_byte (N.shiftr v 8)) (to_byte v) b) as (Hp & Hl & _).
    split; assumption.
  - destruct (F1 (to_byte v) (to_byte (N.shiftr v 8)) b) as (Hp & Hl & _).
    split; assumption.
  - unfold util.WriteUInt32At.
    destruct (WriteUInt8At_first (p + 3) (to_byte (N.shiftr v 24))
                (util.WriteUInt8At (p + 2) (to_byte (N.shiftr v 16)) ;;
                 util.WriteUInt8At (p + 1) (to_byte (N.shiftr v 8)) ;;
                 util.WriteUInt8At p (to_byte v)) b
                (fun n => p < 0 \/ n < p + 3))
      as ([H1 H2] & Hl & _).
    { intros b'.
      destruct (WriteUInt8At_first (p + 2) (to_byte (N.shiftr v 16))
                  (util.WriteUInt8At (p + 1) (to_byte (N.shiftr v 8)) ;;
                   util.WriteUInt8At p (to_byte v)) b'
                  (fun n => p < 0 \/ n < p + 2) (F1 _ _))
        as ([K1 K2] & Kl & Ke).
      split; [|split; assumption].
      split; [intros E; apply K1 in E; lia | intros E; apply K2; lia]. }
    split; [|exact Hl].
    split; [intros E; apply H1 in E; lia | intros E; apply H2; lia].
Qed.

Lemma WriteBlobAt_app (pre old tl v extra : list byte) :
  len old = len v ->
  tl = [] \/ extra = [] ->
  util.WriteBlobAt (len pre) (v ++ extra) (pre ++ old ++ tl)
  = (Ok tt, pre ++ v ++ tl).
Proof.
  intros Hlen Hcase. unfold util.WriteBlobAt.
  pose proof (len_nonneg pre). pose proof (len_nonneg old).
  pose proof (len_nonneg tl). pose proof (len_nonneg extra).
  destruct (Z.leb_spec 0 (len pre)); [|lia].
  destruct (Z.leb_spec (len pre) (len (pre ++ old ++ tl))) as [_|Hl];
    [|rewrite !len_app in Hl; lia].
  cbn [andb].
  assert (Hmin : Z.min (len (v ++ extra)) (len (pre ++ old ++ tl) - len pre)
                 = len v).
  { rewrite !len_app.
    destruct Hcase as [-> | ->]; rewrite len_nil; lia. }
  rewrite Hmin. rewrite firstn_len_app.
  rewrite <- Hlen at 2.
  replace (len pre + len old) with (len (pre ++ old)) by now rewrite len_app.
  replace (pre ++ old ++ tl) with ((pre ++ old) ++ tl)
    by (now rewrite <- app_assoc).
  rewrite skipn_len_app.
  now rewrite firstn_len_app.
Qed.

Lemma WriteBlobAt_size (p : Z) (v b : list byte) :
  len (snd (util.WriteBlobAt p v b)) = len b.
Proof.
  unfold util.WriteBlobAt.
  destruct (Z.leb_spec 0 p) as [H0|]; [|reflexivity].
  destruct (Z.leb_spec p (len b)) as [Hl|]; [|reflexivity].
  cbn [andb snd].
  pose proof (len_nonneg v).
  set (n := Z.min (len v) (len b - p)).
  assert (Hn : 0 <= n <= len v) by (unfold n; lia).
  assert (Hpn : 0 <= p + n <= len b) by (unfold n; lia).
  rewrite !len_app.
  destruct (firstn_skipn_len p b ltac:(lia)) as [-> _].
  destruct (firstn_skipn_len n v Hn) as [-> _].
  destruct (firstn_skipn_len (p + n) b Hpn) as [_ ->]. lia.
Qed.

(** X10.  [WriteBlobAt] copies as much of the blob as the buffer holds
    from the position on: a blob that fits replaces the bytes there, of a
    longer one the part that fits is copied and the remainder silently
    dropped; the buffer never grows, and the only panic is a position
    outside [0, Size]. *)
Theorem WriteBlobAt_copies_what_fits (pre old tl v extra : list byte)
    (p : Z) (b : list byte) :
  len old = len v ->
  util.WriteBlobAt (len pre) v (pre ++ old ++ tl) = (Ok tt, pre ++ v ++ tl)
  /\ util.WriteBlobAt (len pre) (v ++ extra) (pre ++ old) = (Ok tt, pre ++ v)
  /\ len (snd (util.WriteBlobAt p v b)) = len b
  /\ (fst (util.WriteBlobAt p v b) = Panic <-> p < 0 \/ len b < p).
Proof.
  intros Hlen. split; [|split; [|split]].
  - pose proof (WriteBlobAt_app pre old tl v [] Hlen (or_intror eq_refl)) as H.
    now rewrite app_nil_r in H.
  - pose proof (WriteBlobAt_app pre old [] v extra Hlen (or_introl eq_refl))
      as H.
    now rewrite !app_nil_r in H.
  - apply WriteBlobAt_size.
  - unfold util.WriteBlobAt.
    destruct (Z.leb_spec 0 p); destruct (Z.leb_spec p (len b));
      cbn [andb fst]; split; intros; try discriminate; try reflexivity; lia.
Qed.

Lemma WriteBlobAt_copies_what_fits_witness :
  util.WriteBlobAt 1 [x61; x62] [x01; x02; x03; x04]
  = (Ok tt, [x01; x61; x62; x04])
  /\ util.WriteBlobAt 1 [x61; x62; x63] [x01; x02; x03]
     = (Ok tt, [x01; x61; x62]).
Proof.
  destruct (WriteBlobAt_copies_what_fits
              [x01] [x02; x03] [x04] [x61; x62] [x63] 0 [] eq_refl)
    as (H1 & H2 & _).
  split; [exact H1 | exact H2].
Defined.

(** X11.  [WriteStringAt] needs room for the string and its terminator:
    it panics exactly when the position is negative or fewer than
    [len s + 1] bytes follow it (a string that does not fit is first copied
    as far as it fits), and otherwise replaces those bytes by the string
    and a zero byte. *)
Theorem WriteStringAt_room (p : Z) (s b pre old tl : list byte) (x : byte) :
  (fst (util.WriteStringAt p s b) = Panic <-> p < 0 \/ len b < p + len s + 1)
  /\ (len old = len s ->
      util.WriteStringAt (len pre) s (pre ++ old ++ x :: tl)
      = (Ok tt, pre ++ s ++ x00 :: tl)).
Proof.
  pose proof (len_nonneg s) as Hs. pose proof (len_nonneg b) as Hb.
  split.
  - unfold util.WriteStringAt, bind.
    pose proof (WriteBlobAt_size p s b) as Hsize.
    destruct (util.WriteBlobAt p s b) as [[[]|e|] b'] eqn:E; cbn [snd] in Hsize.
    + assert (Hin : 0 <= p <= len b).
      { unfold util.WriteBlobAt in E.
        destruct (Z.leb_spec 0 p); destruct (Z.leb_spec p (len b));
          cbn [andb] in E; try discriminate; lia. }
      destruct (WriteUInt8At_range (p + len s) x00 b') as [-> _].
      rewrite Hsize. lia.
    + unfold util.WriteBlobAt in E.
      destruct ((0 <=? p) && (p <=? len b)); discriminate.
    + cbn [fst]. split; [intros _ | reflexivity].
      unfold util.WriteBlobAt in E.
      destruct (Z.leb_spec 0 p); destruct (Z.leb_spec p (len b));
        cbn [andb] in E; try discriminate; lia.
  - intros Hlen. unfold util.WriteStringAt.
    pose proof (WriteBlobAt_app pre old (x :: tl) s [] Hlen
                  (or_intror eq_refl)) as H.
    rewrite app_nil_r in H.
    rewrite (bind_Ok _ _ _ _ _ H).
    replace (len pre + len s) with (len (pre ++ s)) by (now rewrite len_app).
    rewrite app_assoc, WriteUInt8At_app. now rewrite <- app_assoc.
Qed.

Lemma WriteStringAt_room_witness :
  util.WriteStringAt 1 [x68; x69] [x01; x02; x03; x04; x05]
  = (Ok tt, [x01; x68; x69; x00; x05]).
Proof.
  exact (proj2 (WriteStringAt_room 0 [x68; x69] [] [x01] [x02; x03] [x05] x04) eq_refl).
Defined.

Lemma Equal_IPv4zero (ip4 : net.IP) :
  len ip4 = 4 -> net.Equal ip4 net.IPv4zero = net.isZeros ip4.
Proof.
  intros H.
  destruct ip4 as [|a [|b [|c [|d [|e t]]]]];
    try (repeat rewrite len_cons in H; rewrite len_nil in H; lia);
    try (rewrite len_nil in H; lia);
    try (repeat rewrite len_cons in H; pose proof (len_nonneg t); lia).
  unfold net.Equal, net.isZeros, net.IPv4zero, net.IPv4, net.v4InV6Prefix.
  cbn [app firstn skipn forallb net.bytes_equal].
  match goal with
  | |- context [len ?l =? len ?r] => change (len l =? len r) with false
  end.
  change (len [a; b; c; d] =? net.IPv4len) with true.
  cbv beta iota.
  match goal with
  | |- context [len ?l =? net.IPv6len] =>
      change (len l =? net.IPv6len) with true
  end.
  cbn [andb]. rewrite !byte_eqb_refl. cbn [andb]. reflexivity.
Qed.

(** X12.  What [WriteIP] leaves in the buffer, [ReadIP] reads back as the
    4-byte form of the address, except that it returns nil (the empty
    slice) for 0.0.0.0 and hence for every address [WriteIP] rejected. *)
Theorem IP_roundtrip (v : net.IP) (rest : list byte) :
  util.ReadIP (snd (util.WriteIP v []) ++ rest)
  = (Ok match net.To4 v with
        | Some ip4 => if net.isZeros ip4 then [] else ip4
        | None => []
        end, rest).
Proof.
  unfold util.WriteIP, util.ReadIP.
  destruct (net.To4 v) as [ip4|] eqn:E.
  - pose proof (To4_length _ _ E) as H4.
    unfold util.WriteBlob. cbn [snd app].
    change net.IPv4len with 4. rewrite <- H4, bind_ReadBlob.
    rewrite (Equal_IPv4zero _ H4).
    now destruct (net.isZeros ip4).
  - rewrite bind_WriteUInt32. unfold fail. cbn [snd app].
    change net.IPv4len with (len (le32 0)).
    now rewrite bind_ReadBlob.
Qed.

(** * Decoding arbitrary buffers *)

(** ** Rules for runs without panic *)

Lemma safe_nopanic {A} (c : M A) (b : list byte) (Q : A -> list byte -> Prop) :
  safe c b Q -> fst (c b) <> Panic.
Proof.
  unfold safe. destruct (c b) as [[a|e|] b']; cbn; intros H; try discriminate.
  destruct H.
Qed.

Lemma safe_bind {A B} (c : M A) (k : A -> M B) (b : list byte)
  (Q : B -> list byte -> Prop) :
  safe c b (fun a b' => safe (k a) b' Q) -> safe (bind c k) b Q.
Proof. unfold safe, bind. now destruct (c b) as [[a|e|] b']. Qed.

Lemma safe_weaken {A} (c : M A) (b : list byte)
  (P Q : A -> list byte -> Prop) :
  safe c b P -> (forall a b', P a b' -> Q a b') -> safe c b Q.
Proof. unfold safe. destruct (c b) as [[a|e|] b']; auto. Qed.

Lemma safe_Size (b : list byte) (Q : Z -> list byte -> Prop) :
  Q (len b) b -> safe util.Size b Q.
Proof. exact (fun H => H). Qed.

Lemma len_skipn (n : Z) (b : list byte) :
  0 <= n <= len b -> len (skipn (Z.to_nat n) b) = len b - n.
Proof. intros H. now destruct (firstn_skipn_len n b H). Qed.

Lemma safe_Skip (n : Z) (b : list byte) (Q : unit -> list byte -> Prop) :
  0 <= n <= len b ->
  (forall b', len b' = len b - n -> Q tt b') ->
  safe (util.Skip n) b Q.
Proof.
  intros H HQ. unfold safe, util.Skip.
  destruct (Z.leb_spec 0 n); [|lia].
  destruct (Z.leb_spec n (len b)); [|lia].
  cbn [andb]. apply HQ. now apply len_skipn.
Qed.

Lemma safe_ReadBlob (n : Z) (b : list byte)
  (Q : list byte -> list byte -> Prop) :
  n <= len b ->
  (forall d b', len b' = len b - Z.max 0 n -> Q d b') ->
  safe (util.ReadBlob n) b Q.
Proof.
  intros H HQ. unfold safe, util.ReadBlob.
  destruct (Z.ltb_spec 0 n).
  - destruct (Z.leb_spec n (len b)); [|lia].
    apply HQ. rewrite len_skipn by lia. lia.
  - apply HQ. lia.
Qed.

Lemma safe_ReadUInt8 (b : list byte) (Q : byte -> list byte -> Prop) :
  1 <= len b ->
  (forall v b', len b' = len b - 1 -> Q v b') ->
  safe util.ReadUInt8 b Q.
Proof.
  intros H HQ. destruct b as [|x b']; [rewrite len_nil in H; lia|].
  apply HQ. rewrite len_cons. lia.
Qed.

Lemma safe_ReadUInt16 (b : list byte) (Q : N -> list byte -> Prop) :
  2 <= len b ->
  (forall v b', is_u16 v = true -> len b' = len b - 2 -> Q v b') ->
  safe util.ReadUInt16 b Q.
Proof.
  intros H HQ.
  destruct b as [|x0 [|x1 b']];
    try (repeat rewrite len_cons in H; rewrite len_nil in H; lia).
  apply HQ; [apply word16_bytes | rewrite !len_cons; lia].
Qed.

Lemma safe_ReadUInt32 (b : list byte) (Q : N -> list byte -> Prop) :
  4 <= len b ->
  (forall v b', len b' = len b - 4 -> Q v b') ->
  safe util.ReadUInt32 b Q.
Proof.
  intros H HQ.
  destruct b as [|x0 [|x1 [|x2 [|x3 b']]]];
    try (repeat rewrite len_cons in H; rewrite len_nil in H; lia).
  apply HQ. rewrite !len_cons. lia.
Qed.

Lemma safe_ReadBool32 (b : list byte) (Q : bool -> list byte -> Prop) :
  4 <= len b ->
  (forall v b', len b' = len b - 4 -> Q v b') ->
  safe protocol.ReadBool32 b Q.
Proof.
  intros H HQ. unfold protocol.ReadBool32.
  apply safe_bind, safe_ReadUInt32; [assumption|].
  intros v b' Hb. now apply HQ.
Qed.

Lemma safe_ReadCString (b : list byte)
  (Q : list byte * option error -> list byte -> Prop) :
  (forall r b', len b' <= len b -> Q r b') ->
  safe protocol.ReadCString b Q.
Proof.
  intros HQ. unfold safe, protocol.ReadCString, util.ReadString.
  destruct (IndexByte b x00 =? -1); apply HQ.
  - rewrite skipn_all. rewrite len_nil. apply len_nonneg.
  - unfold len. rewrite length_skipn. lia.
Qed.

Lemma safe_fail {A} (e : error) (b : list byte)
  (Q : A -> list byte -> Prop) : safe (fail e) b Q.
Proof. exact I. Qed.

Lemma safe_ret {A} (a : A) (b : list byte) (Q : A -> list byte -> Prop) :
  Q a b -> safe (ret a) b Q.
Proof. exact (fun H => H). Qed.

(** Turn the boolean tests in the context into arithmetic. *)
Ltac tests :=
  repeat match goal with
    | H : (_ || _) = false |- _ => apply orb_false_elim in H; destruct H
    | H : (_ <? _) = false |- _ => apply Z.ltb_ge in H
    | H : (_ <? _) = true |- _ => apply Z.ltb_lt in H
    | H : (_ =? _) = true |- _ => apply Z.eqb_eq in H
    | H : (_ =? _) = false |- _ => apply Z.eqb_neq in H
    | H : (_ =? _)%N = true |- _ => apply N.eqb_eq in H
    | H : (_ =? _)%N = false |- _ => apply N.eqb_neq in H
    | H : negb _ = false |- _ => apply negb_false_iff in H
    | H : negb _ = true |- _ => apply negb_true_iff in H
    end.

Lemma of_byte_Z (n : byte) : 0 <= Z.of_N (of_byte n) < 256.
Proof. pose proof (of_byte_bound n). lia. Qed.

(** Arithmetic on sizes, with the range of the bytes read. *)
Ltac sizes :=
  repeat match goal with
    | |- context [of_byte ?n] =>
        lazymatch goal with
        | _ : 0 <= Z.of_N (of_byte n) < 256 |- _ => fail
        | _ => pose proof (of_byte_Z n)
        end
    | _ : context [of_byte ?n] |- _ =>
        lazymatch goal with
        | _ : 0 <= Z.of_N (of_byte n) < 256 |- _ => fail
        | _ => pose proof (of_byte_Z n)
        end
    end;
  lia.

(** One step of a run: a bind, a guard, or a primitive whose bytes are
    there. *)
Ltac safe_step :=
  lazymatch goal with
  | |- safe (bind _ _) _ _ => apply safe_bind
  | |- safe util.Size _ _ => apply safe_Size
  | |- safe (fail _) _ _ => exact I
  | |- safe (ret _) _ _ => apply safe_ret
  | |- safe (if ?c then _ else _) _ _ => destruct c eqn:?; tests
  | |- safe (util.Skip _) _ _ => apply safe_Skip; [sizes | intros ? ?]
  | |- safe util.ReadUInt8 _ _ => apply safe_ReadUInt8; [sizes | intros ? ? ?]
  | |- safe util.ReadUInt16 _ _ =>
      apply safe_ReadUInt16; [sizes | intros ? ? ? ?]
  | |- safe util.ReadUInt32 _ _ => apply safe_ReadUInt32; [sizes | intros ? ? ?]
  | |- safe protocol.ReadBool32 _ _ =>
      apply safe_ReadBool32; [sizes | intros ? ? ?]
  | |- safe (util.ReadBlob _) _ _ => apply safe_ReadBlob; [sizes | intros ? ? ?]
  | |- safe protocol.ReadCString _ _ =>
      apply safe_ReadCString; intros [? [?|]] ? ?; cbn [fst snd]
  end.

Ltac safe_run := repeat (cbv beta; safe_step).

Lemma PlayerInfo_DeserializeContent_safe (rec0 : w3g.PlayerInfo)
  (enc : w3g.Encoding) (b : list byte)
  (Q : w3g.PlayerInfo -> list byte -> Prop) :
  (forall r b', Q r b') ->
  safe (w3g.PlayerInfo_DeserializeContent rec0 enc) b Q.
Proof.
  intros HQ. unfold w3g.PlayerInfo_DeserializeContent.
  safe_run; apply HQ.
Qed.

(** X13.  Seven of the record decoders never panic, whatever the buffer
    holds: each read is covered by a size guard before it. *)
Theorem Deserialize_never_panics (enc : w3g.Encoding) (b : list byte) :
  (forall rec0, fst (w3g.PlayerInfo_Deserialize rec0 enc b) <> Panic)
  /\ (forall rec0, fst (w3g.PlayerLeft_Deserialize rec0 enc b) <> Panic)
  /\ (forall rec0, fst (w3g.GameStart_Deserialize rec0 enc b) <> Panic)
  /\ (forall rec0, fst (w3g.CountDownStart_Deserialize rec0 enc b) <> Panic)
  /\ (forall rec0, fst (w3g.CountDownEnd_Deserialize rec0 enc b) <> Panic)
  /\ (forall rec0, fst (w3g.TimeSlotAck_Deserialize rec0 enc b) <> Panic)
  /\ (forall rec0, fst (w3g.EndTimer_Deserialize rec0 enc b) <> Panic).
Proof.
  assert (G : forall rec0,
             safe (w3g.GameStart_Deserialize rec0 enc) b (fun _ _ => True)).
  { intros rec0. unfold w3g.GameStart_Deserialize. safe_run; exact I. }
  repeat split; intros rec0; apply safe_nopanic with (Q := fun _ _ => True).
  - unfold w3g.PlayerInfo_Deserialize. safe_run.
    apply PlayerInfo_DeserializeContent_safe. intros r b1.
    safe_run; exact I.
  - unfold w3g.PlayerLeft_Deserialize. safe_run; exact I.
  - apply G.
  - unfold w3g.CountDownStart_Deserialize. safe_run.
    eapply safe_weaken; [apply G|]. intros; exact I.
  - unfold w3g.CountDownEnd_Deserialize. safe_run.
    eapply safe_weaken; [apply G|]. intros; exact I.
  - unfold w3g.TimeSlotAck_Deserialize. safe_run; exact I.
  - unfold w3g.EndTimer_Deserialize. safe_run; exact I.
Qed.

Lemma read_actions_safe (size : Z) (b : list byte)
  (Q : list w3gs.PlayerAction * Z -> list byte -> Prop) :
  size + 3 <= len b ->
  (forall r b', Q r b') ->
  safe (w3g.read_actions size) b Q.
Proof.
  intros Hm HQ.
  assert (G : forall n size b Q,
             (Z.to_nat size < n)%nat -> size + 3 <= len b ->
             (forall r b', Q r b') ->
             safe (w3g.read_actions size) b Q);
    [|now apply (G (S (Z.to_nat size)) size b Q); [lia | |]].
  clear. induction n as [|n IH]; intros size b Q Hn Hm HQ; [lia|].
  rewrite read_actions_eq.
  destruct (size <? 3) eqn:E; tests; [apply HQ|].
  safe_run. apply IH; [lia | lia |].
  intros r b3. safe_run. apply HQ.
Qed.

(** X14.  A time slot record followed by at least three more bytes is
    decoded without panic, whatever its actions declare: the reads of the
    loop stay inside the buffer once three bytes lie behind the declared
    length. *)
Theorem TimeSlot_Deserialize_margin (rec0 : w3g.TimeSlot)
  (enc : w3g.Encoding) (tag : byte) (n : N) (body : list byte) :
  is_u16 n = true ->
  Z.of_N n + 3 <= len body ->
  fst (w3g.TimeSlot_Deserialize rec0 enc (tag :: le16 n ++ body)) <> Panic.
Proof.
  intros Hn Hm. unfold w3g.TimeSlot_Deserialize.
  pose proof (len_nonneg body).
  rewrite bind_Size. rewrite ltb_false by lens.
  rewrite bind_ReadUInt8, bind_ReadUInt16 by assumption.
  rewrite bind_Size.
  apply (safe_nopanic _ body (fun _ _ => True)).
  safe_run.
  apply read_actions_safe; [lia|].
  intros r b3. safe_run; exact I.
Qed.

Lemma TimeSlot_Deserialize_margin_witness :
  fst (w3g.TimeSlot_Deserialize w3g.TimeSlot_zero (version 0)
         (slot_overrun ++ [xaa; xbb; xcc])) <> Panic.
Proof.
  refine (TimeSlot_Deserialize_margin w3g.TimeSlot_zero (version 0) x1e 5
            [x64; x00; x01; x03; x00; xaa; xbb; xcc] eq_refl _).
  vm_compute. intros E. discriminate E.
Defined.

Section ChatSafety.
Context {T : unicode.Tables}.

Lemma read_extra_safe (size : Z) (content b : list byte)
  (Q : list byte * Z -> list byte -> Prop) :
  (forall r b', Q r b') ->
  safe (w3g.read_extra size content) b Q.
Proof.
  intros HQ.
  assert (G : forall n size content b,
             (Z.to_nat size < n)%nat ->
             safe (w3g.read_extra size content) b Q);
    [|apply (G (S (Z.to_nat size))); lia].
  induction n as [|n IH]; intros sz c b0 Hn; [lia|].
  rewrite read_extra_eq.
  destruct (0 <? sz) eqn:E; tests; [|apply HQ].
  safe_run. apply IH.
  match goal with
  | |- context [len ?l] => pose proof (len_nonneg l)
  end.
  lia.
Qed.

Lemma read_content_safe (size : Z) (b : list byte)
  (Q : list byte -> list byte -> Prop) :
  (forall r b', Q r b') ->
  safe (w3g.read_content size) b Q.
Proof.
  intros HQ. unfold w3g.read_content. safe_run.
  apply read_extra_safe. intros r b1. safe_run. apply HQ.
Qed.

(** X15.  The chat message decoder panics on the buffers of exactly three
    bytes and on no other: its first guard asks for three bytes where the
    record id, the sender and the length word take four. *)
Theorem ChatMessage_Deserialize_panics (rec0 : w3g.ChatMessage)
  (enc : w3g.Encoding) (b : list byte) :
  fst (w3g.ChatMessage_Deserialize rec0 enc b) = Panic <-> len b = 3.
Proof.
  split.
  - intros HP.
    destruct (Z.eq_dec (len b) 3) as [|Hne]; [assumption|].
    exfalso. revert HP.
    apply (safe_nopanic _ b (fun _ _ => True)).
    unfold w3g.ChatMessage_Deserialize.
    safe_run; try exact I.
    all: try (apply read_content_safe; intros r b1; safe_run; exact I).
  - intros H3.
    destruct b as [|x [|y [|z [|w t]]]];
      try (repeat rewrite len_cons in H3; rewrite len_nil in H3; lia).
    + reflexivity.
    + repeat rewrite len_cons in H3. pose proof (len_nonneg t). lia.
Qed.
End ChatSafety.

(** * Records in a stream *)

(** ** Serializers append *)

Lemma appends_at (c : M unit) (b : list byte) :
  appends c -> c b = (Ok tt, b ++ snd (c [])).
Proof. intros (bytes & H). now rewrite (H b), (H []). Qed.

Lemma appends_bind (c k : M unit) :
  appends c -> appends k -> appends (c ;; k).
Proof.
  intros (x & Hc) (y & Hk). exists (x ++ y). intros b.
  unfold bind. now rewrite Hc, Hk, app_assoc.
Qed.

Lemma appends_ret : appends (ret tt).
Proof. exists []. intros b. now rewrite app_nil_r. Qed.

Lemma appends_WriteUInt8 (v : byte) : appends (util.WriteUInt8 v).
Proof. now exists [v]. Qed.

Lemma appends_WriteUInt16 (v : N) : appends (util.WriteUInt16 v).
Proof. now exists (le16 v). Qed.

Lemma appends_WriteUInt32 (v : N) : appends (util.WriteUInt32 v).
Proof. now exists (le32 v). Qed.

Lemma appends_WriteBlob (v : list byte) : appends (util.WriteBlob v).
Proof. now exists v. Qed.

Lemma appends_WriteCString (s : list byte) :
  appends (protocol.WriteCString s).
Proof. exists (cstring s). intros b. apply WriteCString_app. Qed.

Lemma appends_WriteBool32 (v : bool) : appends (protocol.WriteBool32 v).
Proof. apply appends_WriteUInt32. Qed.

Lemma appends_discard (c : M unit) : appends c -> appends (w3g.discard c).
Proof.
  intros (x & H). exists x. intros b. unfold w3g.discard. now rewrite H.
Qed.

Lemma appends_TimeSlot (rec : w3g.TimeSlot) (enc : w3g.Encoding) :
  appends (w3g.TimeSlot_Serialize rec enc).
Proof. eexists. intros b. apply TimeSlot_Serialize_bytes. Qed.

(** A serializer built from appending writes appends. *)
Ltac app_run :=
  repeat first
    [ apply appends_bind | apply appends_WriteUInt8
    | apply appends_WriteUInt16 | apply appends_WriteUInt32
    | apply appends_WriteBlob | apply appends_WriteCString
    | apply appends_WriteBool32 | apply appends_discard
    | assumption
    | match goal with
      | |- appends (if ?c then _ else _) => destruct c
      end ].

Lemma appends_Serialize {C : w3gs.ContentCodecs} (rec : w3g.AnyRecord)
  (enc : w3g.Encoding) :
  codec_appends enc rec -> appends (w3g.Serialize rec enc).
Proof.
  intros H.
  destruct rec as [r|r|r|r|r|r|r|r|r|r|r|r|r];
    cbn [codec_appends w3g.Serialize] in *.
  - unfold w3g.GameInfo_Serialize. app_run.
  - unfold w3g.PlayerInfo_Serialize. app_run.
  - unfold w3g.PlayerLeft_Serialize. app_run.
  - unfold w3g.SlotInfo_Serialize. app_run.
  - unfold w3g.CountDownStart_Serialize. app_run.
  - unfold w3g.CountDownEnd_Serialize. app_run.
  - unfold w3g.GameStart_Serialize. app_run.
  - apply appends_TimeSlot.
  - unfold w3g.ChatMessage_Serialize. app_run.
  - unfold w3g.TimeSlotAck_Serialize. app_run.
  - unfold w3g.Desync_Serialize. app_run.
  - unfold w3g.EndTimer_Serialize. app_run.
  - unfold w3g.PlayerExtra_Serialize. app_run.
Qed.

(** X16.  [Serialize] only appends: on every buffer it succeeds, leaves the
    bytes already there in place, and adds after them the bytes it produces
    on the empty buffer, for every record type, given for the records that
    wrap a structure of package w3gs that the serializer of that structure
    appends. *)
Theorem Serialize_appends {C : w3gs.ContentCodecs} (rec : w3g.AnyRecord)
  (enc : w3g.Encoding) (b : list byte) :
  codec_appends enc rec ->
  w3g.Serialize rec enc b = (Ok tt, b ++ snd (w3g.Serialize rec enc [])).
Proof. intros H. apply appends_at. now apply appends_Serialize. Qed.

Lemma Serialize_appends_witness :
  w3g.Serialize (C := w3gs.opaque_contents) (w3g.RTimeSlot (slot_100 false))
    (version 30) [xaa; xbb]
  = (Ok tt, [xaa; xbb; x1e; x07; x00; x64; x00; x01; x02; x00; x0a; x0b]).
Proof.
  exact (Serialize_appends (C := w3gs.opaque_contents)
           (w3g.RTimeSlot (slot_100 false)) (version 30) [xaa; xbb] I).
Defined.

(** ** Two records in a row *)

Lemma roundtrip_ok_appends {C : w3gs.ContentCodecs} (enc : w3g.Encoding)
  (rec : w3g.AnyRecord) : roundtrip_ok enc rec -> codec_appends enc rec.
Proof.
  destruct rec; cbn [roundtrip_ok codec_appends]; try exact (fun _ => I).
  - intros (_ & bytes & _ & Hs & _). now exists bytes.
  - intros (bytes & _ & Hs & _). now exists bytes.
  - intros (bytes & _ & Hs & _). now exists bytes.
  - intros (bytes & _ & Hs & _). now exists bytes.
Qed.

Lemma lift_Ok {C : w3gs.ContentCodecs} {A} (f : A -> w3g.AnyRecord)
  (c : M A) (r : A) (b rest : list byte) :
  c b = (Ok r, rest) -> w3g.lift f c b = (Ok (f r), rest).
Proof. intros H. unfold w3g.lift. now rewrite (bind_Ok _ _ _ _ _ H). Qed.

(** The round trip of one record written behind any bytes [b]. *)
Lemma Record_roundtrip_at {C : w3gs.ContentCodecs} {T : unicode.Tables}
  (enc : w3g.Encoding) (rec rec0 : w3g.AnyRecord) (rest : list byte) :
  roundtrip_ok enc rec ->
  same_type rec0 rec = true ->
  exists bytes,
    (forall b, w3g.Serialize rec enc b = (Ok tt, b ++ bytes))
    /\ w3g.Deserialize rec0 enc (bytes ++ rest) = (Ok rec, rest).
Proof.
  intros Hok Hty.
  pose proof (appends_Serialize rec enc (roundtrip_ok_appends enc rec Hok))
    as (bytes & Hs).
  exists bytes. split; [exact Hs|].
  specialize (Hs []). cbn [app] in Hs.
  destruct rec as [r|r|r|r|r|r|r|r|r|r|r|r|r]; cbn [roundtrip_ok] in Hok;
    destruct rec0 as [r0|r0|r0|r0|r0|r0|r0|r0|r0|r0|r0|r0|r0];
    try discriminate Hty; clear Hty;
    cbn [w3g.Serialize w3g.Deserialize] in *; apply lift_Ok.
  - destruct Hok as [Hok Hc].
    destruct (GameInfo_roundtrip r r0 enc rest Hok Hc) as (x & Hx & Hd).
    congruence.
  - destruct (PlayerInfo_roundtrip r r0 enc rest Hok) as (x & Hx & Hd).
    congruence.
  - destruct (PlayerLeft_roundtrip r r0 enc rest Hok) as (x & Hx & Hd).
    congruence.
  - destruct (SlotInfo_roundtrip r r0 enc rest Hok) as (x & Hx & Hd).
    congruence.
  - destruct (CountDownStart_roundtrip r r0 enc rest) as (x & Hx & Hd).
    congruence.
  - destruct (CountDownEnd_roundtrip r r0 enc rest) as (x & Hx & Hd).
    congruence.
  - destruct (GameStart_roundtrip r r0 enc rest) as (x & Hx & Hd).
    congruence.
  - destruct (TimeSlot_roundtrip r r0 enc rest Hok) as (x & Hx & Hd).
    congruence.
  - destruct (ChatMessage_roundtrip r r0 enc rest Hok) as (x & Hx & Hd).
    congruence.
  - destruct (TimeSlotAck_roundtrip r r0 enc rest Hok) as (x & Hx & Hd).
    congruence.
  - destruct (Desync_roundtrip r r0 enc rest Hok) as (x & Hx & Hd).
    congruence.
  - destruct (EndTimer_roundtrip r r0 enc rest Hok) as (x & Hx & Hd).
    congruence.
  - destruct (PlayerExtra_roundtrip r r0 enc rest Hok) as (x & Hx & Hd).
    congruence.
Qed.

(** X17.  Records follow one another in a stream: two records serialized
    one after the other into the same buffer are read back by two
    deserializations in the same order, each taking exactly its own bytes
    and leaving what follows. *)
Theorem two_records_roundtrip {C : w3gs.ContentCodecs} {T : unicode.Tables}
  (enc : w3g.Encoding) (r1 r2 z1 z2 : w3g.AnyRecord) (rest : list byte) :
  roundtrip_ok enc r1 -> roundtrip_ok enc r2 ->
  same_type z1 r1 = true -> same_type z2 r2 = true ->
  exists bytes,
    (w3g.Serialize r1 enc ;; w3g.Serialize r2 enc) [] = (Ok tt, bytes)
    /\ (x <- w3g.Deserialize z1 enc ;;
        y <- w3g.Deserialize z2 enc ;;
        ret (x, y)) (bytes ++ rest)
       = (Ok (r1, r2), rest).
Proof.
  intros H1 H2 T1 T2.
  destruct (Record_roundtrip_at enc r2 z2 rest H2 T2) as (b2 & S2 & D2).
  destruct (Record_roundtrip_at enc r1 z1 (b2 ++ rest) H1 T1)
    as (b1 & S1 & D1).
  exists (b1 ++ b2). split.
  - rewrite (bind_Ok _ _ _ _ _ (S1 [])). apply S2.
  - rewrite <- app_assoc.
    rewrite (bind_Ok _ _ _ _ _ D1), (bind_Ok _ _ _ _ _ D2). reflexivity.
Qed.

Lemma two_records_roundtrip_witness :
  exists bytes,
    (w3g.Serialize (C := w3gs.opaque_contents)
       (w3g.RTimeSlot (slot_100 false)) (version 30) ;;
     w3g.Serialize (C := w3gs.opaque_contents)
       (w3g.RChatMessage chat_hi) (version 30)) []
    = (Ok tt, bytes)
    /\ (x <- w3g.Deserialize (C := w3gs.opaque_contents)
              (T := unicode.ascii)
              (w3g.RTimeSlot w3g.TimeSlot_zero) (version 30) ;;
        y <- w3g.Deserialize (C := w3gs.opaque_contents)
              (T := unicode.ascii)
              (w3g.RChatMessage w3g.ChatMessage_zero) (version 30) ;;
        ret (x, y)) (bytes ++ [xff])
       = (Ok (w3g.RTimeSlot (slot_100 false), w3g.RChatMessage chat_hi),
          [xff]).
Proof.
  apply (two_records_roundtrip (C := w3gs.opaque_contents)
           (T := unicode.ascii) (version 30)
           (w3g.RTimeSlot (slot_100 false)) (w3g.RChatMessage chat_hi)
           (w3g.RTimeSlot w3g.TimeSlot_zero)
           (w3g.RChatMessage w3g.ChatMessage_zero) [xff]);
    reflexivity.
Defined.

(** ** The record id is not inspected *)

Lemma tag_blind_guard {A} (k : Z) (rest : M A) :
  tag_blind (sz <- util.Size ;;
             if sz <? k then fail ErrShortBuffer else
             util.Skip 1 ;; rest).
Proof.
  intros x y b. rewrite !bind_Size, !len_cons.
  destruct (1 + len b <? k).
  - right. split; reflexivity.
  - left. now rewrite !bind_Skip_1.
Qed.

Lemma bind_either {A B} (D : M A) (k : A -> M B) (x y : byte)
  (b : list byte) :
  D (x :: b) = D (y :: b)
  \/ (D (x :: b) = (Err ErrShortBuffer, x :: b)
      /\ D (y :: b) = (Err ErrShortBuffer, y :: b)) ->
  bind D k (x :: b) = bind D k (y :: b)
  \/ (bind D k (x :: b) = (Err ErrShortBuffer, x :: b)
      /\ bind D k (y :: b) = (Err ErrShortBuffer, y :: b)).
Proof.
  unfold bind. intros [E | [Ex Ey]].
  - left. now rewrite E.
  - right. now rewrite Ex, Ey.
Qed.

Lemma tag_blind_bind {A B} (D : M A) (k : A -> M B) :
  tag_blind D -> tag_blind (bind D k).
Proof. intros H x y b. apply bind_either, H. Qed.

(** X18.  No decoder checks the record id it is called on: the first byte
    of the buffer is skipped unread by every record type but the time slot,
    which only tests it against the id of a fragment.  Two buffers that
    differ in that byte alone are either both refused by the first size
    guard or decoded to the same outcome. *)
Theorem Deserialize_ignores_tag {C : w3gs.ContentCodecs}
  {T : unicode.Tables} (rec0 : w3g.AnyRecord) (enc : w3g.Encoding)
  (x y : byte) (b : list byte) :
  (same_type rec0 (w3g.RTimeSlot w3g.TimeSlot_zero) = true ->
   Byte.eqb x w3g.RidTimeSlot2 = Byte.eqb y w3g.RidTimeSlot2) ->
  w3g.Deserialize rec0 enc (x :: b) = w3g.Deserialize rec0 enc (y :: b)
  \/ (w3g.Deserialize rec0 enc (x :: b) = (Err ErrShortBuffer, x :: b)
      /\ w3g.Deserialize rec0 enc (y :: b) = (Err ErrShortBuffer, y :: b)).
Proof.
  intros H.
  assert (G : forall rec0, tag_blind (w3g.GameStart_Deserialize rec0 enc))
    by (intros r; apply tag_blind_guard).
  destruct rec0 as [r|r|r|r|r|r|r|r|r|r|r|r|r];
    cbn [w3g.Deserialize]; unfold w3g.lift;
    try (apply tag_blind_bind; apply tag_blind_guard).
  - apply tag_blind_bind. unfold w3g.CountDownStart_Deserialize.
    apply tag_blind_bind, G.
  - apply tag_blind_bind. unfold w3g.CountDownEnd_Deserialize.
    apply tag_blind_bind, G.
  - specialize (H eq_refl). apply bind_either.
    unfold w3g.TimeSlot_Deserialize.
    rewrite !bind_Size, !len_cons.
    destruct (1 + len b <? 5).
    + right. split; reflexivity.
    + left. rewrite !bind_ReadUInt8. now rewrite H.
Qed.

Lemma Deserialize_ignores_tag_witness :
  w3g.Deserialize (C := w3gs.opaque_contents) (T := unicode.ascii)
    (w3g.RGameStart w3g.mkGameStart) (version 30)
    [x1c; x01; x00; x00; x00]
  = w3g.Deserialize (C := w3gs.opaque_contents) (T := unicode.ascii)
      (w3g.RGameStart w3g.mkGameStart) (version 30)
      [xff; x01; x00; x00; x00].
Proof.
  destruct (Deserialize_ignores_tag (C := w3gs.opaque_contents)
              (T := unicode.ascii) (w3g.RGameStart w3g.mkGameStart)
              (version 30) x1c xff [x01; x00; x00; x00])
    as [E | [E _]].
  - intros E. discriminate E.
  - exact E.
  - discriminate E.
Defined.

(** * What the decoders accept *)

(** ** Inversion of the reads *)

Lemma bind_inv {A B} (c : M A) (k : A -> M B) (b rest : list byte) (r : B) :
  bind c k b = (Ok r, rest) ->
  exists a b', c b = (Ok a, b') /\ k a b' = (Ok r, rest).
Proof.
  unfold bind. destruct (c b) as [[a|e|] b']; intros H; try discriminate H.
  now exists a, b'.
Qed.

Lemma ReadUInt8_inv (b b' : list byte) (v : byte) :
  util.ReadUInt8 b = (Ok v, b') -> b = v :: b'.
Proof.
  destruct b as [|x t]; intros H; [discriminate H|].
  now injection H as -> ->.
Qed.

Lemma ReadUInt16_inv (b b' : list byte) (v : N) :
  util.ReadUInt16 b = (Ok v, b') -> b = le16 v ++ b' /\ is_u16 v = true.
Proof.
  destruct b as [|x0 [|x1 t]]; intros H; try discriminate H.
  unfold util.ReadUInt16 in H. injection H as <- <-.
  destruct (word16_bytes x0 x1) as [Hu Hb]. cbv zeta in Hu, Hb.
  now rewrite Hb.
Qed.

Lemma ReadUInt32_inv (b b' : list byte) (v : N) :
  util.ReadUInt32 b = (Ok v, b') -> b = le32 v ++ b' /\ is_u32 v = true.
Proof.
  destruct b as [|x0 [|x1 [|x2 [|x3 t]]]]; intros H; try discriminate H.
  unfold util.ReadUInt32 in H. injection H as <- <-.
  destruct (word32_bytes x0 x1 x2 x3) as [Hu Hb]. cbv zeta in Hu, Hb.
  now rewrite Hb.
Qed.

Lemma ReadBlob_inv (n : Z) (b b' d : list byte) :
  util.ReadBlob n b = (Ok d, b') -> b = d ++ b' /\ len d = Z.max 0 n.
Proof.
  unfold util.ReadBlob.
  destruct (Z.ltb_spec 0 n).
  - destruct (Z.leb_spec n (len b)); intros E; [|discriminate E].
    injection E as <- <-. split; [symmetry; apply firstn_skipn|].
    destruct (firstn_skipn_len n b ltac:(lia)) as [-> _]. lia.
  - intros E. injection E as <- <-. split; [reflexivity|].
    rewrite len_nil. lia.
Qed.

Lemma Skip_1_inv (b b' : list byte) :
  util.Skip 1 b = (Ok tt, b') -> exists tag, b = tag :: b'.
Proof.
  destruct b as [|x t]; intros H.
  - discriminate H.
  - exists x. unfold util.Skip in H.
    destruct ((0 <=? 1) && (1 <=? len (x :: t))); [|discriminate H].
    now injection H as <-.
Qed.

Lemma ret_inv {A} (a r : A) (b rest : list byte) :
  ret a b = (Ok r, rest) -> a = r /\ b = rest.
Proof. intros H. now injection H as -> ->. Qed.

(** Take an accepting run apart, one step at a time. *)
Ltac inv_step H :=
  lazymatch type of H with
  | bind util.Size _ _ = _ => rewrite bind_Size in H
  | bind util.ReadUInt8 _ _ = _ =>
      let a := fresh "x" in let b := fresh "b" in let E := fresh "E" in
      apply bind_inv in H; destruct H as (a & b & E & H);
      apply ReadUInt8_inv in E; subst
  | bind util.ReadUInt16 _ _ = _ =>
      let a := fresh "w" in let b := fresh "b" in let E := fresh "E" in
      let U := fresh "U" in
      apply bind_inv in H; destruct H as (a & b & E & H);
      apply ReadUInt16_inv in E; destruct E as [E U]; subst
  | bind util.ReadUInt32 _ _ = _ =>
      let a := fresh "d" in let b := fresh "b" in let E := fresh "E" in
      let U := fresh "U" in
      apply bind_inv in H; destruct H as (a & b & E & H);
      apply ReadUInt32_inv in E; destruct E as [E U]; subst
  | bind (util.Skip 1) _ _ = _ =>
      let a := fresh "u" in let b := fresh "b" in let E := fresh "E" in
      let t := fresh "tag" in
      apply bind_inv in H; destruct H as (a & b & E & H); destruct a;
      apply Skip_1_inv in E; destruct E as (t & E); subst
  | bind (util.ReadBlob _) _ _ = _ =>
      let a := fresh "blob" in let b := fresh "b" in let E := fresh "E" in
      let L := fresh "L" in
      apply bind_inv in H; destruct H as (a & b & E & H);
      apply ReadBlob_inv in E; destruct E as [E L]; subst
  | (if ?c then _ else _) _ = _ =>
      let G := fresh "G" in
      destruct c eqn:G; [try discriminate H | try discriminate H]
  | ret _ _ = _ => apply ret_inv in H; destruct H; subst
  end.

Ltac inv_run H := repeat (cbv beta in H; inv_step H).

(** ** PlayerLeft *)

(** X19.  The bytes the PlayerLeft decoder accepts are those [Serialize]
    writes for the record it returns, but for the record id, which is not
    looked at, and the leading constant, where 0x0E is taken for 0x01:
    serializing the record again normalises both. *)
Theorem PlayerLeft_Deserialize_sound (rec0 r : w3g.PlayerLeft)
  (enc : w3g.Encoding) (b rest : list byte) :
  w3g.PlayerLeft_Deserialize rec0 enc b = (Ok r, rest) ->
  exists (tag : byte) (c : N) (body : list byte),
    b = tag :: le32 c ++ body ++ rest
    /\ (c = 1 \/ c = 14 \/ c = 12)%N
    /\ w3g.PlayerLeft_Serialize r enc []
       = (Ok tt, w3g.RidPlayerLeft
                 :: le32 (if (c =? 14)%N then 1 else c) ++ body).
Proof.
  intros H. unfold w3g.PlayerLeft_Deserialize in H.
  inv_run H. cbn [w3g.Local_ w3g.PlayerID w3g.Reason w3g.Counter].
  exists tag, d, (x :: le32 d0 ++ le32 d1).
  split; [now shape|].
  apply orb_prop in G0. destruct G0 as [G0 | G0];
    [apply orb_prop in G0; destruct G0 as [G0 | G0]|];
    apply N.eqb_eq in G0; subst d.
  - split; [now left | reflexivity].
  - split; [now right; left | reflexivity].
  - split; [now right; right | reflexivity].
Qed.

Lemma PlayerLeft_Deserialize_sound_witness :
  exists (tag : byte) (c : N) (body : list byte),
    [xff; x0e; x00; x00; x00; x02; x01; x00; x00; x00; x05; x00; x00; x00;
     xaa]
    = tag :: le32 c ++ body ++ [xaa]
    /\ (c = 1 \/ c = 14 \/ c = 12)%N
    /\ w3g.PlayerLeft_Serialize
         {| w3g.Local_ := false; w3g.PlayerID := x02; w3g.Reason := 1;
            w3g.Counter := 5 |} (version 30) []
       = (Ok tt, w3g.RidPlayerLeft
                 :: le32 (if (c =? 14)%N then 1 else c) ++ body).
Proof.
  apply (PlayerLeft_Deserialize_sound w3g.PlayerLeft_zero). reflexivity.
Defined.

(** ** TimeSlot *)

Lemma read_actions_inv (size : Z) (b rest : list byte)
  (acts : list w3gs.PlayerAction) (left : Z) :
  w3g.read_actions size b = (Ok (acts, left), rest) ->
  b = actions_bytes acts ++ rest
  /\ size = len (actions_bytes acts) + left
  /\ left < 3.
Proof.
  assert (G : forall n size b acts,
             (Z.to_nat size < n)%nat ->
             w3g.read_actions size b = (Ok (acts, left), rest) ->
             b = actions_bytes acts ++ rest
             /\ size = len (actions_bytes acts) + left
             /\ left < 3);
    [|apply (G (S (Z.to_nat size))); lia].
  clear. induction n as [|n IH]; intros size b acts Hn H; [lia|].
  rewrite read_actions_eq in H.
  destruct (size <? 3) eqn:E; tests.
  - apply ret_inv in H. destruct H as [H ->]. injection H as <- <-.
    split; [reflexivity|].
    change (len (actions_bytes [])) with 0. lia.
  - inv_run H.
    apply bind_inv in H. destruct H as ([acts' left'] & b3 & Hr & H).
    apply ret_inv in H. destruct H as [H ->]. cbn [fst snd] in H.
    injection H as <- ->. tests.
    apply IH in Hr; [|lia]. destruct Hr as (-> & Hs & Hl).
    assert (Hb : Z.of_N w = len blob) by lia.
    assert (Hw : uint16 (len blob) = w).
    { apply N.ltb_lt in U. unfold uint16. rewrite <- Hb.
      rewrite Z.mod_small by lia. apply N2Z.id. }
    change (actions_bytes ({| w3gs.PlayerID := x; w3gs.Data := blob |}
                           :: acts'))
      with ((x :: le16 (uint16 (len blob)) ++ blob) ++ actions_bytes acts').
    rewrite Hw. split; [|split].
    + shape. reflexivity.
    + lens.
    + assumption.
Qed.

(** X20.  The bytes the TimeSlot decoder accepts are a record id followed
    by exactly the body [Serialize] writes for the record it returns, and
    then the bytes it leaves: decoding and serializing again gives the
    bytes back, up to the record id. *)
Theorem TimeSlot_Deserialize_sound (rec0 r : w3g.TimeSlot)
  (enc : w3g.Encoding) (b rest : list byte) :
  w3g.TimeSlot_Deserialize rec0 enc b = (Ok r, rest) ->
  exists tag : byte,
    b = tag :: TimeSlot_body r ++ rest
    /\ w3gs.Fragment r
       = Byte.eqb tag w3g.RidTimeSlot2 && negb (early_version enc)
    /\ exists tag' : byte,
         w3g.TimeSlot_Serialize r enc [] = (Ok tt, tag' :: TimeSlot_body r).
Proof.
  intros H. unfold w3g.TimeSlot_Deserialize in H.
  inv_run H.
  apply bind_inv in H. destruct H as ([acts left] & b3 & Hr & H).
  cbn [fst snd] in H. inv_run H. tests.
  apply read_actions_inv in Hr. destruct Hr as (-> & Hs & _).
  exists x. unfold TimeSlot_body. cbn [w3gs.Actions w3gs.TimeIncrementMS
                                        w3gs.Fragment].
  assert (Hw : uint16 (2 + len (actions_bytes acts)) = w).
  { apply N.ltb_lt in U. unfold uint16.
    replace (2 + len (actions_bytes acts)) with (Z.of_N w) by lia.
    rewrite Z.mod_small by lia. apply N2Z.id. }
  rewrite Hw. split; [|split].
  - shape. reflexivity.
  - now rewrite modern_version_test.
  - eexists.
    rewrite (TimeSlot_Serialize_bytes _ enc []). cbn [app].
    unfold TimeSlot_body. cbn [w3gs.Actions w3gs.TimeIncrementMS].
    rewrite Hw. reflexivity.
Qed.

Lemma TimeSlot_Deserialize_sound_witness :
  exists tag : byte,
    [x1f; x07; x00; x64; x00; x01; x02; x00; x0a; x0b; xff]
    = tag :: TimeSlot_body (slot_100 true) ++ [xff]
    /\ w3gs.Fragment (slot_100 true)
       = Byte.eqb tag w3g.RidTimeSlot2 && negb (early_version (version 30))
    /\ exists tag' : byte,
         w3g.TimeSlot_Serialize (slot_100 true) (version 30) []
         = (Ok tt, tag' :: TimeSlot_body (slot_100 true)).
Proof.
  apply (TimeSlot_Deserialize_sound w3g.TimeSlot_zero). reflexivity.
Defined.

(** * Factory, lengths and tolerated input *)

(** ** The factory and the ids written *)

Lemma first_byte (t : byte) (k : M unit) :
  appends k ->
  exists bytes, (util.WriteUInt8 t ;; k) [] = (Ok tt, t :: bytes).
Proof.
  intros (x & H). exists x. rewrite bind_WriteUInt8. cbn [app]. apply H.
Qed.

Lemma NewRecord_0x20 {C : w3gs.ContentCodecs} (enc : w3g.Encoding) :
  w3g.NewRecord w3g.DefaultFactory w3g.RidChatMessage enc
  = Some (if ((w3g.GameVersion enc =? 0) || (2 <? w3g.GameVersion enc))%N
          then w3g.RChatMessage w3g.ChatMessage_zero
          else w3g.RTimeSlotAck w3g.TimeSlotAck_zero).
Proof. reflexivity. Qed.

(** X21.  The id [Serialize] writes in front of a record leads the default
    factory back to the type of the record, with one exception: in game
    versions 1 and 2 the id of a chat message is the one the factory gives
    to the time slot acknowledgement, so that a chat message written under
    such a version is read back as an acknowledgement. *)
Theorem factory_finds_serialized_type {C : w3gs.ContentCodecs}
  (rec : w3g.AnyRecord) (enc : w3g.Encoding) :
  codec_appends enc rec ->
  exists (tag : byte) (bytes : list byte) (r0 : w3g.AnyRecord),
    w3g.Serialize rec enc [] = (Ok tt, tag :: bytes)
    /\ w3g.NewRecord w3g.DefaultFactory tag enc = Some r0
    /\ same_type r0 rec
       = negb (same_type rec (w3g.RChatMessage w3g.ChatMessage_zero)
               && early_version enc)
    /\ (same_type r0 rec = false ->
        r0 = w3g.RTimeSlotAck w3g.TimeSlotAck_zero).
Proof.
  intros H.
  assert (F : forall (t : byte) (k : M unit) (r0 : w3g.AnyRecord),
             appends k ->
             w3g.NewRecord w3g.DefaultFactory t enc = Some r0 ->
             same_type r0 rec = true ->
             exists (tag : byte) (bytes : list byte) (r0 : w3g.AnyRecord),
               (util.WriteUInt8 t ;; k) [] = (Ok tt, tag :: bytes)
               /\ w3g.NewRecord w3g.DefaultFactory tag enc = Some r0
               /\ same_type r0 rec = true
               /\ (same_type r0 rec = false ->
                   r0 = w3g.RTimeSlotAck w3g.TimeSlotAck_zero)).
  { intros t k r0 Hk Hn Hs. destruct (first_byte t k Hk) as (x & Hx).
    exists t, x, r0. repeat split; try assumption.
    intros E. congruence. }
  destruct rec as [r|r|r|r|r|r|r|r|r|r|r|r|r];
    cbn [codec_appends w3g.Serialize same_type andb negb] in *.
  - unfold w3g.GameInfo_Serialize.
    eapply F; [app_run | reflexivity | reflexivity].
  - unfold w3g.PlayerInfo_Serialize.
    eapply F; [app_run | reflexivity | reflexivity].
  - unfold w3g.PlayerLeft_Serialize.
    eapply F; [app_run | reflexivity | reflexivity].
  - unfold w3g.SlotInfo_Serialize.
    eapply F; [app_run | reflexivity | reflexivity].
  - unfold w3g.CountDownStart_Serialize.
    eapply F; [app_run | reflexivity | reflexivity].
  - unfold w3g.CountDownEnd_Serialize.
    eapply F; [app_run | reflexivity | reflexivity].
  - unfold w3g.GameStart_Serialize.
    eapply F; [app_run | reflexivity | reflexivity].
  - rewrite TimeSlot_Serialize_bytes. cbn [app].
    destruct (w3gs.Fragment r
              || (0 <? w3g.GameVersion enc)%N
                 && (w3g.GameVersion enc <=? 2)%N);
      do 3 eexists; (split; [reflexivity|]);
      (split; [reflexivity|]); split; [reflexivity | discriminate
                                      | reflexivity | discriminate].
  - unfold w3g.ChatMessage_Serialize.
    destruct (first_byte w3g.RidChatMessage
                (util.WriteUInt8 (w3gs.SenderID r) ;;
                 (if Byte.eqb (w3gs.Type_ r) w3gs.MsgChatExtra
                  then util.WriteUInt16
                         (uint16 (6 + len (w3gs.Content r)))
                  else if Byte.eqb (w3gs.Type_ r) w3gs.MsgChat
                       then util.WriteUInt16
                              (uint16 (2 + len (w3gs.Content r)))
                       else util.WriteUInt16 2) ;;
                 util.WriteUInt8 (w3gs.Type_ r) ;;
                 (if Byte.eqb (w3gs.Type_ r) w3gs.MsgChatExtra
                  then util.WriteUInt32 (w3gs.Scope r) ;;
                       protocol.WriteCString (w3gs.Content r)
                  else if Byte.eqb (w3gs.Type_ r) w3gs.MsgChat
                       then protocol.WriteCString (w3gs.Content r)
                       else util.WriteUInt8 (w3gs.NewVal r))))
      as (x & Hx); [app_run|].
    exists w3g.RidChatMessage, x.
    exists (if negb (early_version enc)
            then w3g.RChatMessage w3g.ChatMessage_zero
            else w3g.RTimeSlotAck w3g.TimeSlotAck_zero).
    split; [exact Hx|]. split.
    + now rewrite NewRecord_0x20, modern_version_test.
    + now destruct (early_version enc).
  - unfold w3g.TimeSlotAck_Serialize.
    destruct ((w3g.GameVersion enc =? 0) || (2 <? w3g.GameVersion enc))%N
      eqn:E.
    + eapply F; [app_run | reflexivity | reflexivity].
    + eapply (F _ _ (w3g.RTimeSlotAck w3g.TimeSlotAck_zero));
        [app_run | | reflexivity].
      now rewrite NewRecord_0x20, E.
  - unfold w3g.Desync_Serialize.
    eapply F; [app_run | reflexivity | reflexivity].
  - unfold w3g.EndTimer_Serialize.
    eapply F; [app_run | reflexivity | reflexivity].
  - unfold w3g.PlayerExtra_Serialize.
    eapply F; [app_run | reflexivity | reflexivity].
Qed.

Lemma factory_finds_serialized_type_witness :
  exists (tag : byte) (bytes : list byte) (r0 : w3g.AnyRecord),
    w3g.Serialize (C := w3gs.opaque_contents) (w3g.RChatMessage chat_hi)
      (version 2) []
    = (Ok tt, tag :: bytes)
    /\ w3g.NewRecord (C := w3gs.opaque_contents) w3g.DefaultFactory tag
         (version 2)
       = Some r0
    /\ same_type r0 (w3g.RChatMessage chat_hi) = false
    /\ (same_type r0 (w3g.RChatMessage chat_hi) = false ->
        r0 = w3g.RTimeSlotAck w3g.TimeSlotAck_zero).
Proof.
  exact (factory_finds_serialized_type (C := w3gs.opaque_contents)
           (w3g.RChatMessage chat_hi) (version 2) I).
Defined.

(** ** Lengths that do not fit their field *)

(** X22.  The length byte of a time slot acknowledgement is the length of
    the checksum modulo 256: of a checksum of 256 bytes or more,
    [Deserialize] takes the first [len mod 256] bytes of what [Serialize]
    wrote and leaves the others in the buffer, without error. *)
Theorem TimeSlotAck_length_wraps (sum : list byte)
  (rec0 : w3g.TimeSlotAck) (enc : w3g.Encoding) (rest : list byte) :
  exists tag : byte,
    w3g.TimeSlotAck_Serialize {| w3g.Checksum := sum |} enc []
    = (Ok tt, tag :: uint8 (len sum) :: sum)
    /\ w3g.TimeSlotAck_Deserialize rec0 enc
         (tag :: uint8 (len sum) :: sum ++ rest)
       = (Ok {| w3g.Checksum := firstn (Z.to_nat (len sum mod 256)) sum |},
          skipn (Z.to_nat (len sum mod 256)) sum ++ rest).
Proof.
  set (k := Z.to_nat (len sum mod 256)).
  pose proof (len_nonneg sum) as Hs.
  pose proof (len_nonneg rest) as Hr.
  pose proof (Z.mod_pos_bound (len sum) 256 ltac:(lia)) as Hm.
  assert (Hle : len sum mod 256 <= len sum) by (apply Z.mod_le; lia).
  exists (if ((w3g.GameVersion enc =? 0) || (2 <? w3g.GameVersion enc))%N
          then w3g.RidTimeSlotAck else w3g.RidChatMessage).
  split.
  - unfold w3g.TimeSlotAck_Serialize. cbn [w3g.Checksum].
    now destruct ((w3g.GameVersion enc =? 0) || (2 <? w3g.GameVersion enc))%N.
  - unfold w3g.TimeSlotAck_Deserialize.
    rewrite bind_Size. pass.
    rewrite bind_Skip_1, bind_ReadUInt8, bind_Size.
    assert (Hu : Z.of_N (of_byte (uint8 (len sum))) = len sum mod 256).
    { unfold uint8. rewrite of_to_byte.
      rewrite N.mod_small by lia. lia. }
    rewrite Hu. pass.
    assert (Hk : len sum mod 256 = len (firstn k sum)).
    { unfold k. clear - Hm Hle. unfold len in *.
      rewrite length_firstn.
      set (m := Z.of_nat (length sum) mod 256) in *. lia. }
    rewrite Hk.
    replace (sum ++ rest) with (firstn k sum ++ skipn k sum ++ rest)
      by (now rewrite app_assoc, firstn_skipn).
    now rewrite bind_ReadBlob.
Qed.

(** ** Input the PlayerInfo decoder tolerates *)

Lemma bind_assoc {A B D} (c : M A) (k : A -> M B) (k' : B -> M D)
  (b : list byte) :
  bind (bind c k) k' b = bind c (fun a => bind (k a) k') b.
Proof. unfold bind. now destruct (c b) as [[a|e|] b']. Qed.

(** X23.  Behind the name of a player record comes a length byte and that
    many bytes of additional data, then four bytes that are skipped.  The
    decoder accepts the lengths 0, 1 and 2 with any data and any four
    trailing bytes, and returns race and join counter zero; a length other
    than 0, 1, 2 and 8 is an unexpected constant.  The first guard asks for
    nine bytes, so the shortest such record, of eight bytes, is refused
    as a short buffer when nothing follows it. *)
Theorem PlayerInfo_additional_data (rec0 : w3g.PlayerInfo)
  (enc : w3g.Encoding) (tag id n : byte)
  (name extra trailer rest : list byte) :
  no_zero name ->
  len extra = Z.of_N (of_byte n) ->
  len trailer = 4 ->
  of_byte n <> 8%N ->
  w3g.PlayerInfo_Deserialize rec0 enc
    (tag :: id :: cstring name ++ n :: extra ++ trailer ++ rest)
  = if len name + len extra + len rest <? 1 then
      (Err ErrShortBuffer,
       tag :: id :: cstring name ++ n :: extra ++ trailer ++ rest)
    else if (of_byte n <=? 2)%N then
      (Ok {| w3g.ID := id; w3g.Name := name; w3g.Race := 0;
             w3g.JoinCounter := 0 |}, rest)
    else (Err ErrUnexpectedConst, extra ++ trailer ++ rest).
Proof.
  intros Hz He Ht H8.
  pose proof (len_nonneg name). pose proof (len_nonneg extra).
  pose proof (len_nonneg rest).
  unfold w3g.PlayerInfo_Deserialize. rewrite bind_Size.
  destruct (len name + len extra + len rest <? 1) eqn:E; tests.
  - rewrite ltb_true by lens. reflexivity.
  - pass. rewrite bind_Skip_1.
    unfold w3g.PlayerInfo_DeserializeContent.
    rewrite bind_assoc, bind_Size. pass.
    rewrite bind_assoc, bind_ReadUInt8.
    rewrite bind_assoc, bind_ReadCString by assumption. cbn [fst snd].
    rewrite bind_assoc, bind_Size. pass.
    rewrite bind_assoc, bind_ReadUInt8.
    rewrite bind_assoc, bind_Size. rewrite <- He. pass.
    destruct (N.eqb_spec (of_byte n) 1) as [E1|E1];
      [|destruct (N.eqb_spec (of_byte n) 2) as [E2|E2]]; cbn [orb].
    + rewrite (proj2 (N.leb_le _ _)) by lia.
      rewrite bind_assoc, bind_Skip_app. cbn [bind ret].
      rewrite bind_Size. pass. rewrite <- Ht. now rewrite bind_Skip_app.
    + rewrite (proj2 (N.leb_le _ _)) by lia.
      rewrite bind_assoc, bind_Skip_app. cbn [bind ret].
      rewrite bind_Size. pass. rewrite <- Ht. now rewrite bind_Skip_app.
    + destruct (N.eqb_spec (of_byte n) 0) as [E0|E0].
      * rewrite (proj2 (N.leb_le _ _)) by lia.
        assert (extra = []) as ->.
        { destruct extra; [reflexivity|]. rewrite len_cons in He.
          pose proof (len_nonneg extra). lia. }
        cbn [app]. cbn [bind ret].
        rewrite bind_Size. pass. rewrite <- Ht. now rewrite bind_Skip_app.
      * rewrite (proj2 (N.eqb_neq _ _) H8).
        rewrite (proj2 (N.leb_gt _ _)) by lia. reflexivity.
Qed.

Lemma PlayerInfo_additional_data_witness :
  w3g.PlayerInfo_Deserialize w3g.PlayerInfo_zero (version 30)
    [x16; x01; x61; x00; x02; xaa; xbb; x01; x02; x03; x04; xff]
  = (Ok {| w3g.ID := x01; w3g.Name := [x61]; w3g.Race := 0;
           w3g.JoinCounter := 0 |}, [xff])
  /\ w3g.PlayerInfo_Deserialize w3g.PlayerInfo_zero (version 30)
       [x16; x01; x00; x00; x01; x02; x03; x04]
     = (Err ErrShortBuffer, [x16; x01; x00; x00; x01; x02; x03; x04]).
Proof.
  split.
  - refine (PlayerInfo_additional_data w3g.PlayerInfo_zero (version 30)
              x16 x01 x02 [x61] [xaa; xbb] [x01; x02; x03; x04] [xff]
              _ eq_refl eq_refl _).
    + intros [E | []]. discriminate E.
    + intros E. discriminate E.
  - refine (PlayerInfo_additional_data w3g.PlayerInfo_zero (version 30)
              x16 x01 x00 [] [] [x01; x02; x03; x04] []
              _ eq_refl eq_refl _).
    + intros [].
    + intros E. discriminate E.
Defined.

(** * The slot loops of w3gdump *)

(** ** Sanitized colours *)

Lemma playing_spec (m : byte) (s : w3gs.SlotData) :
  (of_byte m <=? of_byte (w3gs.Team s))%N = negb (playing m s).
Proof.
  unfold playing.
  destruct (N.leb_spec (of_byte m) (of_byte (w3gs.Team s))),
    (N.ltb_spec (of_byte (w3gs.Team s)) (of_byte m)); try reflexivity; lia.
Qed.

Lemma set_Color_twice (s : w3gs.SlotData) (c d : byte) :
  w3gdump.set_Color (w3gdump.set_Color s c) d = w3gdump.set_Color s d.
Proof. reflexivity. Qed.

(** X24.  The sanitizing loop changes nothing but colours, and only those
    of the slots below team [maxp]: the slots keep their number and order,
    every field other than the colour, and the observer slots their colour
    too; a second run changes nothing more. *)
Theorem sane_colors_only_colors (m c : byte) (slots : list w3gs.SlotData) :
  map (fun s => w3gdump.set_Color s x00) (w3gdump.sane_colors m c slots)
  = map (fun s => w3gdump.set_Color s x00) slots
  /\ filter (fun s => negb (playing m s)) (w3gdump.sane_colors m c slots)
     = filter (fun s => negb (playing m s)) slots
  /\ w3gdump.sane_colors m c (w3gdump.sane_colors m c slots)
     = w3gdump.sane_colors m c slots.
Proof.
  revert c. induction slots as [|s slots IH]; intros c.
  - repeat split.
  - cbn [w3gdump.sane_colors]. rewrite playing_spec.
    destruct (playing m s) eqn:E; cbn [negb map filter].
    + destruct (IH (to_byte (of_byte c + 1))) as (I1 & I2 & I3).
      change (playing m (w3gdump.set_Color s c)) with (playing m s).
      rewrite E. cbn [negb]. rewrite set_Color_twice, I1, I2.
      repeat split. cbn [w3gdump.sane_colors].
      change (w3gs.Team (w3gdump.set_Color s c)) with (w3gs.Team s).
      rewrite playing_spec, E. cbn [negb].
      now rewrite set_Color_twice, I3.
    + destruct (IH c) as (I1 & I2 & I3).
      rewrite E. cbn [negb]. rewrite I1, I2. repeat split.
      cbn [w3gdump.sane_colors]. rewrite playing_spec, E. cbn [negb].
      now rewrite I3.
Qed.

Lemma to_byte_mod (v : N) : to_byte (v mod 256) = to_byte v.
Proof. unfold to_byte. now rewrite N.Div0.mod_mod. Qed.

Lemma color_after_0 (c : byte) : color_after c 0 = c.
Proof. unfold color_after. rewrite N.add_0_r. apply to_of_byte. Qed.

Lemma color_after_S (c : byte) (i : nat) :
  color_after (to_byte (of_byte c + 1)) i = color_after c (S i).
Proof.
  unfold color_after. rewrite of_to_byte.
  rewrite <- (to_byte_mod (_ + _)), N.Div0.add_mod_idemp_l, to_byte_mod.
  f_equal. lia.
Qed.

Lemma sane_colors_colors (m c : byte) (slots : list w3gs.SlotData) :
  map w3gs.Color (filter (playing m) (w3gdump.sane_colors m c slots))
  = map (color_after c) (seq 0 (length (filter (playing m) slots))).
Proof.
  revert c. induction slots as [|s slots IH]; intros c; [reflexivity|].
  cbn [w3gdump.sane_colors]. rewrite playing_spec.
  destruct (playing m s) eqn:E; cbn [negb filter].
  - change (playing m (w3gdump.set_Color s c)) with (playing m s).
    rewrite E. cbn [map length seq]. rewrite color_after_0. f_equal.
    rewrite IH, <- seq_shift, map_map.
    apply map_ext. intros i. apply color_after_S.
  - rewrite E. apply IH.
Qed.

Lemma NoDup_map_seq {A} (f : nat -> A) (a k : nat) :
  (forall i j, (a <= i < a + k)%nat -> (a <= j < a + k)%nat ->
               f i = f j -> i = j) ->
  NoDup (map f (seq a k)).
Proof.
  revert a. induction k as [|k IH]; intros a H; cbn [seq map].
  - constructor.
  - constructor.
    + intros Hin. apply in_map_iff in Hin. destruct Hin as (j & Hj & Hin).
      apply in_seq in Hin. apply H in Hj; lia.
    + apply IH. intros i j Hi Hj. apply H; lia.
Qed.

(** X25.  The slots below team [maxp] take, in order, the colours [c],
    [c+1], ... of the [uint8] counter; up to 256 such slots the colours are
    pairwise different. *)
Theorem sane_colors_consecutive (m c : byte) (slots : list w3gs.SlotData) :
  (length (filter (playing m) slots) <= 256)%nat ->
  map w3gs.Color (filter (playing m) (w3gdump.sane_colors m c slots))
  = map (color_after c) (seq 0 (length (filter (playing m) slots)))
  /\ NoDup (map w3gs.Color
              (filter (playing m) (w3gdump.sane_colors m c slots))).
Proof.
  intros Hk. split; [apply sane_colors_colors|].
  rewrite sane_colors_colors. apply NoDup_map_seq.
  intros i j Hi Hj E. unfold color_after in E.
  apply (f_equal of_byte) in E. rewrite !of_to_byte in E.
  pose proof (of_byte_bound c) as Hc.
  set (x := of_byte c) in *.
  assert (Hi' : (N.of_nat i < 256)%N) by lia.
  assert (Hj' : (N.of_nat j < 256)%N) by lia.
  destruct (N.lt_ge_cases (x + N.of_nat i) 256) as [Li|Li];
    destruct (N.lt_ge_cases (x + N.of_nat j) 256) as [Lj|Lj].
  - rewrite !N.mod_small in E by assumption. lia.
  - rewrite (N.mod_small (x + N.of_nat i)) in E by assumption.
    replace (x + N.of_nat j)%N with (x + N.of_nat j - 256 + 1 * 256)%N in E
      by lia.
    rewrite N.Div0.mod_add, N.mod_small in E by lia. lia.
  - rewrite (N.mod_small (x + N.of_nat j)) in E by assumption.
    replace (x + N.of_nat i)%N with (x + N.of_nat i - 256 + 1 * 256)%N in E
      by lia.
    rewrite N.Div0.mod_add, N.mod_small in E by lia. lia.
  - replace (x + N.of_nat i)%N with (x + N.of_nat i - 256 + 1 * 256)%N in E
      by lia.
    replace (x + N.of_nat j)%N with (x + N.of_nat j - 256 + 1 * 256)%N in E
      by lia.
    rewrite !N.Div0.mod_add, !N.mod_small in E by lia. lia.
Qed.

Lemma sane_colors_consecutive_witness :
  map w3gs.Color
    (filter (playing (w3gdump.maxp 30))
       (w3gdump.sane_colors (w3gdump.maxp 30) x00 three_slots))
  = [x00; x01]
  /\ NoDup (map w3gs.Color
              (filter (playing (w3gdump.maxp 30))
                 (w3gdump.sane_colors (w3gdump.maxp 30) x00 three_slots))).
Proof.
  apply (sane_colors_consecutive (w3gdump.maxp 30) x00 three_slots).
  vm_compute. repeat constructor.
Defined.

(** ** The player a replay is cast as *)

Lemma last_cons {A} (x d : A) (l : list A) : last (x :: l) d = last l x.
Proof.
  revert x d. induction l as [|y l IH]; intros x d; [reflexivity|].
  change (last (x :: y :: l) d) with (last (y :: l) d).
  now rewrite (IH y d), (IH y x).
Qed.

(** X26.  The player id picked by the loop of [cast] is that of the last
    slot that is occupied and not a computer, and the id of the host when
    there is no such slot. *)
Theorem pick_host_last (occupied hostID : byte)
  (slots : list w3gs.SlotData) :
  w3gdump.pick_host occupied hostID slots
  = last (map w3gs.Slot_PlayerID (filter (human occupied) slots)) hostID.
Proof.
  revert hostID. induction slots as [|s slots IH]; intros h; [reflexivity|].
  cbn [w3gdump.pick_host filter]. fold (human occupied s).
  destruct (human occupied s); [|apply IH].
  cbn [map]. now rewrite last_cons, IH.
Qed.
